(** * ezmesh: the two-phase mesh transaction protocol of [geometry.py]

    A shallow embedding of [src/ezmesh/geometry.py].  Python objects live in
    a heap of arenas (one per class), and an entity refers to another by its
    index, so that a [Point] shared by several [Line]s is one object.  The
    gmsh kernel is opaque: the model records every call made to it, in
    order, and takes the integer each call returns from an arbitrary
    function of the calls made so far.  A kernel call is taken to return;
    the exceptions modelled are those the Python code itself can raise.

    A method reads the attributes of [self] from the object as it was on
    entry, except where the method itself has assigned them in between
    ([line_tags] in [CurveLoop.before_sync]); no callee assigns the
    attributes so read. *)

From Stdlib Require Import QArith.
From stdpp Require Import base list strings gmap.

Close Scope Q_scope.
#[local] Set Warnings "-clear-no-such-hyp".
Open Scope string_scope.
Open Scope list_scope.
Open Scope nat_scope.
Open Scope stdpp_scope.

(** ** Data model *)

(** [class DimType(Enum)] and its [.value]. *)
Inductive DimType := POINT | CURVE | SURFACE | VOLUME.

Definition DimType_value (d : DimType) : Z :=
  match d with POINT => 0 | CURVE => 1 | SURFACE => 2 | VOLUME => 3 end.

(** A Python float that is only stored, tested for truth and handed to the
    kernel is modelled as a rational; an [int] is a [Z]. *)
Definition float := Q.

(** The attributes that [MeshTransaction.__init__] gives every entity. *)
Record MeshTransaction := mkMeshTransaction {
  tag : option Z;
  before_sync_initiated : bool;
  after_sync_initiated : bool
}.

(** [MeshTransaction.__init__] *)
Definition MeshTransaction_init : MeshTransaction :=
  {| tag := None; before_sync_initiated := false; after_sync_initiated := false |}.

(** [MeshTransaction.before_sync] *)
Definition MeshTransaction_before_sync (self : MeshTransaction) : MeshTransaction :=
  {| tag := tag self; before_sync_initiated := true;
     after_sync_initiated := after_sync_initiated self |}.

(** [MeshTransaction.after_sync] *)
Definition MeshTransaction_after_sync (self : MeshTransaction) : MeshTransaction :=
  {| tag := tag self; before_sync_initiated := before_sync_initiated self;
     after_sync_initiated := true |}.

(** The assignment [self.tag = t]. *)
Definition set_tag (t : option Z) (self : MeshTransaction) : MeshTransaction :=
  {| tag := t; before_sync_initiated := before_sync_initiated self;
     after_sync_initiated := after_sync_initiated self |}.

(** [class Point(MeshTransaction)], after [__post_init__]. *)
Record Point := mkPoint {
  Point_x : float;
  Point_y : float;
  Point_z : float;
  Point_mesh_size : float;
  Point_label : option Z;
  Point_base : MeshTransaction
}.

(** The fields [TransfiniteLine] adds to [Line]. *)
Record TransfiniteLine := mkTransfiniteLine {
  cell_count : Z;
  mesh_type : string;
  coeff : float
}.

(** [class Line(MeshTransaction)]; [Line_transfinite] is [Some] exactly for
    an instance of the subclass [TransfiniteLine]. *)
Record Line := mkLine {
  Line_start : nat;
  Line_end : nat;
  Line_label : option string;
  Line_transfinite : option TransfiniteLine;
  Line_base : MeshTransaction
}.

(** [class CurveLoop(MeshTransaction)]; [lines] and [fields] hold
    references, [line_tags] is the list filled by [before_sync]. *)
Record CurveLoop := mkCurveLoop {
  CurveLoop_lines : list nat;
  CurveLoop_fields : list nat;
  CurveLoop_line_tags : list (option Z);
  CurveLoop_base : MeshTransaction
}.

(** [class PlaneSurface(MeshTransaction)]; [PlaneSurface_curve_loops] is the
    attribute [curve_loops = outlines + holes] set by [__post_init__], and
    [PlaneSurface_corners] is [Some] exactly for an instance of the subclass
    [TransfinitePlaneSurface].  The attribute [transfinite_corners] is read
    by no method and is left out. *)
Record PlaneSurface := mkPlaneSurface {
  PlaneSurface_outlines : list nat;
  PlaneSurface_holes : list nat;
  PlaneSurface_curve_loops : list nat;
  PlaneSurface_label : option string;
  PlaneSurface_is_quad_mesh : bool;
  PlaneSurface_corners : option (list nat);
  PlaneSurface_base : MeshTransaction
}.

(** The dataclass fields of [class BoundaryLayer(Field)]. *)
Record BoundaryLayer := mkBoundaryLayer {
  aniso_max : option float;
  hfar : option float;
  hwall_n : option float;
  ratio : option float;
  thickness : option float;
  intersect_metrics : bool;
  is_quad_mesh : bool
}.

(** [class Field(MeshTransaction)]; [Field_layer] is [Some] exactly for an
    instance of the subclass [BoundaryLayer]. *)
Record Field := mkField {
  Field_layer : option BoundaryLayer;
  Field_base : MeshTransaction
}.

(** The update [self.<base attribute> = ...] on each class. *)
Definition Point_on_base (f : MeshTransaction → MeshTransaction) (o : Point) : Point :=
  {| Point_x := Point_x o; Point_y := Point_y o; Point_z := Point_z o;
     Point_mesh_size := Point_mesh_size o; Point_label := Point_label o;
     Point_base := f (Point_base o) |}.

Definition Line_on_base (f : MeshTransaction → MeshTransaction) (o : Line) : Line :=
  {| Line_start := Line_start o; Line_end := Line_end o; Line_label := Line_label o;
     Line_transfinite := Line_transfinite o; Line_base := f (Line_base o) |}.

Definition CurveLoop_on_base (f : MeshTransaction → MeshTransaction) (o : CurveLoop) : CurveLoop :=
  {| CurveLoop_lines := CurveLoop_lines o; CurveLoop_fields := CurveLoop_fields o;
     CurveLoop_line_tags := CurveLoop_line_tags o; CurveLoop_base := f (CurveLoop_base o) |}.

(** [self.line_tags.append(t)] *)
Definition CurveLoop_append_line_tag (t : option Z) (o : CurveLoop) : CurveLoop :=
  {| CurveLoop_lines := CurveLoop_lines o; CurveLoop_fields := CurveLoop_fields o;
     CurveLoop_line_tags := CurveLoop_line_tags o ++ [t]; CurveLoop_base := CurveLoop_base o |}.

Definition PlaneSurface_on_base (f : MeshTransaction → MeshTransaction) (o : PlaneSurface)
  : PlaneSurface :=
  {| PlaneSurface_outlines := PlaneSurface_outlines o; PlaneSurface_holes := PlaneSurface_holes o;
     PlaneSurface_curve_loops := PlaneSurface_curve_loops o;
     PlaneSurface_label := PlaneSurface_label o;
     PlaneSurface_is_quad_mesh := PlaneSurface_is_quad_mesh o;
     PlaneSurface_corners := PlaneSurface_corners o;
     PlaneSurface_base := f (PlaneSurface_base o) |}.

Definition Field_on_base (f : MeshTransaction → MeshTransaction) (o : Field) : Field :=
  {| Field_layer := Field_layer o; Field_base := f (Field_base o) |}.

(** ** The kernel *)

(** One constructor per gmsh entry point the module calls.  An argument
    read from an entity's [tag] attribute is an [option Z], since the
    attribute is [None] until the entity is constructed. *)
Inductive GmshCall :=
| initialize
| finalize
| write (filename : string)
| geo_add_point (x y z mesh_size : float)
| geo_add_line (start_tag end_tag : option Z)
| geo_add_curve_loop (line_tags : list (option Z))
| geo_add_plane_surface (curve_loop_tags : list (option Z))
| geo_synchronize
| mesh_set_transfinite_curve (t : option Z) (num_nodes : Z) (ty : string) (c : float)
| mesh_set_transfinite_surface (t : option Z) (corner_tags : list (option Z))
| mesh_set_recombine (dim : Z) (t : option Z)
| add_physical_group (dim : Z) (tags : list (option Z))
| set_physical_name (dim : Z) (group_tag : Z) (name : string)
| field_add (kind : string)
| field_setNumbers (t : Z) (key : string) (values : list (option Z))
| field_setNumber (t : Z) (key : string) (value : float)
| field_setAsBoundaryLayer (t : Z)
| mesh_generate
| option_set_number (key : string) (value : float).

(** ** The heap and the state *)

Record State := mkState {
  heap_points : list Point;
  heap_lines : list Line;
  heap_loops : list CurveLoop;
  heap_surfaces : list PlaneSurface;
  heap_fields : list Field;
  gmsh_calls : list GmshCall
}.

Definition with_points (f : list Point → list Point) (st : State) : State :=
  {| heap_points := f (heap_points st); heap_lines := heap_lines st;
     heap_loops := heap_loops st; heap_surfaces := heap_surfaces st;
     heap_fields := heap_fields st; gmsh_calls := gmsh_calls st |}.

Definition with_lines (f : list Line → list Line) (st : State) : State :=
  {| heap_points := heap_points st; heap_lines := f (heap_lines st);
     heap_loops := heap_loops st; heap_surfaces := heap_surfaces st;
     heap_fields := heap_fields st; gmsh_calls := gmsh_calls st |}.

Definition with_loops (f : list CurveLoop → list CurveLoop) (st : State) : State :=
  {| heap_points := heap_points st; heap_lines := heap_lines st;
     heap_loops := f (heap_loops st); heap_surfaces := heap_surfaces st;
     heap_fields := heap_fields st; gmsh_calls := gmsh_calls st |}.

Definition with_surfaces (f : list PlaneSurface → list PlaneSurface) (st : State) : State :=
  {| heap_points := heap_points st; heap_lines := heap_lines st;
     heap_loops := heap_loops st; heap_surfaces := f (heap_surfaces st);
     heap_fields := heap_fields st; gmsh_calls := gmsh_calls st |}.

Definition with_fields (f : list Field → list Field) (st : State) : State :=
  {| heap_points := heap_points st; heap_lines := heap_lines st;
     heap_loops := heap_loops st; heap_surfaces := heap_surfaces st;
     heap_fields := f (heap_fields st); gmsh_calls := gmsh_calls st |}.

Definition with_calls (f : list GmshCall → list GmshCall) (st : State) : State :=
  {| heap_points := heap_points st; heap_lines := heap_lines st;
     heap_loops := heap_loops st; heap_surfaces := heap_surfaces st;
     heap_fields := heap_fields st; gmsh_calls := f (gmsh_calls st) |}.

(** ** Exceptions and the state monad *)

(** [DanglingRef] is the model's own: a reference outside its arena, which
    no Python object can be. *)
Inductive PyError := TypeError | IndexError | DanglingRef.

Inductive Result (A : Type) :=
| Ok (a : A)
| Raise (e : PyError).
Arguments Ok {A} a.
Arguments Raise {A} e.

Definition M (A : Type) : Type := State → Result (A * State).

#[global] Instance M_ret : MRet M := λ A a st, Ok (a, st).

#[global] Instance M_bind : MBind M := λ A B f m st,
  match m st with
  | Ok (a, st') => f a st'
  | Raise e => Raise e
  end.

Definition raise {A} (e : PyError) : M A := λ _, Raise e.

(** A [for] loop that threads a local variable. *)
Fixpoint for_acc {A B} (xs : list A) (acc : B) (body : B → A → M B) : M B :=
  match xs with
  | [] => mret acc
  | x :: xs' => acc' ← body acc x; for_acc xs' acc' body
  end.

(** [for x in xs: body(x)] *)
Definition for_ {A} (xs : list A) (body : A → M unit) : M unit :=
  for_acc xs tt (λ _ x, body x).

(** [if c: body] *)
Definition when (c : bool) (body : M unit) : M unit :=
  if c then body else mret tt.

(** Reading and mutating the object a reference names. *)
Definition deref {A} (arena : State → list A) (i : nat) : M A := λ st,
  match arena st !! i with
  | Some o => Ok (o, st)
  | None => Raise DanglingRef
  end.

Definition get_point : nat → M Point := deref heap_points.
Definition get_line : nat → M Line := deref heap_lines.
Definition get_loop : nat → M CurveLoop := deref heap_loops.
Definition get_surface : nat → M PlaneSurface := deref heap_surfaces.
Definition get_field : nat → M Field := deref heap_fields.

Definition mutate {A} (arena : State → list A)
    (store : (list A → list A) → State → State) (i : nat) (f : A → A) : M unit := λ st,
  match arena st !! i with
  | Some o => Ok (tt, store <[i := f o]> st)
  | None => Raise DanglingRef
  end.

Definition modify_point : nat → (Point → Point) → M unit := mutate heap_points with_points.
Definition modify_line : nat → (Line → Line) → M unit := mutate heap_lines with_lines.
Definition modify_loop : nat → (CurveLoop → CurveLoop) → M unit :=
  mutate heap_loops with_loops.
Definition modify_surface : nat → (PlaneSurface → PlaneSurface) → M unit :=
  mutate heap_surfaces with_surfaces.
Definition modify_field : nat → (Field → Field) → M unit := mutate heap_fields with_fields.

(** Python truthiness of the values the module tests with a bare [if]. *)
Definition truthy_float (o : option float) : bool :=
  match o with
  | Some q => negb (Qeq_bool q 0)
  | None => false
  end.

Definition truthy_str (o : option string) : bool :=
  match o with
  | Some s => negb (String.eqb s "")
  | None => false
  end.

Definition float_of_bool (b : bool) : float := if b then 1%Q else 0%Q.

(** ** The methods of the entity classes *)

Section Kernel.

(** The integer the kernel returns from a call, given every call made so
    far (that call included).  Nothing is assumed about it. *)
Variable kernel_reply : list GmshCall → Z.

(** One call into gmsh, and its return value. *)
Definition gmsh (c : GmshCall) : M Z := λ st,
  let calls := gmsh_calls st ++ [c] in
  Ok (kernel_reply calls, with_calls (λ _, calls) st).

(** A call whose return value is dropped. *)
Definition gmsh_ (c : GmshCall) : M unit := gmsh c;; mret tt.

(** [Point.before_sync] *)
Definition Point_before_sync (p : nat) : M unit :=
  self ← get_point p;
  when (negb (before_sync_initiated (Point_base self)))
    (t ← gmsh (geo_add_point (Point_x self) (Point_y self) (Point_z self)
                             (Point_mesh_size self));
     modify_point p (Point_on_base (set_tag (Some t))));;
  modify_point p (Point_on_base MeshTransaction_before_sync).

(** [Line.before_sync], inherited by [TransfiniteLine]. *)
Definition Line_before_sync (l : nat) : M unit :=
  self ← get_line l;
  when (negb (before_sync_initiated (Line_base self)))
    (Point_before_sync (Line_start self);;
     Point_before_sync (Line_end self);;
     s ← get_point (Line_start self);
     e ← get_point (Line_end self);
     t ← gmsh (geo_add_line (tag (Point_base s)) (tag (Point_base e)));
     modify_line l (Line_on_base (set_tag (Some t))));;
  modify_line l (Line_on_base MeshTransaction_before_sync).

(** [Field.before_sync], inherited by [BoundaryLayer]; the loop argument is
    not used. *)
Definition Field_before_sync (f : nat) (curve_loop : nat) : M unit :=
  modify_field f (Field_on_base MeshTransaction_before_sync).

(** [CurveLoop.before_sync] *)
Definition CurveLoop_before_sync (c : nat) : M unit :=
  self ← get_loop c;
  when (negb (before_sync_initiated (CurveLoop_base self)))
    (for_ (CurveLoop_lines self) (λ l,
       Line_before_sync l;;
       line ← get_line l;
       modify_loop c (CurveLoop_append_line_tag (tag (Line_base line))));;
     self' ← get_loop c;
     t ← gmsh (geo_add_curve_loop (CurveLoop_line_tags self'));
     modify_loop c (CurveLoop_on_base (set_tag (Some t)));;
     for_ (CurveLoop_fields self) (λ f, Field_before_sync f c));;
  modify_loop c (CurveLoop_on_base MeshTransaction_before_sync).

(** [PlaneSurface.before_sync], inherited by [TransfinitePlaneSurface]. *)
Definition PlaneSurface_before_sync (s : nat) : M unit :=
  self ← get_surface s;
  when (negb (before_sync_initiated (PlaneSurface_base self)))
    (curve_loop_tags ← for_acc (PlaneSurface_curve_loops self) [] (λ tags c,
       CurveLoop_before_sync c;;
       curve_loop ← get_loop c;
       mret (tags ++ [tag (CurveLoop_base curve_loop)]));
     t ← gmsh (geo_add_plane_surface curve_loop_tags);
     modify_surface s (PlaneSurface_on_base (set_tag (Some t))));;
  modify_surface s (PlaneSurface_on_base MeshTransaction_before_sync).

(** [Point] inherits [MeshTransaction.after_sync]. *)
Definition Point_after_sync (p : nat) : M unit :=
  modify_point p (Point_on_base MeshTransaction_after_sync).

(** [TransfiniteLine.after_sync]; a plain [Line] inherits
    [MeshTransaction.after_sync]. *)
Definition Line_after_sync (l : nat) : M unit :=
  self ← get_line l;
  match Line_transfinite self with
  | Some tl =>
      when (negb (after_sync_initiated (Line_base self)))
        (gmsh_ (mesh_set_transfinite_curve (tag (Line_base self)) (cell_count tl + 1)
                  (mesh_type tl) (coeff tl)))
  | None => mret tt
  end;;
  modify_line l (Line_on_base MeshTransaction_after_sync).

(** [BoundaryLayer.after_sync]; a plain [Field] only runs
    [MeshTransaction.after_sync]. *)
Definition Field_after_sync (f : nat) (curve_loop : nat) : M unit :=
  self ← get_field f;
  match Field_layer self with
  | Some bl =>
      when (negb (after_sync_initiated (Field_base self)))
        (t ← gmsh (field_add "BoundaryLayer");
         modify_field f (Field_on_base (set_tag (Some t)));;
         loop ← get_loop curve_loop;
         gmsh_ (field_setNumbers t "CurvesList" (CurveLoop_line_tags loop));;
         when (truthy_float (aniso_max bl))
           (gmsh_ (field_setNumber t "AnisoMax" (default 0%Q (aniso_max bl))));;
         when (intersect_metrics bl)
           (gmsh_ (field_setNumber t "IntersectMetrics"
                     (float_of_bool (intersect_metrics bl))));;
         when (is_quad_mesh bl)
           (gmsh_ (field_setNumber t "Quads" (float_of_bool (is_quad_mesh bl))));;
         when (truthy_float (hfar bl))
           (gmsh_ (field_setNumber t "hfar" (default 0%Q (hfar bl))));;
         when (truthy_float (hwall_n bl))
           (gmsh_ (field_setNumber t "hwall_n" (default 0%Q (hwall_n bl))));;
         when (truthy_float (ratio bl))
           (gmsh_ (field_setNumber t "ratio" (default 0%Q (ratio bl))));;
         when (truthy_float (thickness bl))
           (gmsh_ (field_setNumber t "thickness" (default 0%Q (thickness bl))));;
         gmsh_ (field_setAsBoundaryLayer t))
  | None => mret tt
  end;;
  modify_field f (Field_on_base MeshTransaction_after_sync).

(** The dictionary [line_group_tags], in insertion order. *)
Definition LineGroups := list (string * list (option Z)).

(** [label not in d] *)
Definition has_key (label : string) (d : LineGroups) : bool :=
  existsb (λ kv, String.eqb (fst kv) label) d.

(** [d[label].append(t)], for a key that is present. *)
Fixpoint append_to_key (label : string) (t : option Z) (d : LineGroups) : LineGroups :=
  match d with
  | [] => []
  | (k, ts) :: d' =>
      if String.eqb k label then (k, ts ++ [t]) :: d'
      else (k, ts) :: append_to_key label t d'
  end.

(** The body of the first loop of [CurveLoop.after_sync], on the dictionary. *)
Definition group_line (d : LineGroups) (label : option string) (t : option Z) : LineGroups :=
  if truthy_str label then
    let key := default "" label in
    let d' := if has_key key d then d else d ++ [(key, [])] in
    append_to_key key t d'
  else d.

(** [CurveLoop.after_sync] *)
Definition CurveLoop_after_sync (c : nat) : M unit :=
  self ← get_loop c;
  when (negb (after_sync_initiated (CurveLoop_base self)))
    (line_group_tags ← for_acc (CurveLoop_lines self) [] (λ d l,
       line ← get_line l;
       let d' := group_line d (Line_label line) (tag (Line_base line)) in
       Line_after_sync l;;
       mret d');
     for_ line_group_tags (λ kv,
       physical_group_tag ← gmsh (add_physical_group (DimType_value CURVE) (snd kv));
       gmsh_ (set_physical_name (DimType_value CURVE) physical_group_tag (fst kv)));;
     for_ (CurveLoop_fields self) (λ f, Field_after_sync f c));;
  modify_loop c (CurveLoop_on_base MeshTransaction_after_sync).

(** [PlaneSurface.after_sync] *)
Definition PlaneSurface_after_sync (s : nat) : M unit :=
  self ← get_surface s;
  when (negb (after_sync_initiated (PlaneSurface_base self)))
    (for_ (PlaneSurface_curve_loops self) CurveLoop_after_sync;;
     match PlaneSurface_label self with
     | Some label =>
         physical_group_tag ←
           gmsh (add_physical_group (DimType_value SURFACE) [tag (PlaneSurface_base self)]);
         gmsh_ (set_physical_name (DimType_value SURFACE) physical_group_tag label)
     | None => mret tt
     end;;
     when (PlaneSurface_is_quad_mesh self)
       (gmsh_ (mesh_set_recombine 2 (tag (PlaneSurface_base self)))));;
  modify_surface s (PlaneSurface_on_base MeshTransaction_after_sync).

(** [TransfinitePlaneSurface.after_sync], [corners] being the points the
    instance declares. *)
Definition TransfinitePlaneSurface_after_sync (s : nat) (corners : list nat) : M unit :=
  self ← get_surface s;
  when (negb (after_sync_initiated (PlaneSurface_base self)))
    (corner_tags ← for_acc corners [] (λ tags p,
       corner ← get_point p;
       mret (tags ++ [tag (Point_base corner)]));
     gmsh_ (mesh_set_transfinite_surface (tag (PlaneSurface_base self)) corner_tags));;
  PlaneSurface_after_sync s.

(** ** Dispatch on the class of a root and [Geometry] *)

Inductive Ref :=
| RPoint (p : nat)
| RLine (l : nat)
| RCurveLoop (c : nat)
| RSurface (s : nat)
| RField (f : nat).

(** [transaction.before_sync()]; a [Field] wants a loop argument. *)
Definition before_sync (r : Ref) : M unit :=
  match r with
  | RPoint p => Point_before_sync p
  | RLine l => Line_before_sync l
  | RCurveLoop c => CurveLoop_before_sync c
  | RSurface s => PlaneSurface_before_sync s
  | RField _ => raise TypeError
  end.

(** [transaction.after_sync()] *)
Definition after_sync (r : Ref) : M unit :=
  match r with
  | RPoint p => Point_after_sync p
  | RLine l => Line_after_sync l
  | RCurveLoop c => CurveLoop_after_sync c
  | RSurface s =>
      self ← get_surface s;
      match PlaneSurface_corners self with
      | Some corners => TransfinitePlaneSurface_after_sync s corners
      | None => PlaneSurface_after_sync s
      end
  | RField _ => raise TypeError
  end.

(** The argument of [generate]: one entity or a list of them. *)
Inductive Transactions :=
| One (r : Ref)
| Many (rs : list Ref).

(** [Geometry.__enter__] *)
Definition Geometry_enter : M unit := gmsh_ initialize.

(** [Geometry.__exit__] *)
Definition Geometry_exit : M unit := gmsh_ finalize.

(** [Geometry.generate], up to the call of the importer, whose module is
    not part of this development. *)
Definition Geometry_generate (transactions : Transactions) : M unit :=
  match transactions with
  | Many rs => for_ rs before_sync
  | One r => before_sync r
  end;;
  gmsh_ geo_synchronize;;
  match transactions with
  | Many rs => for_ rs after_sync
  | One r => after_sync r
  end;;
  gmsh_ mesh_generate;;
  gmsh_ (option_set_number "Mesh.SaveAll" 1%Q).

(** The two loops of [generate]. *)
Definition construction_phase (transactions : Transactions) : M unit :=
  match transactions with
  | Many rs => for_ rs before_sync
  | One r => before_sync r
  end.

Definition refinement_phase (transactions : Transactions) : M unit :=
  match transactions with
  | Many rs => for_ rs after_sync
  | One r => after_sync r
  end.

(** [Geometry.write] *)
Definition Geometry_write (filename : string) : M unit := gmsh_ (write filename).

End Kernel.

(** ** The helper [get_points_and_lines] *)

(** An argument that is one value or a list of values. *)
Inductive OneOrList (A : Type) :=
| Scalar (a : A)
| PyList (l : list A).
Arguments Scalar {A} a.
Arguments PyList {A} l.

(** [xs[i]] on a Python list, for [i >= 0]. *)
Definition index {A} (xs : list A) (i : nat) : M A := λ st,
  match xs !! i with
  | Some a => Ok (a, st)
  | None => Raise IndexError
  end.

(** Allocation of a fresh object; its reference is returned. *)
Definition alloc_point (o : Point) : M nat := λ st,
  Ok (length (heap_points st), with_points (λ ps, ps ++ [o]) st).
Definition alloc_line (o : Line) : M nat := λ st,
  Ok (length (heap_lines st), with_lines (λ ls, ls ++ [o]) st).

(** [Point(coord, mesh_size)], with [__post_init__].  The components of
    [coord] are floats, which [np.asarray] leaves as they are. *)
Definition Point_new (coord : list float) (mesh_size : float) : M nat :=
  x ← index coord 0;
  y ← index coord 1;
  z ← (if length coord =? 3 then index coord 2 else mret 0%Q);
  alloc_point {| Point_x := x; Point_y := y; Point_z := z; Point_mesh_size := mesh_size;
                 Point_label := None; Point_base := MeshTransaction_init |}.

(** [Line(start=.., end=.., label=..)] *)
Definition Line_new (start end_ : nat) (label : option string) : M nat :=
  alloc_line {| Line_start := start; Line_end := end_; Line_label := label;
                Line_transfinite := None; Line_base := MeshTransaction_init |}.

(** [TransfiniteLine(start=.., end=.., label=.., cell_count=.., mesh_type=..,
    coeff=..)] *)
Definition TransfiniteLine_new (start end_ : nat) (label : option string)
    (cell_count : Z) (mesh_type : string) (coeff : float) : M nat :=
  alloc_line {| Line_start := start; Line_end := end_; Line_label := label;
                Line_transfinite := Some (mkTransfiniteLine cell_count mesh_type coeff);
                Line_base := MeshTransaction_init |}.

(** Truthiness of an optional argument that is a value or a list: [None],
    an empty list and a falsy value are false. *)
Definition truthy_arg {A} (nonzero : A → bool) (a : option (OneOrList A)) : bool :=
  match a with
  | None => false
  | Some (Scalar v) => nonzero v
  | Some (PyList l) => negb (bool_decide (length l = 0))
  end.

Definition nonempty (s : string) : bool := negb (String.eqb s "").
Definition nonzeroZ (z : Z) : bool := negb (z =? 0)%Z.
Definition nonzeroQ (q : float) : bool := negb (Qeq_bool q 0).

(** [a[line_index] if isinstance(a, List) else a] *)
Definition pick {A} (a : OneOrList A) (i : nat) : M A :=
  match a with
  | PyList l => index l i
  | Scalar v => mret v
  end.

(** The local variables the loop of [get_points_and_lines] assigns. *)
Record Locals := mkLocals {
  loc_mesh_size : OneOrList float;
  loc_points : list nat;
  loc_lines : list nat;
  loc_line_index : nat
}.

(** Lines 35-41 of the loop body: the point of iteration [i] and the list
    [points] after it. *)
Definition get_points_and_lines_point (coords : list (list float)) (mesh_size : float)
    (points : list nat) (i : nat) : M (nat * list nat) :=
  if i =? length coords then
    point ← index points 0; mret (point, points)
  else
    coord ← index coords i;
    point ← Point_new coord mesh_size;
    mret (point, points ++ [point]).

(** Lines 45-52 of the loop body: the line that ends at [point]. *)
Definition get_points_and_lines_line
    (labels : option (OneOrList string)) (cell_counts : option (OneOrList Z))
    (mesh_types : option (OneOrList string)) (mesh_coeffs : option (OneOrList float))
    (points : list nat) (point : nat) (line_index : nat) (i : nat) : M nat :=
  label ← (if truthy_arg nonempty labels then
             match labels with
             | Some a => v ← pick a line_index; mret (Some v)
             | None => mret None
             end
           else mret None);
  start ← index points (i - 1);
  if truthy_arg nonzeroZ cell_counts then
    cell_count ← match cell_counts with
                 | Some a => pick a line_index
                 | None => raise TypeError
                 end;
    mesh_type ← (if truthy_arg nonempty mesh_types then
                   match mesh_types with
                   | Some a => pick a line_index
                   | None => raise TypeError
                   end
                 else mret "Progression");
    mesh_coeff ← (if truthy_arg nonzeroQ mesh_coeffs then
                    match mesh_coeffs with
                    | Some a => pick a line_index
                    | None => raise TypeError
                    end
                  else mret 1%Q);
    TransfiniteLine_new start point label cell_count mesh_type mesh_coeff
  else Line_new start point label.

(** One iteration of [for i in range(len(coords) + 1)]. *)
Definition get_points_and_lines_body (coords : list (list float))
    (labels : option (OneOrList string)) (cell_counts : option (OneOrList Z))
    (mesh_types : option (OneOrList string)) (mesh_coeffs : option (OneOrList float))
    (loc : Locals) (i : nat) : M Locals :=
  mesh_size ← pick (loc_mesh_size loc) i;
  '(point, points) ← get_points_and_lines_point coords mesh_size (loc_points loc) i;
  if 0 <? i then
    line ← get_points_and_lines_line labels cell_counts mesh_types mesh_coeffs
             points point (loc_line_index loc) i;
    mret {| loc_mesh_size := Scalar mesh_size; loc_points := points;
            loc_lines := loc_lines loc ++ [line];
            loc_line_index := loc_line_index loc + 1 |}
  else
    mret {| loc_mesh_size := Scalar mesh_size; loc_points := points;
            loc_lines := loc_lines loc; loc_line_index := loc_line_index loc |}.

(** [get_points_and_lines] *)
Definition get_points_and_lines (coords : list (list float)) (mesh_size : OneOrList float)
    (labels : option (OneOrList string)) (cell_counts : option (OneOrList Z))
    (mesh_types : option (OneOrList string)) (mesh_coeffs : option (OneOrList float))
  : M (list nat * list nat) :=
  loc ← for_acc (seq 0 (length coords + 1))
          {| loc_mesh_size := mesh_size; loc_points := []; loc_lines := [];
             loc_line_index := 0 |}
          (get_points_and_lines_body coords labels cell_counts mesh_types mesh_coeffs);
  mret (loc_points loc, loc_lines loc).

(** ** The remaining constructors *)

Definition alloc_loop (o : CurveLoop) : M nat := λ st,
  Ok (length (heap_loops st), with_loops (λ cs, cs ++ [o]) st).
Definition alloc_surface (o : PlaneSurface) : M nat := λ st,
  Ok (length (heap_surfaces st), with_surfaces (λ ss, ss ++ [o]) st).
Definition alloc_field (o : Field) : M nat := λ st,
  Ok (length (heap_fields st), with_fields (λ fs, fs ++ [o]) st).

(** [CurveLoop(lines=.., fields=..)]; the derived attribute [points] is read
    by no method and is left out. *)
Definition CurveLoop_new (lines fields : list nat) : M nat :=
  alloc_loop {| CurveLoop_lines := lines; CurveLoop_fields := fields;
                CurveLoop_line_tags := []; CurveLoop_base := MeshTransaction_init |}.

(** [PlaneSurface(outlines=.., holes=.., label=.., is_quad_mesh=..)] *)
Definition PlaneSurface_new (outlines holes : list nat) (label : option string)
    (is_quad_mesh : bool) : M nat :=
  alloc_surface {| PlaneSurface_outlines := outlines; PlaneSurface_holes := holes;
                   PlaneSurface_curve_loops := outlines ++ holes;
                   PlaneSurface_label := label; PlaneSurface_is_quad_mesh := is_quad_mesh;
                   PlaneSurface_corners := None; PlaneSurface_base := MeshTransaction_init |}.

(** [TransfinitePlaneSurface(outlines=.., holes=.., label=.., is_quad_mesh=..,
    corners=..)] *)
Definition TransfinitePlaneSurface_new (outlines holes : list nat) (label : option string)
    (is_quad_mesh : bool) (corners : list nat) : M nat :=
  alloc_surface {| PlaneSurface_outlines := outlines; PlaneSurface_holes := holes;
                   PlaneSurface_curve_loops := outlines ++ holes;
                   PlaneSurface_label := label; PlaneSurface_is_quad_mesh := is_quad_mesh;
                   PlaneSurface_corners := Some corners;
                   PlaneSurface_base := MeshTransaction_init |}.

(** [BoundaryLayer(..)] *)
Definition BoundaryLayer_new (bl : BoundaryLayer) : M nat :=
  alloc_field {| Field_layer := Some bl; Field_base := MeshTransaction_init |}.

(** ** Running a computation *)

Definition empty_state : State :=
  {| heap_points := []; heap_lines := []; heap_loops := []; heap_surfaces := [];
     heap_fields := []; gmsh_calls := [] |}.

(** The final state of a run, when it raises nothing. *)
Definition exec {A} (m : M A) (st : State) : option State :=
  match m st with
  | Ok (_, st') => Some st'
  | Raise _ => None
  end.

(** ** Reasoning about runs *)

(** [wp m Q st]: from [st] the computation [m] raises nothing and ends in a
    value and a state that satisfy [Q]. *)
Definition wp {A} (m : M A) (Q : A → State → Prop) (st : State) : Prop :=
  ∃ a st', m st = Ok (a, st') ∧ Q a st'.

Lemma wp_ret {A} (a : A) (Q : A → State → Prop) st : Q a st → wp (mret a) Q st.
Proof. intros HQ. exists a, st. split; [reflexivity | exact HQ]. Qed.

Lemma wp_bind {A B} (m : M A) (f : A → M B) (Q : B → State → Prop) st :
  wp m (λ a st1, wp (f a) Q st1) st → wp (m ≫= f) Q st.
Proof.
  intros (a & st1 & Hm & b & st2 & Hf & HQ).
  exists b, st2. split; [|exact HQ].
  unfold mbind, M_bind. rewrite Hm. exact Hf.
Qed.

Lemma wp_mono {A} (m : M A) (Q Q' : A → State → Prop) st :
  wp m Q st → (∀ a st', Q a st' → Q' a st') → wp m Q' st.
Proof. intros (a & st' & Hm & HQ) Himp. exists a, st'. auto. Qed.

Lemma wp_deref {A} (arena : State → list A) i o (Q : A → State → Prop) st :
  arena st !! i = Some o → Q o st → wp (deref arena i) Q st.
Proof. intros Hi HQ. exists o, st. unfold deref. rewrite Hi. auto. Qed.

Lemma wp_mutate {A} (arena : State → list A) store i (f : A → A) o
    (Q : unit → State → Prop) st :
  arena st !! i = Some o → Q tt (store <[i := f o]> st) → wp (mutate arena store i f) Q st.
Proof. intros Hi HQ. exists tt, (store <[i := f o]> st). unfold mutate. rewrite Hi. auto. Qed.

Lemma wp_index {A} (xs : list A) i a (Q : A → State → Prop) st :
  xs !! i = Some a → Q a st → wp (index xs i) Q st.
Proof. intros Hi HQ. exists a, st. unfold index. rewrite Hi. auto. Qed.

Lemma wp_gmsh kr c (Q : Z → State → Prop) st :
  Q (kr (gmsh_calls st ++ [c])) (with_calls (λ _, gmsh_calls st ++ [c]) st) →
  wp (gmsh kr c) Q st.
Proof. intros HQ. eexists _, _. split; [reflexivity | exact HQ]. Qed.

Lemma wp_gmsh_ kr c (Q : unit → State → Prop) st :
  Q tt (with_calls (λ _, gmsh_calls st ++ [c]) st) → wp (gmsh_ kr c) Q st.
Proof. intros HQ. eexists _, _. split; [reflexivity | exact HQ]. Qed.

Lemma wp_when (c : bool) body (Q : unit → State → Prop) st :
  (c = true → wp body Q st) → (c = false → Q tt st) → wp (when c body) Q st.
Proof. destruct c; simpl; intros H1 H2; [auto | apply wp_ret; auto]. Qed.

Lemma wp_run {A} (m : M A) (Q : A → State → Prop) st a st' :
  m st = Ok (a, st') → wp m Q st → Q a st'.
Proof. intros Hm (a' & st'' & Hm' & HQ). congruence. Qed.

(** The state record is determined by its six components. *)
Lemma with_points_id st : with_points (λ l, l) st = st.
Proof. by destruct st. Qed.
Lemma with_lines_id st : with_lines (λ l, l) st = st.
Proof. by destruct st. Qed.
Lemma with_loops_id st : with_loops (λ l, l) st = st.
Proof. by destruct st. Qed.
Lemma with_surfaces_id st : with_surfaces (λ l, l) st = st.
Proof. by destruct st. Qed.

(** Setting a flag that is already set changes nothing. *)
Lemma before_sync_again m :
  before_sync_initiated m = true → MeshTransaction_before_sync m = m.
Proof. destruct m; simpl; intros ->; reflexivity. Qed.

Lemma after_sync_again m :
  after_sync_initiated m = true → MeshTransaction_after_sync m = m.
Proof. destruct m; simpl; intros ->; reflexivity. Qed.

(** ** What a run leaves unchanged *)

(** Flags are only ever set. *)
Definition flags_le (m m' : MeshTransaction) : Prop :=
  (before_sync_initiated m = true → before_sync_initiated m' = true) ∧
  (after_sync_initiated m = true → after_sync_initiated m' = true).

(** In the refinement phase the tag and the construction flag stay too. *)
Definition refined (m m' : MeshTransaction) : Prop :=
  tag m = tag m' ∧ before_sync_initiated m = before_sync_initiated m' ∧
  (after_sync_initiated m = true → after_sync_initiated m' = true).

#[global] Instance flags_le_refl : Reflexive flags_le.
Proof. intros m. split; auto. Qed.
#[global] Instance flags_le_trans : Transitive flags_le.
Proof. intros a b c [? ?] [? ?]. split; auto. Qed.
#[global] Instance refined_refl : Reflexive refined.
Proof. intros m. repeat split; auto. Qed.
#[global] Instance refined_trans : Transitive refined.
Proof. intros a b c (? & ? & ?) (? & ? & ?). repeat split; try congruence; auto. Qed.

Lemma refined_flags_le m m' : refined m m' → flags_le m m'.
Proof. intros (? & Hb & ?). split; [rewrite Hb; auto | auto]. Qed.

Section Frame.

(** [R] relates the base attributes of an entity before and after, [T] the
    [line_tags] of a loop. *)
Context (R : relation MeshTransaction) (T : relation (list (option Z))).
Context `{!Reflexive R, !Transitive R, !Reflexive T, !Transitive T}.

Record Point_le (a b : Point) : Prop := {
  ple_x : Point_x a = Point_x b;
  ple_y : Point_y a = Point_y b;
  ple_z : Point_z a = Point_z b;
  ple_mesh_size : Point_mesh_size a = Point_mesh_size b;
  ple_label : Point_label a = Point_label b;
  ple_base : R (Point_base a) (Point_base b)
}.

Record Line_le (a b : Line) : Prop := {
  lle_start : Line_start a = Line_start b;
  lle_end : Line_end a = Line_end b;
  lle_label : Line_label a = Line_label b;
  lle_transfinite : Line_transfinite a = Line_transfinite b;
  lle_base : R (Line_base a) (Line_base b)
}.

Record CurveLoop_le (a b : CurveLoop) : Prop := {
  cle_lines : CurveLoop_lines a = CurveLoop_lines b;
  cle_fields : CurveLoop_fields a = CurveLoop_fields b;
  cle_line_tags : T (CurveLoop_line_tags a) (CurveLoop_line_tags b);
  cle_base : R (CurveLoop_base a) (CurveLoop_base b)
}.

Record PlaneSurface_le (a b : PlaneSurface) : Prop := {
  sle_outlines : PlaneSurface_outlines a = PlaneSurface_outlines b;
  sle_holes : PlaneSurface_holes a = PlaneSurface_holes b;
  sle_curve_loops : PlaneSurface_curve_loops a = PlaneSurface_curve_loops b;
  sle_label : PlaneSurface_label a = PlaneSurface_label b;
  sle_is_quad_mesh : PlaneSurface_is_quad_mesh a = PlaneSurface_is_quad_mesh b;
  sle_corners : PlaneSurface_corners a = PlaneSurface_corners b;
  sle_base : R (PlaneSurface_base a) (PlaneSurface_base b)
}.

(** A field gets its tag in the refinement phase, so only its flags are
    tracked. *)
Record Field_le (a b : Field) : Prop := {
  fle_layer : Field_layer a = Field_layer b;
  fle_base : flags_le (Field_base a) (Field_base b)
}.

(** [frame st st']: the heap of [st'] has the objects of [st], with the
    same attributes up to [R] and [T]. *)
Record frame (st st' : State) : Prop := {
  fr_points : Forall2 Point_le (heap_points st) (heap_points st');
  fr_lines : Forall2 Line_le (heap_lines st) (heap_lines st');
  fr_loops : Forall2 CurveLoop_le (heap_loops st) (heap_loops st');
  fr_surfaces : Forall2 PlaneSurface_le (heap_surfaces st) (heap_surfaces st');
  fr_fields : Forall2 Field_le (heap_fields st) (heap_fields st')
}.

#[local] Instance Point_le_refl : Reflexive Point_le.
Proof. intros a. split; reflexivity. Qed.
#[local] Instance Line_le_refl : Reflexive Line_le.
Proof. intros a. split; reflexivity. Qed.
#[local] Instance CurveLoop_le_refl : Reflexive CurveLoop_le.
Proof. intros a. split; reflexivity. Qed.
#[local] Instance PlaneSurface_le_refl : Reflexive PlaneSurface_le.
Proof. intros a. split; reflexivity. Qed.
#[local] Instance Field_le_refl : Reflexive Field_le.
Proof. intros a. split; reflexivity. Qed.

#[local] Instance Point_le_trans : Transitive Point_le.
Proof. intros a b c [] []. split; etrans; eauto. Qed.
#[local] Instance Line_le_trans : Transitive Line_le.
Proof. intros a b c [] []. split; etrans; eauto. Qed.
#[local] Instance CurveLoop_le_trans : Transitive CurveLoop_le.
Proof. intros a b c [] []. split; etrans; eauto. Qed.
#[local] Instance PlaneSurface_le_trans : Transitive PlaneSurface_le.
Proof. intros a b c [] []. split; etrans; eauto. Qed.
#[local] Instance Field_le_trans : Transitive Field_le.
Proof. intros a b c [] []. split; etrans; eauto. Qed.

Lemma Forall2_refl_list {A} (S : relation A) `{!Reflexive S} (l : list A) : Forall2 S l l.
Proof. induction l; constructor; auto. Qed.

Lemma Forall2_trans_list {A} (S : relation A) `{!Transitive S} (l1 l2 l3 : list A) :
  Forall2 S l1 l2 → Forall2 S l2 l3 → Forall2 S l1 l3.
Proof.
  intros H12. revert l3. induction H12; intros l3 H23; inversion H23; subst;
    constructor; eauto.
Qed.

(** Overwriting one object by a related one. *)
Lemma Forall2_overwrite {A} (S : relation A) `{!Reflexive S} (l : list A) i o o' :
  l !! i = Some o → S o o' → Forall2 S l (<[i := o']> l).
Proof.
  intros Hi HS. rewrite <- (list_insert_id l i o Hi) at 1.
  apply Forall2_insert; [apply Forall2_refl_list; auto | exact HS].
Qed.

#[global] Instance frame_refl : Reflexive frame.
Proof. intros st. split; apply Forall2_refl_list; apply _. Qed.

#[global] Instance frame_trans : Transitive frame.
Proof.
  intros a b c [] []. split; eapply Forall2_trans_list; eauto; apply _.
Qed.

Lemma frame_calls f st : frame st (with_calls f st).
Proof. split; apply Forall2_refl_list; apply _. Qed.

Lemma frame_point st i o o' :
  heap_points st !! i = Some o → Point_le o o' → frame st (with_points <[i := o']> st).
Proof.
  intros Hi Hle. split; simpl; try (apply Forall2_refl_list; apply _).
  eapply Forall2_overwrite; eauto; apply _.
Qed.

Lemma frame_line st i o o' :
  heap_lines st !! i = Some o → Line_le o o' → frame st (with_lines <[i := o']> st).
Proof.
  intros Hi Hle. split; simpl; try (apply Forall2_refl_list; apply _).
  eapply Forall2_overwrite; eauto; apply _.
Qed.

Lemma frame_loop st i o o' :
  heap_loops st !! i = Some o → CurveLoop_le o o' → frame st (with_loops <[i := o']> st).
Proof.
  intros Hi Hle. split; simpl; try (apply Forall2_refl_list; apply _).
  eapply Forall2_overwrite; eauto; apply _.
Qed.

Lemma frame_surface st i o o' :
  heap_surfaces st !! i = Some o → PlaneSurface_le o o' →
  frame st (with_surfaces <[i := o']> st).
Proof.
  intros Hi Hle. split; simpl; try (apply Forall2_refl_list; apply _).
  eapply Forall2_overwrite; eauto; apply _.
Qed.

Lemma frame_field st i o o' :
  heap_fields st !! i = Some o → Field_le o o' → frame st (with_fields <[i := o']> st).
Proof.
  intros Hi Hle. split; simpl; try (apply Forall2_refl_list; apply _).
  eapply Forall2_overwrite; eauto; apply _.
Qed.

(** An object of [st] is still there in [st'], related to what it was. *)
Lemma frame_point_at st st' i o :
  frame st st' → heap_points st !! i = Some o →
  ∃ o', heap_points st' !! i = Some o' ∧ Point_le o o'.
Proof. intros [] Hi. eapply Forall2_lookup_l; eauto. Qed.

Lemma frame_line_at st st' i o :
  frame st st' → heap_lines st !! i = Some o →
  ∃ o', heap_lines st' !! i = Some o' ∧ Line_le o o'.
Proof. intros [] Hi. eapply Forall2_lookup_l; eauto. Qed.

Lemma frame_loop_at st st' i o :
  frame st st' → heap_loops st !! i = Some o →
  ∃ o', heap_loops st' !! i = Some o' ∧ CurveLoop_le o o'.
Proof. intros [] Hi. eapply Forall2_lookup_l; eauto. Qed.

Lemma frame_surface_at st st' i o :
  frame st st' → heap_surfaces st !! i = Some o →
  ∃ o', heap_surfaces st' !! i = Some o' ∧ PlaneSurface_le o o'.
Proof. intros [] Hi. eapply Forall2_lookup_l; eauto. Qed.

Lemma frame_field_at st st' i o :
  frame st st' → heap_fields st !! i = Some o →
  ∃ o', heap_fields st' !! i = Some o' ∧ Field_le o o'.
Proof. intros [] Hi. eapply Forall2_lookup_l; eauto. Qed.

End Frame.

(** ** Well-formed heaps and the kernel trace *)

(** Every reference an object holds names an object of the heap. *)
Definition wf_line (st : State) (o : Line) : Prop :=
  Line_start o < length (heap_points st) ∧ Line_end o < length (heap_points st).

Definition wf_loop (st : State) (o : CurveLoop) : Prop :=
  Forall (λ l, l < length (heap_lines st)) (CurveLoop_lines o) ∧
  Forall (λ f, f < length (heap_fields st)) (CurveLoop_fields o).

Definition wf_surface (st : State) (o : PlaneSurface) : Prop :=
  Forall (λ c, c < length (heap_loops st)) (PlaneSurface_curve_loops o) ∧
  Forall (λ p, p < length (heap_points st)) (default [] (PlaneSurface_corners o)).

Definition wf (st : State) : Prop :=
  Forall (wf_line st) (heap_lines st) ∧
  Forall (wf_loop st) (heap_loops st) ∧
  Forall (wf_surface st) (heap_surfaces st).

(** A root that [generate] can dispatch on: an entity of the heap, not a
    field. *)
Definition valid (st : State) (r : Ref) : Prop :=
  match r with
  | RPoint p => p < length (heap_points st)
  | RLine l => l < length (heap_lines st)
  | RCurveLoop c => c < length (heap_loops st)
  | RSurface s => s < length (heap_surfaces st)
  | RField _ => False
  end.

(** The roots of a call of [generate], in order. *)
Definition roots (ts : Transactions) : list Ref :=
  match ts with
  | One r => [r]
  | Many rs => rs
  end.

(** The flags of the object a reference names. *)
Definition base_of (st : State) (r : Ref) : option MeshTransaction :=
  match r with
  | RPoint p => Point_base <$> heap_points st !! p
  | RLine l => Line_base <$> heap_lines st !! l
  | RCurveLoop c => CurveLoop_base <$> heap_loops st !! c
  | RSurface s => PlaneSurface_base <$> heap_surfaces st !! s
  | RField f => Field_base <$> heap_fields st !! f
  end.

Definition constructed (st : State) (r : Ref) : bool :=
  match base_of st r with
  | Some m => before_sync_initiated m
  | None => false
  end.

Definition refinement_done (st : State) (r : Ref) : bool :=
  match base_of st r with
  | Some m => after_sync_initiated m
  | None => false
  end.

(** The kernel calls by kind.  [creation_rank] is the dimension of the
    entity a creation call makes, counting a loop as 2 and a surface as 3. *)
Definition creation_rank (c : GmshCall) : option nat :=
  match c with
  | geo_add_point _ _ _ _ => Some 0
  | geo_add_line _ _ => Some 1
  | geo_add_curve_loop _ => Some 2
  | geo_add_plane_surface _ => Some 3
  | _ => None
  end.

Definition is_add_point (c : GmshCall) : bool :=
  bool_decide (creation_rank c = Some 0).

Definition is_construction (c : GmshCall) : bool :=
  match creation_rank c with Some _ => true | None => false end.

Definition rank_below (k : nat) (c : GmshCall) : bool :=
  match creation_rank c with Some j => j <? k | None => false end.

Definition is_transfinite_curve (c : GmshCall) : bool :=
  match c with mesh_set_transfinite_curve _ _ _ _ => true | _ => false end.

Definition is_field_call (c : GmshCall) : bool :=
  match c with
  | field_add _ | field_setNumbers _ _ _ | field_setNumber _ _ _
  | field_setAsBoundaryLayer _ => true
  | _ => false
  end.

Definition is_physical_group (c : GmshCall) : bool :=
  match c with add_physical_group _ _ | set_physical_name _ _ _ => true | _ => false end.

Definition is_refinement (c : GmshCall) : bool :=
  match c with
  | mesh_set_transfinite_curve _ _ _ _ | mesh_set_transfinite_surface _ _
  | mesh_set_recombine _ _ | add_physical_group _ _ | set_physical_name _ _ _ => true
  | _ => is_field_call c
  end.

Definition is_synchronize (c : GmshCall) : bool :=
  match c with geo_synchronize => true | _ => false end.

(** How many calls of a kind a trace holds. *)
Definition count_calls (P : GmshCall → bool) (D : list GmshCall) : nat :=
  length (filter (λ c, P c = true) D).

(** The creation call of the class of [r]. *)
Definition creates (r : Ref) (c : GmshCall) : bool :=
  match r, creation_rank c with
  | RPoint _, Some 0 | RLine _, Some 1 | RCurveLoop _, Some 2 | RSurface _, Some 3 => true
  | _, _ => false
  end.

(** [emits P st st']: the calls of [st'] are those of [st] followed by calls
    that all satisfy [P]. *)
Definition emits (P : GmshCall → bool) (st st' : State) : Prop :=
  ∃ D, gmsh_calls st' = gmsh_calls st ++ D ∧ Forall (λ c, P c = true) D.

(** [m] run [n] times in a row. *)
Fixpoint repeat_ (n : nat) (m : M unit) : M unit :=
  match n with
  | 0 => mret tt
  | S k => m;; repeat_ k m
  end.

(** ** The points of an entity graph *)

Definition line_points (st : State) (l : nat) : gset nat :=
  match heap_lines st !! l with
  | Some o => {[ Line_start o; Line_end o ]}
  | None => ∅
  end.

Definition loop_points (st : State) (c : nat) : gset nat :=
  match heap_loops st !! c with
  | Some o => ⋃ (line_points st <$> CurveLoop_lines o)
  | None => ∅
  end.

Definition surface_points (st : State) (s : nat) : gset nat :=
  match heap_surfaces st !! s with
  | Some o => ⋃ (loop_points st <$> PlaneSurface_curve_loops o)
  | None => ∅
  end.

(** The points an entity depends on, itself included when it is one. *)
Definition ref_points (st : State) (r : Ref) : gset nat :=
  match r with
  | RPoint p => {[ p ]}
  | RLine l => line_points st l
  | RCurveLoop c => loop_points st c
  | RSurface s => surface_points st s
  | RField _ => ∅
  end.

(** The distinct [Point] instances of the graph under a list of roots. *)
Definition graph_points (st : State) (rs : list Ref) : gset nat :=
  ⋃ (ref_points st <$> rs).

(** The points already constructed. *)
Definition constructed_points (st : State) : gset nat :=
  list_to_set (filter (λ p, constructed st (RPoint p) = true)
                 (seq 0 (length (heap_points st)))).

(** No object of the heap is constructed yet. *)
Definition all_fresh (st : State) : Prop :=
  Forall (λ o, before_sync_initiated (Point_base o) = false) (heap_points st) ∧
  Forall (λ o, before_sync_initiated (Line_base o) = false) (heap_lines st) ∧
  Forall (λ o, before_sync_initiated (CurveLoop_base o) = false) (heap_loops st) ∧
  Forall (λ o, before_sync_initiated (PlaneSurface_base o) = false) (heap_surfaces st).

(** A constructed entity has constructed dependencies. *)
Definition closed (st : State) : Prop :=
  (∀ l o, heap_lines st !! l = Some o → before_sync_initiated (Line_base o) = true →
     constructed st (RPoint (Line_start o)) = true ∧
     constructed st (RPoint (Line_end o)) = true) ∧
  (∀ c o, heap_loops st !! c = Some o → before_sync_initiated (CurveLoop_base o) = true →
     ∀ l, l ∈ CurveLoop_lines o → constructed st (RLine l) = true) ∧
  (∀ s o, heap_surfaces st !! s = Some o →
     before_sync_initiated (PlaneSurface_base o) = true →
     ∀ c, c ∈ PlaneSurface_curve_loops o → constructed st (RCurveLoop c) = true).

(** Point creation calls and constructed points grow together. *)
Definition balance (st st' : State) : Prop :=
  count_calls is_add_point (gmsh_calls st') + size (constructed_points st)
  = count_calls is_add_point (gmsh_calls st) + size (constructed_points st').

(** ** Traces *)

#[global] Instance emits_refl P : Reflexive (emits P).
Proof. intros st. exists []. split; [by rewrite app_nil_r | constructor]. Qed.

#[global] Instance emits_trans P : Transitive (emits P).
Proof.
  intros a b c (D1 & H1 & HP1) (D2 & H2 & HP2). exists (D1 ++ D2). split.
  - by rewrite H2, H1, app_assoc.
  - by apply Forall_app.
Qed.

Lemma emits_mono (P P' : GmshCall → bool) st st' :
  (∀ c, P c = true → P' c = true) → emits P st st' → emits P' st st'.
Proof.
  intros Himp (D & HD & HP). exists D. split; [done|].
  eapply Forall_impl; eauto.
Qed.

Lemma emits_silent P st st' : gmsh_calls st' = gmsh_calls st → emits P st st'.
Proof. intros H. exists []. split; [by rewrite app_nil_r | constructor]. Qed.

Lemma emits_call P st c :
  P c = true → emits P st (with_calls (λ _, gmsh_calls st ++ [c]) st).
Proof. intros HP. exists [c]. split; [done | by constructor]. Qed.

Lemma rank_below_mono j k c : j ≤ k → rank_below j c = true → rank_below k c = true.
Proof.
  unfold rank_below. destruct (creation_rank c); [|done].
  intros Hjk H%Nat.ltb_lt. apply Nat.ltb_lt. lia.
Qed.

Lemma rank_below_construction k c : rank_below k c = true → is_construction c = true.
Proof. unfold rank_below, is_construction. by destruct (creation_rank c). Qed.

Lemma count_calls_app P D1 D2 :
  count_calls P (D1 ++ D2) = count_calls P D1 + count_calls P D2.
Proof. unfold count_calls. by rewrite filter_app, length_app. Qed.

Lemma count_calls_none P D :
  Forall (λ c, P c = false) D → count_calls P D = 0.
Proof.
  unfold count_calls. induction 1 as [|c D Hc _ IH]; [done|].
  rewrite filter_cons_False; [done | congruence].
Qed.

Lemma count_calls_one P c : P c = true → count_calls P [c] = 1.
Proof. intros H. unfold count_calls. by rewrite filter_cons_True. Qed.

(** ** Constructed points *)

Lemma elem_of_constructed_points st p :
  p ∈ constructed_points st ↔ constructed st (RPoint p) = true.
Proof.
  unfold constructed_points. rewrite elem_of_list_to_set, list_elem_of_filter, elem_of_seq.
  split; [tauto|]. intros H. split; [done|]. split; [lia|]. simpl.
  unfold constructed in H. simpl in H.
  destruct (heap_points st !! p) eqn:E; [|done].
  by apply lookup_lt_Some in E.
Qed.

#[global] Instance balance_refl : Reflexive balance.
Proof. intros st. reflexivity. Qed.

#[global] Instance balance_trans : Transitive balance.
Proof. unfold balance. intros a b c H1 H2. lia. Qed.

(** A run that leaves the points and the trace alone is balanced. *)
Lemma balance_same st st' :
  heap_points st' = heap_points st → gmsh_calls st' = gmsh_calls st → balance st st'.
Proof.
  intros Hp Hc. unfold balance, constructed_points, constructed. simpl. by rewrite Hp, Hc.
Qed.

(** So is a call that creates no point. *)
Lemma balance_call st c :
  creation_rank c ≠ Some 0 → balance st (with_calls (λ _, gmsh_calls st ++ [c]) st).
Proof.
  intros Hc. unfold balance. simpl. rewrite count_calls_app.
  rewrite (count_calls_none _ [c]).
  - unfold constructed_points, constructed. simpl. lia.
  - constructor; [|constructor]. by apply bool_decide_eq_false.
Qed.

(** Constructing a fresh point adds one call and one constructed point. *)
Lemma constructed_points_insert st p o o' :
  heap_points st !! p = Some o →
  before_sync_initiated (Point_base o') = true →
  constructed_points (with_points <[p := o']> st) = constructed_points st ∪ {[ p ]}.
Proof.
  intros Hp Ho'. apply set_eq. intros q.
  rewrite elem_of_union, elem_of_singleton, !elem_of_constructed_points.
  unfold constructed. simpl.
  destruct (decide (q = p)) as [->|Hne].
  - rewrite list_lookup_insert_eq by (by eapply lookup_lt_Some). simpl. tauto.
  - rewrite list_lookup_insert_ne by done. split; [auto | intros [?|?]; done].
Qed.

Lemma balance_new_point st p o o' c :
  heap_points st !! p = Some o →
  before_sync_initiated (Point_base o) = false →
  before_sync_initiated (Point_base o') = true →
  creation_rank c = Some 0 →
  balance st (with_points <[p := o']> (with_calls (λ _, gmsh_calls st ++ [c]) st)).
Proof.
  intros Hp Ho Ho' Hc. unfold balance.
  rewrite (constructed_points_insert _ p o o') by done.
  change (gmsh_calls (with_points _ _)) with (gmsh_calls st ++ [c]).
  change (constructed_points (with_calls _ st)) with (constructed_points st).
  rewrite count_calls_app, (count_calls_one _ c) by (by apply bool_decide_eq_true).
  rewrite size_union, size_singleton; [lia|].
  apply disjoint_singleton_r. rewrite elem_of_constructed_points.
  unfold constructed. simpl. rewrite Hp. simpl. congruence.
Qed.

(** ** Frames keep heaps well formed *)

Section FrameFacts.

Context (R : relation MeshTransaction) (T : relation (list (option Z))).
Context (R_flags : ∀ m m', R m m' → flags_le m m').

Lemma frame_lengths st st' :
  frame R T st st' →
  length (heap_points st') = length (heap_points st) ∧
  length (heap_lines st') = length (heap_lines st) ∧
  length (heap_loops st') = length (heap_loops st) ∧
  length (heap_surfaces st') = length (heap_surfaces st) ∧
  length (heap_fields st') = length (heap_fields st).
Proof.
  intros []. repeat split; symmetry; eapply Forall2_length; eauto.
Qed.

Lemma Forall2_Forall_transfer {A} (S : relation A) (P Q : A → Prop) l l' :
  (∀ a b, S a b → P a → Q b) → Forall2 S l l' → Forall P l → Forall Q l'.
Proof.
  intros Himp H. induction H; intros HP; inversion HP; subst; constructor; eauto.
Qed.

Lemma frame_wf st st' : frame R T st st' → wf st → wf st'.
Proof.
  intros Hfr (Hl & Hc & Hs).
  destruct (frame_lengths _ _ Hfr) as (Ep & El & Ec & Es & Ef).
  destruct Hfr as [_ Fl Fc Fs _].
  repeat split.
  - eapply Forall2_Forall_transfer; [|exact Fl|exact Hl].
    intros a b [] []. unfold wf_line. rewrite Ep. split; congruence.
  - eapply Forall2_Forall_transfer; [|exact Fc|exact Hc].
    intros a b [] []. unfold wf_loop. rewrite El, Ef. split; congruence.
  - eapply Forall2_Forall_transfer; [|exact Fs|exact Hs].
    intros a b [] []. unfold wf_surface. rewrite Ec, Ep. split; congruence.
Qed.

Lemma frame_valid st st' r : frame R T st st' → valid st r → valid st' r.
Proof.
  intros Hfr. destruct (frame_lengths _ _ Hfr) as (Ep & El & Ec & Es & Ef).
  destruct r; simpl; congruence.
Qed.

(** Flags that are set stay set. *)
Lemma frame_constructed st st' r :
  frame R T st st' → constructed st r = true → constructed st' r = true.
Proof.
  intros Hfr. unfold constructed.
  destruct r as [p|l|c|s|f]; simpl.
  - destruct (heap_points st !! p) as [o|] eqn:E; [|done].
    destruct (frame_point_at _ _ _ _ _ _ Hfr E) as (o' & -> & []). simpl.
    by apply R_flags.
  - destruct (heap_lines st !! l) as [o|] eqn:E; [|done].
    destruct (frame_line_at _ _ _ _ _ _ Hfr E) as (o' & -> & []). simpl.
    by apply R_flags.
  - destruct (heap_loops st !! c) as [o|] eqn:E; [|done].
    destruct (frame_loop_at _ _ _ _ _ _ Hfr E) as (o' & -> & []). simpl.
    by apply R_flags.
  - destruct (heap_surfaces st !! s) as [o|] eqn:E; [|done].
    destruct (frame_surface_at _ _ _ _ _ _ Hfr E) as (o' & -> & []). simpl.
    by apply R_flags.
  - destruct (heap_fields st !! f) as [o|] eqn:E; [|done].
    destruct (frame_field_at _ _ _ _ _ _ Hfr E) as (o' & -> & [? Hb]). simpl.
    apply Hb.
Qed.

Lemma frame_refinement_done st st' r :
  frame R T st st' → refinement_done st r = true → refinement_done st' r = true.
Proof.
  intros Hfr. unfold refinement_done.
  destruct r as [p|l|c|s|f]; simpl.
  - destruct (heap_points st !! p) as [o|] eqn:E; [|done].
    destruct (frame_point_at _ _ _ _ _ _ Hfr E) as (o' & -> & []). simpl.
    by apply R_flags.
  - destruct (heap_lines st !! l) as [o|] eqn:E; [|done].
    destruct (frame_line_at _ _ _ _ _ _ Hfr E) as (o' & -> & []). simpl.
    by apply R_flags.
  - destruct (heap_loops st !! c) as [o|] eqn:E; [|done].
    destruct (frame_loop_at _ _ _ _ _ _ Hfr E) as (o' & -> & []). simpl.
    by apply R_flags.
  - destruct (heap_surfaces st !! s) as [o|] eqn:E; [|done].
    destruct (frame_surface_at _ _ _ _ _ _ Hfr E) as (o' & -> & []). simpl.
    by apply R_flags.
  - destruct (heap_fields st !! f) as [o|] eqn:E; [|done].
    destruct (frame_field_at _ _ _ _ _ _ Hfr E) as (o' & -> & [? Hb]). simpl.
    apply Hb.
Qed.

(** The graph under an entity is the same after a run. *)
Lemma frame_line_points st st' l :
  frame R T st st' → line_points st' l = line_points st l.
Proof.
  intros Hfr. unfold line_points.
  destruct (heap_lines st !! l) as [o|] eqn:E.
  - destruct (frame_line_at _ _ _ _ _ _ Hfr E) as (o' & -> & []). congruence.
  - destruct (frame_lengths _ _ Hfr) as (_ & El & _).
    apply lookup_ge_None in E. rewrite <- El in E.
    apply lookup_ge_None in E. by rewrite E.
Qed.

Lemma frame_loop_points st st' c :
  frame R T st st' → loop_points st' c = loop_points st c.
Proof.
  intros Hfr. unfold loop_points.
  destruct (heap_loops st !! c) as [o|] eqn:E.
  - destruct (frame_loop_at _ _ _ _ _ _ Hfr E) as (o' & -> & [Hl _ _ _]).
    rewrite <- Hl. f_equal. apply list_fmap_ext. intros _ l _.
    by apply frame_line_points.
  - destruct (frame_lengths _ _ Hfr) as (_ & _ & Ec & _).
    apply lookup_ge_None in E. rewrite <- Ec in E.
    apply lookup_ge_None in E. by rewrite E.
Qed.

Lemma frame_surface_points st st' s :
  frame R T st st' → surface_points st' s = surface_points st s.
Proof.
  intros Hfr. unfold surface_points.
  destruct (heap_surfaces st !! s) as [o|] eqn:E.
  - destruct (frame_surface_at _ _ _ _ _ _ Hfr E) as (o' & -> & [_ _ Hl _ _ _ _]).
    rewrite <- Hl. f_equal. apply list_fmap_ext. intros _ c _.
    by apply frame_loop_points.
  - destruct (frame_lengths _ _ Hfr) as (_ & _ & _ & Es & _).
    apply lookup_ge_None in E. rewrite <- Es in E.
    apply lookup_ge_None in E. by rewrite E.
Qed.

Lemma frame_ref_points st st' r :
  frame R T st st' → ref_points st' r = ref_points st r.
Proof.
  intros Hfr. destruct r; simpl;
    auto using frame_line_points, frame_loop_points, frame_surface_points.
Qed.

End FrameFacts.

(** ** The construction phase *)

(** Nothing is known of a loop's [line_tags] across a construction. *)
Definition any_tags : relation (list (option Z)) := λ _ _, True.

#[global] Instance any_tags_refl : Reflexive any_tags.
Proof. done. Qed.
#[global] Instance any_tags_trans : Transitive any_tags.
Proof. done. Qed.

(** What every run of the construction phase satisfies, [k] bounding the
    rank of the creation calls it makes. *)
Definition stepB (k : nat) (st st' : State) : Prop :=
  frame flags_le any_tags st st' ∧ emits (rank_below k) st st' ∧ balance st st'.

#[global] Instance stepB_refl k : Reflexive (stepB k).
Proof. intros st. split; [reflexivity | split; reflexivity]. Qed.

#[global] Instance stepB_trans k : Transitive (stepB k).
Proof.
  intros a b c (? & ? & ?) (? & ? & ?).
  split; [etrans; eauto | split; etrans; eauto].
Qed.

Lemma stepB_mono j k st st' : j ≤ k → stepB j st st' → stepB k st st'.
Proof.
  intros Hjk (? & ? & ?). split; [done | split; [|done]].
  eapply emits_mono; [|done]. intros c. by apply rank_below_mono.
Qed.

(** A call that creates an entity of rank below [k], but no point. *)
Lemma stepB_call k st c :
  rank_below k c = true → creation_rank c ≠ Some 0 →
  stepB k st (with_calls (λ _, gmsh_calls st ++ [c]) st).
Proof.
  intros Hc H0. split; [apply (frame_calls flags_le any_tags) |].
  split; [by apply emits_call | by apply balance_call].
Qed.

Lemma frame_line_at_r R T st st' i o' :
  frame R T st st' → heap_lines st' !! i = Some o' →
  ∃ o, heap_lines st !! i = Some o ∧ Line_le R o o'.
Proof. intros [] Hi. eapply Forall2_lookup_r; eauto. Qed.

Lemma frame_loop_at_r R T st st' i o' :
  frame R T st st' → heap_loops st' !! i = Some o' →
  ∃ o, heap_loops st !! i = Some o ∧ CurveLoop_le R T o o'.
Proof. intros [] Hi. eapply Forall2_lookup_r; eauto. Qed.

Lemma frame_surface_at_r R T st st' i o' :
  frame R T st st' → heap_surfaces st' !! i = Some o' →
  ∃ o, heap_surfaces st !! i = Some o ∧ PlaneSurface_le R o o'.
Proof. intros [] Hi. eapply Forall2_lookup_r; eauto. Qed.

(** [closed] survives a run as soon as the entities the run marks
    constructed have constructed dependencies. *)
Lemma closed_frame st st' :
  closed st → frame flags_le any_tags st st' →
  (∀ l o o', heap_lines st !! l = Some o → heap_lines st' !! l = Some o' →
     before_sync_initiated (Line_base o) = false →
     before_sync_initiated (Line_base o') = true →
     constructed st' (RPoint (Line_start o')) = true ∧
     constructed st' (RPoint (Line_end o')) = true) →
  (∀ c o o', heap_loops st !! c = Some o → heap_loops st' !! c = Some o' →
     before_sync_initiated (CurveLoop_base o) = false →
     before_sync_initiated (CurveLoop_base o') = true →
     ∀ l, l ∈ CurveLoop_lines o' → constructed st' (RLine l) = true) →
  (∀ s o o', heap_surfaces st !! s = Some o → heap_surfaces st' !! s = Some o' →
     before_sync_initiated (PlaneSurface_base o) = false →
     before_sync_initiated (PlaneSurface_base o') = true →
     ∀ c, c ∈ PlaneSurface_curve_loops o' → constructed st' (RCurveLoop c) = true) →
  closed st'.
Proof.
  intros (Cl & Cc & Cs) Hfr Nl Nc Ns.
  assert (Hmono : ∀ r, constructed st r = true → constructed st' r = true).
  { intros r. eapply frame_constructed; [|exact Hfr]. auto. }
  split; [|split].
  - intros l o' Hl' Ho'.
    destruct (frame_line_at_r _ _ _ _ _ _ Hfr Hl') as (o & Hl & [Es Ee _ _ _]).
    destruct (before_sync_initiated (Line_base o)) eqn:Eo.
    + destruct (Cl l o Hl Eo). rewrite <- Es, <- Ee. auto.
    + by destruct (Nl l o o' Hl Hl' Eo Ho').
  - intros c o' Hc' Ho' l Hin.
    destruct (frame_loop_at_r _ _ _ _ _ _ Hfr Hc') as (o & Hc & [El _ _ _]).
    destruct (before_sync_initiated (CurveLoop_base o)) eqn:Eo.
    + apply Hmono. eapply Cc; eauto. by rewrite El.
    + eapply Nc; eauto.
  - intros s o' Hs' Ho' c Hin.
    destruct (frame_surface_at_r _ _ _ _ _ _ Hfr Hs') as (o & Hs & [_ _ El _ _ _ _]).
    destruct (before_sync_initiated (PlaneSurface_base o)) eqn:Eo.
    + apply Hmono. eapply Cs; eauto. by rewrite El.
    + eapply Ns; eauto.
Qed.

(** A construction run that constructs points of [S] only, and keeps the
    heap closed. *)
Definition grows (k : nat) (S : gset nat) (st st' : State) : Prop :=
  stepB k st st' ∧
  (closed st → closed st' ∧ constructed_points st' ⊆ constructed_points st ∪ S).

#[global] Instance grows_refl k S : Reflexive (grows k S).
Proof. intros st. split; [reflexivity|]. intros Hc. split; [done|]. set_solver. Qed.

#[global] Instance grows_trans k S : Transitive (grows k S).
Proof.
  intros a b c [H1 C1] [H2 C2]. split; [by etrans|].
  intros Ha. destruct (C1 Ha) as [Hb S1]. destruct (C2 Hb) as [Hc S2].
  split; [done|]. clear -S1 S2. set_solver.
Qed.

Lemma grows_mono j k (S S' : gset nat) st st' :
  j ≤ k → S ⊆ S' → grows j S st st' → grows k S' st st'.
Proof.
  intros Hjk HS [H1 C1]. split; [by eapply stepB_mono|].
  intros Ha. destruct (C1 Ha) as [? S1]. split; [done|]. clear -S1 HS. set_solver.
Qed.

(** The outcome of [before_sync] on an entity whose creation call has rank
    [k]. *)
Record built (kr : list GmshCall → Z) (k : nat) (r : Ref) (st st' : State) : Prop := {
  built_grows : grows (S k) (ref_points st r) st st';
  built_done : constructed st' r = true;
  built_again : constructed st r = true → st' = st;
  built_first : constructed st r = false →
    ∃ D c, gmsh_calls st' = gmsh_calls st ++ D ++ [c] ∧
           Forall (λ e, rank_below k e = true) D ∧ creation_rank c = Some k ∧
           tag <$> base_of st' r = Some (Some (kr (gmsh_calls st')))
}.

Lemma with_points_twice i o o' st :
  with_points <[i := o']> (with_points <[i := o]> st) = with_points <[i := o']> st.
Proof. destruct st. unfold with_points. simpl. by rewrite list_insert_insert_eq. Qed.
Lemma with_lines_twice i o o' st :
  with_lines <[i := o']> (with_lines <[i := o]> st) = with_lines <[i := o']> st.
Proof. destruct st. unfold with_lines. simpl. by rewrite list_insert_insert_eq. Qed.
Lemma with_loops_twice i o o' st :
  with_loops <[i := o']> (with_loops <[i := o]> st) = with_loops <[i := o']> st.
Proof. destruct st. unfold with_loops. simpl. by rewrite list_insert_insert_eq. Qed.
Lemma with_surfaces_twice i o o' st :
  with_surfaces <[i := o']> (with_surfaces <[i := o]> st) = with_surfaces <[i := o']> st.
Proof. destruct st. unfold with_surfaces. simpl. by rewrite list_insert_insert_eq. Qed.

Lemma with_points_same i o st :
  heap_points st !! i = Some o → with_points <[i := o]> st = st.
Proof. destruct st. unfold with_points. simpl. intros H. by rewrite list_insert_id. Qed.
Lemma with_lines_same i o st :
  heap_lines st !! i = Some o → with_lines <[i := o]> st = st.
Proof. destruct st. unfold with_lines. simpl. intros H. by rewrite list_insert_id. Qed.
Lemma with_loops_same i o st :
  heap_loops st !! i = Some o → with_loops <[i := o]> st = st.
Proof. destruct st. unfold with_loops. simpl. intros H. by rewrite list_insert_id. Qed.
Lemma with_surfaces_same i o st :
  heap_surfaces st !! i = Some o → with_surfaces <[i := o]> st = st.
Proof. destruct st. unfold with_surfaces. simpl. intros H. by rewrite list_insert_id. Qed.

Lemma Point_before_sync_again o :
  before_sync_initiated (Point_base o) = true →
  Point_on_base MeshTransaction_before_sync o = o.
Proof. destruct o; simpl; intros H. unfold Point_on_base; simpl. by rewrite before_sync_again. Qed.
Lemma Line_before_sync_again o :
  before_sync_initiated (Line_base o) = true →
  Line_on_base MeshTransaction_before_sync o = o.
Proof. destruct o; simpl; intros H. unfold Line_on_base; simpl. by rewrite before_sync_again. Qed.
Lemma CurveLoop_before_sync_again o :
  before_sync_initiated (CurveLoop_base o) = true →
  CurveLoop_on_base MeshTransaction_before_sync o = o.
Proof.
  destruct o; simpl; intros H. unfold CurveLoop_on_base; simpl. by rewrite before_sync_again.
Qed.
Lemma PlaneSurface_before_sync_again o :
  before_sync_initiated (PlaneSurface_base o) = true →
  PlaneSurface_on_base MeshTransaction_before_sync o = o.
Proof.
  destruct o; simpl; intros H. unfold PlaneSurface_on_base; simpl.
  by rewrite before_sync_again.
Qed.

Lemma Point_before_sync_built kr st p :
  p < length (heap_points st) →
  wp (Point_before_sync kr p) (λ _ st', built kr 0 (RPoint p) st st') st.
Proof.
  intros Hp. destruct (lookup_lt_is_Some_2 _ _ Hp) as [o Ho].
  unfold Point_before_sync.
  apply wp_bind. eapply wp_deref; [exact Ho|].
  apply wp_bind. apply wp_when.
  - intros Hfresh%negb_true_iff.
    apply wp_bind. apply wp_gmsh.
    eapply wp_mutate; [exact Ho|].
    eapply wp_mutate.
    { simpl. apply list_lookup_insert_eq. exact Hp. }
    rewrite with_points_twice.
    set (c := geo_add_point _ _ _ _).
    set (o' := Point_on_base _ (Point_on_base _ o)).
    assert (Hfr : frame flags_le any_tags st
                    (with_points <[p := o']> (with_calls (λ _, gmsh_calls st ++ [c]) st))).
    { etrans; [apply (frame_calls flags_le any_tags (λ _, gmsh_calls st ++ [c]))|].
      eapply (frame_point flags_le any_tags); [exact Ho|].
      split; try done; simpl; split; auto. }
    split.
    + split.
      * split; [exact Hfr | split; [by apply (emits_call _ st c) |]].
        eapply balance_new_point; eauto.
      * intros Hcl. split.
        -- eapply closed_frame; [exact Hcl|exact Hfr|..]; simpl;
             intros ? ? ? H1 H2 ? ?; congruence.
        -- by rewrite (constructed_points_insert _ p o o').
    + unfold constructed. simpl. by rewrite list_lookup_insert_eq.
    + unfold constructed. simpl. rewrite Ho. simpl. congruence.
    + intros _. exists [], c. simpl. repeat split; try done.
      by rewrite list_lookup_insert_eq.
  - intros Hdone%negb_false_iff.
    eapply wp_mutate; [exact Ho|].
    replace (with_points _ st) with st; last first.
    { rewrite Point_before_sync_again by done. by rewrite with_points_same. }
    split; [reflexivity | | done |].
    + unfold constructed. simpl. by rewrite Ho.
    + unfold constructed. simpl. rewrite Ho. simpl. congruence.
Qed.

(** A loop whose every iteration makes a [step] makes a [step], and what an
    iteration establishes for its element holds at the end when later
    steps keep it. *)
Lemma for_acc_wp {A B} (step : relation State) `{!PreOrder step}
    (Qx : A → State → Prop) (xs : list A) (body : B → A → M B) st0 acc0 :
  (∀ x s s', Qx x s → step s s' → Qx x s') →
  (∀ x acc s, x ∈ xs → step st0 s → wp (body acc x) (λ _ s', step s s' ∧ Qx x s') s) →
  wp (for_acc xs acc0 body) (λ _ s', step st0 s' ∧ ∀ x, x ∈ xs → Qx x s') st0.
Proof.
  intros Hstable Hbody.
  cut (∀ s acc, step st0 s →
         wp (for_acc xs acc body) (λ _ s', step s s' ∧ ∀ x, x ∈ xs → Qx x s') s).
  { intros H. eapply wp_mono; [apply H; reflexivity|]. simpl. tauto. }
  induction xs as [|x xs IH]; intros s acc Hs.
  - apply wp_ret. split; [reflexivity|]. intros x Hx. by apply elem_of_nil in Hx.
  - simpl. apply wp_bind.
    eapply wp_mono; [apply Hbody; [left | exact Hs]|].
    intros acc' s1 [H1 Q1]. simpl.
    eapply wp_mono.
    { apply IH; [|by etrans]. intros y acc'' s2 Hy. apply Hbody. by right. }
    intros acc2 s2 [H2 Q2]. simpl. split; [by etrans|].
    intros y [->|Hy]%elem_of_cons; [by eapply Hstable | by apply Q2].
Qed.

Lemma for_wp {A} (step : relation State) `{!PreOrder step}
    (Qx : A → State → Prop) (xs : list A) (body : A → M unit) st0 :
  (∀ x s s', Qx x s → step s s' → Qx x s') →
  (∀ x s, x ∈ xs → step st0 s → wp (body x) (λ _ s', step s s' ∧ Qx x s') s) →
  wp (for_ xs body) (λ _ s', step st0 s' ∧ ∀ x, x ∈ xs → Qx x s') st0.
Proof. intros Hs Hb. unfold for_. apply for_acc_wp; auto. Qed.

#[global] Instance stepB_preorder k : PreOrder (stepB k).
Proof. split; apply _. Qed.
#[global] Instance grows_preorder k S : PreOrder (grows k S).
Proof. split; apply _. Qed.

(** Mutations of the heap that only set flags or tags are steps. *)
Lemma stepB_line k st i o o' :
  heap_lines st !! i = Some o → Line_le flags_le o o' →
  stepB k st (with_lines <[i := o']> st).
Proof.
  intros Hi Hle. split; [by eapply (frame_line flags_le any_tags)|].
  split; [by apply emits_silent | by apply balance_same].
Qed.

Lemma stepB_loop k st i o o' :
  heap_loops st !! i = Some o → CurveLoop_le flags_le any_tags o o' →
  stepB k st (with_loops <[i := o']> st).
Proof.
  intros Hi Hle. split; [by eapply (frame_loop flags_le any_tags)|].
  split; [by apply emits_silent | by apply balance_same].
Qed.

Lemma stepB_surface k st i o o' :
  heap_surfaces st !! i = Some o → PlaneSurface_le flags_le o o' →
  stepB k st (with_surfaces <[i := o']> st).
Proof.
  intros Hi Hle. split; [by eapply (frame_surface flags_le any_tags)|].
  split; [by apply emits_silent | by apply balance_same].
Qed.

Lemma stepB_field k st i o o' :
  heap_fields st !! i = Some o → Field_le o o' →
  stepB k st (with_fields <[i := o']> st).
Proof.
  intros Hi Hle. split; [by eapply (frame_field flags_le any_tags)|].
  split; [by apply emits_silent | by apply balance_same].
Qed.

Lemma stepB_constructed k st st' r :
  stepB k st st' → constructed st r = true → constructed st' r = true.
Proof. intros [Hfr _]. eapply frame_constructed; [|exact Hfr]. auto. Qed.

Lemma stepB_wf k st st' : stepB k st st' → wf st → wf st'.
Proof. intros [Hfr _]. by eapply frame_wf. Qed.

Lemma grows_step k S st st' : grows k S st st' → stepB k st st'.
Proof. by intros []. Qed.

(** A step that changes no point and marks no entity constructed. *)
Lemma grows_quiet k S st st' :
  stepB k st st' → heap_points st' = heap_points st →
  (∀ l o', heap_lines st' !! l = Some o' → before_sync_initiated (Line_base o') = true →
     constructed st (RLine l) = true ∨
     (constructed st' (RPoint (Line_start o')) = true ∧
      constructed st' (RPoint (Line_end o')) = true)) →
  (∀ c o', heap_loops st' !! c = Some o' → before_sync_initiated (CurveLoop_base o') = true →
     constructed st (RCurveLoop c) = true ∨
     ∀ l, l ∈ CurveLoop_lines o' → constructed st' (RLine l) = true) →
  (∀ s o', heap_surfaces st' !! s = Some o' →
     before_sync_initiated (PlaneSurface_base o') = true →
     constructed st (RSurface s) = true ∨
     ∀ c, c ∈ PlaneSurface_curve_loops o' → constructed st' (RCurveLoop c) = true) →
  grows k S st st'.
Proof.
  intros Hstep Hp Nl Nc Ns. split; [done|]. intros Hcl. split.
  - destruct Hstep as [Hfr _].
    eapply closed_frame; [exact Hcl | exact Hfr | ..].
    + intros l o o' Hl Hl' Ho Ho'. destruct (Nl l o' Hl' Ho') as [H|H]; [|done].
      unfold constructed in H. simpl in H. rewrite Hl in H. simpl in H. congruence.
    + intros c o o' Hc Hc' Ho Ho'. destruct (Nc c o' Hc' Ho') as [H|H]; [|done].
      unfold constructed in H. simpl in H. rewrite Hc in H. simpl in H. congruence.
    + intros s o o' Hs Hs' Ho Ho'. destruct (Ns s o' Hs' Ho') as [H|H]; [|done].
      unfold constructed in H. simpl in H. rewrite Hs in H. simpl in H. congruence.
  - unfold constructed_points, constructed. simpl. rewrite Hp. set_solver.
Qed.

Lemma wf_line_at st l o : wf st → heap_lines st !! l = Some o → wf_line st o.
Proof. intros (Hl & _ & _) Ho. eapply Forall_lookup_1 in Hl; eauto. Qed.

Lemma wf_loop_at st c o : wf st → heap_loops st !! c = Some o → wf_loop st o.
Proof. intros (_ & Hc & _) Ho. eapply Forall_lookup_1 in Hc; eauto. Qed.

Lemma wf_surface_at st s o : wf st → heap_surfaces st !! s = Some o → wf_surface st o.
Proof. intros (_ & _ & Hs) Ho. eapply Forall_lookup_1 in Hs; eauto. Qed.

Lemma constructed_point st p o :
  heap_points st !! p = Some o → constructed st (RPoint p) = before_sync_initiated (Point_base o).
Proof. intros H. unfold constructed. simpl. by rewrite H. Qed.
Lemma constructed_line st l o :
  heap_lines st !! l = Some o → constructed st (RLine l) = before_sync_initiated (Line_base o).
Proof. intros H. unfold constructed. simpl. by rewrite H. Qed.
Lemma constructed_loop st c o :
  heap_loops st !! c = Some o →
  constructed st (RCurveLoop c) = before_sync_initiated (CurveLoop_base o).
Proof. intros H. unfold constructed. simpl. by rewrite H. Qed.
Lemma constructed_surface st s o :
  heap_surfaces st !! s = Some o →
  constructed st (RSurface s) = before_sync_initiated (PlaneSurface_base o).
Proof. intros H. unfold constructed. simpl. by rewrite H. Qed.

Lemma Line_before_sync_built kr st l :
  wf st → l < length (heap_lines st) →
  wp (Line_before_sync kr l) (λ _ st', built kr 1 (RLine l) st st') st.
Proof.
  intros Hwf Hl. destruct (lookup_lt_is_Some_2 _ _ Hl) as [o Ho].
  destruct (wf_line_at _ _ _ Hwf Ho) as [Ha Hb].
  unfold Line_before_sync.
  apply wp_bind. eapply wp_deref; [exact Ho|].
  apply wp_bind. apply wp_when.
  - intros Hfresh%negb_true_iff.
    apply wp_bind. eapply wp_mono; [by apply Point_before_sync_built|].
    intros [] st1 [G1 D1 _ _]. simpl.
    destruct (frame_lengths _ _ _ _ (proj1 (grows_step _ _ _ _ G1))) as (Ep1 & _).
    apply wp_bind. eapply wp_mono; [apply Point_before_sync_built; by rewrite Ep1|].
    intros [] st2 [G2 D2 _ _]. simpl.
    assert (G12 : grows 1 (line_points st l) st st2).
    { unfold line_points. rewrite Ho. etrans.
      - eapply grows_mono; [done| |exact G1]. simpl. set_solver.
      - eapply grows_mono; [done| |exact G2]. simpl. set_solver. }
    pose proof (grows_step _ _ _ _ G12) as S12.
    destruct S12 as (F12 & E12 & B12).
    destruct (frame_lengths _ _ _ _ F12) as (Ep2 & El2 & _).
    destruct (frame_line_at _ _ _ _ _ _ F12 Ho) as (o2 & Ho2 & Le2).
    assert (Ha2 : is_Some (heap_points st2 !! Line_start o))
      by (apply lookup_lt_is_Some_2; by rewrite Ep2).
    assert (Hb2 : is_Some (heap_points st2 !! Line_end o))
      by (apply lookup_lt_is_Some_2; by rewrite Ep2).
    destruct Ha2 as [pa Hpa]. destruct Hb2 as [pb Hpb].
    apply wp_bind. eapply wp_deref; [exact Hpa|].
    apply wp_bind. eapply wp_deref; [exact Hpb|].
    apply wp_bind. apply wp_gmsh.
    eapply wp_mutate; [exact Ho2|].
    eapply wp_mutate.
    { simpl. apply list_lookup_insert_eq. by rewrite El2. }
    rewrite with_lines_twice.
    set (c := geo_add_line _ _).
    set (o3 := Line_on_base _ (Line_on_base _ o2)).
    set (st2' := with_calls _ st2).
    assert (Hda : constructed st2 (RPoint (Line_start o)) = true).
    { eapply stepB_constructed; [exact (grows_step _ _ _ _ G2) | exact D1]. }
    assert (S23 : stepB 2 st2 (with_lines <[l := o3]> st2')).
    { etrans; [apply (stepB_call 2 st2 c); done|].
      eapply stepB_line; [exact Ho2|]. split; try done; simpl; split; auto. }
    assert (Hl3 : heap_lines (with_lines <[l := o3]> st2') !! l = Some o3).
    { simpl. apply list_lookup_insert_eq. by rewrite El2. }
    split.
    + etrans; [eapply grows_mono; [|reflexivity|exact G12]; lia|].
      apply grows_quiet; [exact S23 | done | | |].
      * intros l' o' Hl' Ho'. destruct (decide (l' = l)) as [->|Hne].
        -- right. rewrite Hl3 in Hl'. injection Hl' as <-.
           destruct Le2 as [Es Ee _ _ _]. simpl. rewrite <- Es, <- Ee.
           split; (eapply stepB_constructed; [exact S23|]); done.
        -- left. simpl in Hl'. rewrite list_lookup_insert_ne in Hl' by done.
           by rewrite (constructed_line _ _ _ Hl').
      * intros c' o' Hc' Ho'. left. change (heap_loops st2 !! c' = Some o') in Hc'.
        by rewrite (constructed_loop _ _ _ Hc').
      * intros s' o' Hs' Ho'. left. change (heap_surfaces st2 !! s' = Some o') in Hs'.
        by rewrite (constructed_surface _ _ _ Hs').
    + by rewrite (constructed_line _ _ _ Hl3).
    + rewrite (constructed_line _ _ _ Ho). congruence.
    + intros _. destruct E12 as (D & HD & HDP). exists D, c. split; [|split; [done|split]].
      * simpl. by rewrite HD, app_assoc.
      * done.
      * simpl. by rewrite list_lookup_insert_eq by (by rewrite El2).
  - intros Hdone%negb_false_iff.
    eapply wp_mutate; [exact Ho|].
    rewrite Line_before_sync_again by done. rewrite with_lines_same by done.
    split; [|by rewrite (constructed_line _ _ _ Ho)|done|].
    + split; [reflexivity|]. intros Hcl. split; [done|]. set_solver.
    + rewrite (constructed_line _ _ _ Ho). congruence.
Qed.

Lemma union_list_fmap_elem {A} (f : A → gset nat) (xs : list A) x :
  x ∈ xs → f x ⊆ ⋃ (f <$> xs).
Proof.
  intros Hx p Hp. apply elem_of_union_list. exists (f x). split; [|done].
  apply list_elem_of_fmap. eauto.
Qed.

Lemma CurveLoop_before_sync_built kr st c :
  wf st → c < length (heap_loops st) →
  wp (CurveLoop_before_sync kr c) (λ _ st', built kr 2 (RCurveLoop c) st st') st.
Proof.
  intros Hwf Hc. destruct (lookup_lt_is_Some_2 _ _ Hc) as [o Ho].
  destruct (wf_loop_at _ _ _ Hwf Ho) as [Hls Hfs].
  unfold CurveLoop_before_sync.
  apply wp_bind. eapply wp_deref; [exact Ho|].
  apply wp_bind. apply wp_when.
  - intros Hfresh%negb_true_iff.
    set (Pts := loop_points st c).
    (* the lines *)
    apply wp_bind.
    eapply wp_mono.
    { apply (for_wp (grows 2 Pts) (λ l s, constructed s (RLine l) = true)).
      - intros l s s' Hl Hs. eapply stepB_constructed; [exact (grows_step _ _ _ _ Hs)|done].
      - intros l s Hl Hs.
        pose proof (grows_step _ _ _ _ Hs) as (Fs & _ & _).
        destruct (frame_lengths _ _ _ _ Fs) as (_ & El & Ec & _).
        assert (Hl' : l < length (heap_lines s)).
        { rewrite El. rewrite Forall_forall in Hls. by apply Hls. }
        apply wp_bind.
        eapply wp_mono; [apply Line_before_sync_built; [by eapply frame_wf|exact Hl']|].
        intros [] s1 [G1 D1 _ _]. simpl.
        pose proof (grows_step _ _ _ _ G1) as (F1 & _ & _).
        destruct (frame_lengths _ _ _ _ F1) as (_ & El1 & Ec1 & _).
        destruct (lookup_lt_is_Some_2 (heap_lines s1) l) as [ln Hln]; [by rewrite El1|].
        destruct (lookup_lt_is_Some_2 (heap_loops s1) c) as [o1 Ho1];
          [by rewrite Ec1, Ec|].
        apply wp_bind. eapply wp_deref; [exact Hln|].
        eapply wp_mutate; [exact Ho1|].
        set (o1' := CurveLoop_append_line_tag _ o1).
        assert (S12 : stepB 2 s1 (with_loops <[c := o1']> s1)).
        { eapply stepB_loop; [exact Ho1|]. by split. }
        split.
        + etrans.
          * eapply grows_mono; [|
              |exact G1]; [lia|].
            change (line_points s l ⊆ Pts).
            rewrite (frame_line_points _ _ _ _ _ Fs).
            unfold Pts, loop_points. rewrite Ho. by apply union_list_fmap_elem.
          * apply grows_quiet; [exact S12 | done | | |].
            -- intros l' o' Hl'' Ho'. left.
               change (heap_lines s1 !! l' = Some o') in Hl''.
               by rewrite (constructed_line _ _ _ Hl'').
            -- intros c' o' Hc' Ho'. left. simpl in Hc'.
               destruct (decide (c' = c)) as [->|Hne].
               ++ rewrite list_lookup_insert_eq in Hc' by (by rewrite Ec1, Ec).
                  injection Hc' as <-. by rewrite (constructed_loop _ _ _ Ho1).
               ++ rewrite list_lookup_insert_ne in Hc' by done.
                  by rewrite (constructed_loop _ _ _ Hc').
            -- intros s' o' Hs' Ho'. left.
               change (heap_surfaces s1 !! s' = Some o') in Hs'.
               by rewrite (constructed_surface _ _ _ Hs').
        + eapply stepB_constructed; [exact S12 | exact D1]. }
    intros [] s1 [G1 Q1]. simpl.
    pose proof (grows_step _ _ _ _ G1) as (F1 & E1 & _).
    destruct (frame_lengths _ _ _ _ F1) as (_ & El1 & Ec1 & _ & Ef1).
    destruct (frame_loop_at _ _ _ _ _ _ F1 Ho) as (o1 & Ho1 & Le1).
    apply wp_bind. eapply wp_deref; [exact Ho1|].
    apply wp_bind. apply wp_gmsh.
    apply wp_bind. eapply wp_mutate; [exact Ho1|].
    set (call := geo_add_curve_loop _).
    set (t := kr _).
    set (o2 := CurveLoop_on_base (set_tag (Some t)) o1).
    set (s2 := with_loops <[c := o2]> (with_calls _ s1)).
    assert (Ho2 : heap_loops s2 !! c = Some o2).
    { simpl. apply list_lookup_insert_eq. by rewrite Ec1. }
    assert (S12 : stepB 3 s1 s2).
    { etrans; [apply (stepB_call 3 s1 call); done|].
      eapply stepB_loop; [exact Ho1|]. split; try done; simpl; split; auto. }
    assert (G12 : grows 3 Pts s1 s2).
    { apply grows_quiet; [exact S12 | done | | |].
      - intros l' o' Hl'' Ho'. left. change (heap_lines s1 !! l' = Some o') in Hl''.
        by rewrite (constructed_line _ _ _ Hl'').
      - intros c' o' Hc' Ho'. left. simpl in Hc'.
        destruct (decide (c' = c)) as [->|Hne].
        + rewrite list_lookup_insert_eq in Hc' by (by rewrite Ec1).
          injection Hc' as <-. by rewrite (constructed_loop _ _ _ Ho1).
        + rewrite list_lookup_insert_ne in Hc' by done.
          by rewrite (constructed_loop _ _ _ Hc').
      - intros s' o' Hs' Ho'. left. change (heap_surfaces s1 !! s' = Some o') in Hs'.
        by rewrite (constructed_surface _ _ _ Hs'). }
    (* the fields *)
    set (fstep := λ s s' : State,
           grows 3 Pts s s' ∧ gmsh_calls s' = gmsh_calls s ∧ heap_loops s' = heap_loops s).
    assert (PreOrder fstep) as Hpre.
    { split.
      - intros s. split; [reflexivity|done].
      - intros a b d (? & ? & ?) (? & ? & ?). split; [by etrans|]. split; congruence. }
    eapply wp_mono.
    { apply (for_wp fstep (λ _ _, True)); [done|].
      intros f s Hf (Gs & _ & _).
      pose proof (grows_step _ _ _ _ Gs) as (Fs & _ & _).
      destruct (frame_lengths _ _ _ _ Fs) as (_ & _ & _ & _ & Ef).
      destruct (lookup_lt_is_Some_2 (heap_fields s) f) as [fo Hfo].
      { rewrite Ef. simpl. rewrite Ef1. rewrite Forall_forall in Hfs. by apply Hfs. }
      unfold Field_before_sync. eapply wp_mutate; [exact Hfo|].
      split; [|done]. split; [|done].
      apply grows_quiet.
      - eapply stepB_field; [exact Hfo|]. split; try done; simpl; split; auto.
      - done.
      - intros l' o' Hl'' Ho'. left. change (heap_lines s !! l' = Some o') in Hl''.
        by rewrite (constructed_line _ _ _ Hl'').
      - intros c' o' Hc' Ho'. left. change (heap_loops s !! c' = Some o') in Hc'.
        by rewrite (constructed_loop _ _ _ Hc').
      - intros s' o' Hs' Ho'. left. change (heap_surfaces s !! s' = Some o') in Hs'.
        by rewrite (constructed_surface _ _ _ Hs'). }
    intros [] s3 [(G23 & E23 & L23) _]. simpl.
    eapply wp_mutate; [rewrite L23; exact Ho2|].
    set (o3 := CurveLoop_on_base MeshTransaction_before_sync o2).
    assert (Ec3 : length (heap_loops s3) = length (heap_loops st)).
    { rewrite L23. simpl. by rewrite length_insert. }
    assert (Ho3 : heap_loops (with_loops <[c := o3]> s3) !! c = Some o3).
    { simpl. apply list_lookup_insert_eq. by rewrite Ec3. }
    assert (S34 : stepB 3 s3 (with_loops <[c := o3]> s3)).
    { eapply stepB_loop; [rewrite L23; exact Ho2|]. split; try done; simpl; split; auto. }
    assert (S13 : stepB 3 s1 s3).
    { etrans; [exact S12 | exact (grows_step _ _ _ _ G23)]. }
    split.
    + etrans; [eapply grows_mono; [|reflexivity|exact G1]; lia|].
      etrans; [eapply grows_mono; [|reflexivity|exact G12]; lia|].
      etrans; [eapply grows_mono; [|reflexivity|exact G23]; lia|].
      apply grows_quiet; [exact S34 | done | | |].
      * intros l' o' Hl'' Ho'. left. change (heap_lines s3 !! l' = Some o') in Hl''.
        by rewrite (constructed_line _ _ _ Hl'').
      * intros c' o' Hc' Ho'. simpl in Hc'.
        destruct (decide (c' = c)) as [->|Hne].
        -- right. rewrite list_lookup_insert_eq in Hc' by (by rewrite Ec3).
           injection Hc' as <-. intros l Hl.
           eapply stepB_constructed; [exact S34|].
           eapply stepB_constructed; [exact S13|].
           apply Q1. destruct Le1 as [El _ _ _]. by rewrite El.
        -- left. rewrite list_lookup_insert_ne in Hc' by done.
           by rewrite (constructed_loop _ _ _ Hc').
      * intros s' o' Hs' Ho'. left. change (heap_surfaces s3 !! s' = Some o') in Hs'.
        by rewrite (constructed_surface _ _ _ Hs').
    + by rewrite (constructed_loop _ _ _ Ho3).
    + rewrite (constructed_loop _ _ _ Ho). congruence.
    + intros _. destruct E1 as (D & HD & HDP). exists D, call.
      split; [|split; [|split]].
      * simpl. rewrite E23. simpl. by rewrite HD, app_assoc.
      * done.
      * done.
      * simpl. rewrite list_lookup_insert_eq by (by rewrite Ec3). simpl.
        rewrite E23. done.
  - intros Hdone%negb_false_iff.
    eapply wp_mutate; [exact Ho|].
    rewrite CurveLoop_before_sync_again by done. rewrite with_loops_same by done.
    split; [|by rewrite (constructed_loop _ _ _ Ho)|done|].
    + split; [reflexivity|]. intros Hcl. split; [done|]. set_solver.
    + rewrite (constructed_loop _ _ _ Ho). congruence.
Qed.

Lemma PlaneSurface_before_sync_built kr st s :
  wf st → s < length (heap_surfaces st) →
  wp (PlaneSurface_before_sync kr s) (λ _ st', built kr 3 (RSurface s) st st') st.
Proof.
  intros Hwf Hs. destruct (lookup_lt_is_Some_2 _ _ Hs) as [o Ho].
  destruct (wf_surface_at _ _ _ Hwf Ho) as [Hcs _].
  unfold PlaneSurface_before_sync.
  apply wp_bind. eapply wp_deref; [exact Ho|].
  apply wp_bind. apply wp_when.
  - intros Hfresh%negb_true_iff.
    set (Pts := surface_points st s).
    apply wp_bind.
    eapply wp_mono.
    { apply (for_acc_wp (grows 3 Pts) (λ c s', constructed s' (RCurveLoop c) = true)).
      - intros c s1 s2 Hc H12.
        eapply stepB_constructed; [exact (grows_step _ _ _ _ H12)|done].
      - intros c tags s1 Hc H1.
        pose proof (grows_step _ _ _ _ H1) as (F1 & _ & _).
        destruct (frame_lengths _ _ _ _ F1) as (_ & _ & Ec & _).
        assert (Hc' : c < length (heap_loops s1)).
        { rewrite Ec. rewrite Forall_forall in Hcs. by apply Hcs. }
        apply wp_bind.
        eapply wp_mono; [apply CurveLoop_before_sync_built; [by eapply frame_wf|exact Hc']|].
        intros [] s2 [G2 D2 _ _]. simpl.
        pose proof (grows_step _ _ _ _ G2) as (F2 & _ & _).
        destruct (frame_lengths _ _ _ _ F2) as (_ & _ & Ec2 & _).
        destruct (lookup_lt_is_Some_2 (heap_loops s2) c) as [lp Hlp]; [by rewrite Ec2|].
        apply wp_bind. eapply wp_deref; [exact Hlp|].
        apply wp_ret. split; [|exact D2].
        eapply grows_mono; [| |exact G2]; [lia|].
        change (loop_points s1 c ⊆ Pts).
        rewrite (frame_loop_points _ _ _ _ _ F1).
        unfold Pts, surface_points. rewrite Ho. by apply union_list_fmap_elem. }
    intros tags s1 [G1 Q1]. simpl.
    pose proof (grows_step _ _ _ _ G1) as (F1 & E1 & _).
    destruct (frame_lengths _ _ _ _ F1) as (_ & _ & _ & Es1 & _).
    destruct (frame_surface_at _ _ _ _ _ _ F1 Ho) as (o1 & Ho1 & Le1).
    apply wp_bind. apply wp_gmsh.
    eapply wp_mutate; [exact Ho1|].
    eapply wp_mutate.
    { simpl. apply list_lookup_insert_eq. by rewrite Es1. }
    rewrite with_surfaces_twice.
    set (call := geo_add_plane_surface _).
    set (o2 := PlaneSurface_on_base _ (PlaneSurface_on_base _ o1)).
    set (s1' := with_calls _ s1).
    assert (Ho2 : heap_surfaces (with_surfaces <[s := o2]> s1') !! s = Some o2).
    { simpl. apply list_lookup_insert_eq. by rewrite Es1. }
    assert (S12 : stepB 4 s1 (with_surfaces <[s := o2]> s1')).
    { etrans; [apply (stepB_call 4 s1 call); done|].
      eapply stepB_surface; [exact Ho1|]. split; try done; simpl; split; auto. }
    split.
    + etrans; [eapply grows_mono; [|reflexivity|exact G1]; lia|].
      apply grows_quiet; [exact S12 | done | | |].
      * intros l' o' Hl' Ho'. left. change (heap_lines s1 !! l' = Some o') in Hl'.
        by rewrite (constructed_line _ _ _ Hl').
      * intros c' o' Hc' Ho'. left. change (heap_loops s1 !! c' = Some o') in Hc'.
        by rewrite (constructed_loop _ _ _ Hc').
      * intros s' o' Hs' Ho'. simpl in Hs'.
        destruct (decide (s' = s)) as [->|Hne].
        -- right. rewrite list_lookup_insert_eq in Hs' by (by rewrite Es1).
           injection Hs' as <-. intros c Hc.
           eapply stepB_constructed; [exact S12|].
           apply Q1. destruct Le1 as [_ _ El _ _ _ _]. by rewrite El.
        -- left. rewrite list_lookup_insert_ne in Hs' by done.
           by rewrite (constructed_surface _ _ _ Hs').
    + by rewrite (constructed_surface _ _ _ Ho2).
    + rewrite (constructed_surface _ _ _ Ho). congruence.
    + intros _. destruct E1 as (D & HD & HDP). exists D, call.
      split; [|split; [done|split]].
      * simpl. by rewrite HD, app_assoc.
      * done.
      * simpl. by rewrite list_lookup_insert_eq by (by rewrite Es1).
  - intros Hdone%negb_false_iff.
    eapply wp_mutate; [exact Ho|].
    rewrite PlaneSurface_before_sync_again by done. rewrite with_surfaces_same by done.
    split; [|by rewrite (constructed_surface _ _ _ Ho)|done|].
    + split; [reflexivity|]. intros Hcl. split; [done|]. set_solver.
    + rewrite (constructed_surface _ _ _ Ho). congruence.
Qed.

(** [before_sync] on any valid root. *)
Definition rank_of (r : Ref) : nat :=
  match r with
  | RPoint _ => 0
  | RLine _ => 1
  | RCurveLoop _ => 2
  | RSurface _ => 3
  | RField _ => 0
  end.

Lemma before_sync_built kr st r :
  wf st → valid st r →
  wp (before_sync kr r) (λ _ st', built kr (rank_of r) r st st') st.
Proof.
  intros Hwf Hv. destruct r; simpl in *.
  - by apply Point_before_sync_built.
  - by apply Line_before_sync_built.
  - by apply CurveLoop_before_sync_built.
  - by apply PlaneSurface_before_sync_built.
  - done.
Qed.

Lemma wp_Ok {A} (m : M A) (Q : A → State → Prop) st :
  wp m Q st → ∃ a st', m st = Ok (a, st') ∧ Q a st'.
Proof. done. Qed.

Lemma built_wf kr k r st st' : built kr k r st st' → wf st → wf st'.
Proof. intros [G _ _ _]. eapply stepB_wf. exact (grows_step _ _ _ _ G). Qed.

Lemma built_valid kr k r r' st st' : built kr k r st st' → valid st r' → valid st' r'.
Proof.
  intros [G _ _ _]. eapply frame_valid. exact (proj1 (grows_step _ _ _ _ G)).
Qed.

(** Once an entity is constructed, [before_sync] on it changes nothing. *)
Lemma before_sync_noop kr st r :
  wf st → valid st r → constructed st r = true → before_sync kr r st = Ok (tt, st).
Proof.
  intros Hwf Hv Hc.
  destruct (before_sync_built kr st r Hwf Hv) as ([] & st' & Hrun & B).
  rewrite Hrun. by rewrite (built_again _ _ _ _ _ B Hc).
Qed.

Lemma repeat_noop (m : M unit) st n : m st = Ok (tt, st) → repeat_ n m st = Ok (tt, st).
Proof.
  intros Hm. induction n as [|n IH]; [done|].
  simpl. unfold mbind, M_bind. by rewrite Hm.
Qed.

Lemma creates_rank r c :
  creation_rank c = Some (rank_of r) → (∀ f, r ≠ RField f) → creates r c = true.
Proof.
  intros Hc Hr. unfold creates. rewrite Hc. destruct r; simpl; try done.
  by destruct (Hr f).
Qed.

Lemma creates_below r c : rank_below (rank_of r) c = true → creates r c = false.
Proof.
  unfold rank_below, creates. destruct (creation_rank c) as [j|]; [|by destruct r].
  intros H%Nat.ltb_lt. destruct r; simpl in *; try done;
    repeat (destruct j as [|j]; try done; try lia).
Qed.

(** A constructed entity of a closed heap has all its points constructed. *)
Lemma closed_line_points st l :
  closed st → constructed st (RLine l) = true → line_points st l ⊆ constructed_points st.
Proof.
  intros (Cl & _ & _). unfold constructed, line_points. simpl.
  destruct (heap_lines st !! l) as [o|] eqn:E; [|done]. simpl. intros Ho.
  destruct (Cl l o E Ho) as [Ha Hb].
  apply elem_of_constructed_points in Ha, Hb. set_solver.
Qed.

Lemma closed_loop_points st c :
  closed st → constructed st (RCurveLoop c) = true →
  loop_points st c ⊆ constructed_points st.
Proof.
  intros Hcl. pose proof Hcl as (_ & Cc & _). unfold constructed, loop_points. simpl.
  destruct (heap_loops st !! c) as [o|] eqn:E; [|done]. simpl. intros Ho.
  intros p (X & HX & Hp)%elem_of_union_list.
  apply list_elem_of_fmap in HX as (l & -> & Hl).
  eapply closed_line_points; eauto.
Qed.

Lemma closed_surface_points st s :
  closed st → constructed st (RSurface s) = true →
  surface_points st s ⊆ constructed_points st.
Proof.
  intros Hcl. pose proof Hcl as (_ & _ & Cs). unfold constructed, surface_points. simpl.
  destruct (heap_surfaces st !! s) as [o|] eqn:E; [|done]. simpl. intros Ho.
  intros p (X & HX & Hp)%elem_of_union_list.
  apply list_elem_of_fmap in HX as (c & -> & Hc).
  eapply closed_loop_points; eauto.
Qed.

Lemma closed_ref_points st r :
  closed st → constructed st r = true → ref_points st r ⊆ constructed_points st.
Proof.
  intros Hcl Hr. destruct r; simpl.
  - apply singleton_subseteq_l. by apply elem_of_constructed_points.
  - by apply closed_line_points.
  - by apply closed_loop_points.
  - by apply closed_surface_points.
  - set_solver.
Qed.

Lemma all_fresh_closed st : all_fresh st → closed st.
Proof.
  intros (_ & Hl & Hc & Hs). split; [|split].
  - intros l o Ho Hf. eapply Forall_lookup_1 in Hl; eauto. simpl in Hl. congruence.
  - intros c o Ho Hf. eapply Forall_lookup_1 in Hc; eauto. simpl in Hc. congruence.
  - intros s o Ho Hf. eapply Forall_lookup_1 in Hs; eauto. simpl in Hs. congruence.
Qed.

Lemma all_fresh_no_points st : all_fresh st → constructed_points st = ∅.
Proof.
  intros (Hp & _). apply set_eq. intros p. rewrite elem_of_constructed_points.
  unfold constructed. simpl. split; [|set_solver].
  destruct (heap_points st !! p) as [o|] eqn:E; [|done]. simpl.
  eapply Forall_lookup_1 in Hp; eauto. simpl in Hp. congruence.
Qed.

(** The construction loop of [generate] over a list of roots. *)
Lemma construction_roots_wp kr st rs :
  wf st → Forall (valid st) rs →
  wp (for_ rs (before_sync kr))
     (λ _ st', grows 4 (graph_points st rs) st st' ∧
               ∀ r, r ∈ rs → constructed st' r = true) st.
Proof.
  intros Hwf Hrs.
  apply (for_wp (grows 4 (graph_points st rs)) (λ r s, constructed s r = true)).
  - intros r s s' Hr Hs. eapply stepB_constructed; [exact (grows_step _ _ _ _ Hs)|done].
  - intros r s Hr Hs.
    pose proof (grows_step _ _ _ _ Hs) as (Fs & _ & _).
    eapply wp_mono.
    { apply before_sync_built; [by eapply frame_wf|].
      eapply frame_valid; [exact Fs|]. rewrite Forall_forall in Hrs. by apply Hrs. }
    intros [] s' [G D _ _]. simpl. split; [|done].
    eapply grows_mono; [| |exact G].
    + destruct r; simpl; lia.
    + rewrite (frame_ref_points _ _ _ _ _ Fs). unfold graph_points.
      by apply union_list_fmap_elem.
Qed.

Lemma construction_phase_wp kr st ts :
  wf st → Forall (valid st) (roots ts) →
  wp (construction_phase kr ts)
     (λ _ st', grows 4 (graph_points st (roots ts)) st st' ∧
               ∀ r, r ∈ roots ts → constructed st' r = true) st.
Proof.
  intros Hwf Hrs. destruct ts as [r|rs]; simpl.
  - inversion Hrs; subst.
    eapply wp_mono; [by apply before_sync_built|].
    intros [] s' [G D _ _]. simpl. split.
    + eapply grows_mono; [| |exact G]; [destruct r; simpl; lia|].
      unfold graph_points. simpl. set_solver.
    + by intros r' ->%list_elem_of_singleton.
  - by apply construction_roots_wp.
Qed.

(** ** The refinement phase *)

(** What every run of the refinement phase satisfies: tags, construction
    flags and [line_tags] stay, and the calls made are of kind [P]. *)
Definition stepA (P : GmshCall → bool) (st st' : State) : Prop :=
  frame refined eq st st' ∧ emits P st st'.

#[global] Instance stepA_preorder P : PreOrder (stepA P).
Proof.
  split.
  - intros st. split; reflexivity.
  - intros a b c [? ?] [? ?]. split; etrans; eauto.
Qed.

Lemma stepA_mono (P P' : GmshCall → bool) st st' :
  (∀ c, P c = true → P' c = true) → stepA P st st' → stepA P' st st'.
Proof. intros HP [? ?]. split; [done|]. by eapply emits_mono. Qed.

Lemma stepA_wf P st st' : stepA P st st' → wf st → wf st'.
Proof. intros [Hfr _]. by eapply frame_wf. Qed.

Lemma stepA_refinement_done P st st' r :
  stepA P st st' → refinement_done st r = true → refinement_done st' r = true.
Proof.
  intros [Hfr _]. eapply frame_refinement_done; [|exact Hfr]. apply refined_flags_le.
Qed.

Lemma stepA_calls P st cs :
  Forall (λ c, P c = true) cs → stepA P st (with_calls (λ _, gmsh_calls st ++ cs) st).
Proof.
  intros Hcs. split; [apply (frame_calls refined eq)|]. by exists cs.
Qed.

Lemma stepA_line P st i o o' :
  heap_lines st !! i = Some o → Line_le refined o o' → stepA P st (with_lines <[i := o']> st).
Proof.
  intros Hi Hle. split; [by eapply (frame_line refined eq) | by apply emits_silent].
Qed.

Lemma stepA_point P st i o o' :
  heap_points st !! i = Some o → Point_le refined o o' →
  stepA P st (with_points <[i := o']> st).
Proof.
  intros Hi Hle. split; [by eapply (frame_point refined eq) | by apply emits_silent].
Qed.

Lemma stepA_loop P st i o o' :
  heap_loops st !! i = Some o → CurveLoop_le refined eq o o' →
  stepA P st (with_loops <[i := o']> st).
Proof.
  intros Hi Hle. split; [by eapply (frame_loop refined eq) | by apply emits_silent].
Qed.

Lemma stepA_surface P st i o o' :
  heap_surfaces st !! i = Some o → PlaneSurface_le refined o o' →
  stepA P st (with_surfaces <[i := o']> st).
Proof.
  intros Hi Hle. split; [by eapply (frame_surface refined eq) | by apply emits_silent].
Qed.

Lemma stepA_field P st i o o' :
  heap_fields st !! i = Some o → Field_le o o' → stepA P st (with_fields <[i := o']> st).
Proof.
  intros Hi Hle. split; [by eapply (frame_field refined eq) | by apply emits_silent].
Qed.

Lemma refined_after m : refined m (MeshTransaction_after_sync m).
Proof. repeat split; auto. Qed.

Lemma with_calls_nil st : with_calls (λ _, gmsh_calls st ++ []) st = st.
Proof. destruct st. unfold with_calls. simpl. by rewrite app_nil_r. Qed.

Lemma with_calls_twice f g st : with_calls g (with_calls f st) = with_calls (λ _, g (f (gmsh_calls st))) st.
Proof. by destruct st. Qed.

(** [if c: gmsh.call(..)] adds the call or nothing. *)
Lemma wp_when_gmsh kr (b : bool) c (Q : unit → State → Prop) st :
  Q tt (with_calls (λ _, gmsh_calls st ++ (if b then [c] else [])) st) →
  wp (when b (gmsh_ kr c)) Q st.
Proof.
  destruct b; simpl; intros HQ.
  - by apply wp_gmsh_.
  - apply wp_ret. by rewrite with_calls_nil in HQ.
Qed.

(** The calls [TransfiniteLine.after_sync] makes on a line. *)
Definition line_refinement (o : Line) : list GmshCall :=
  match Line_transfinite o with
  | Some tl =>
      if after_sync_initiated (Line_base o) then []
      else [mesh_set_transfinite_curve (tag (Line_base o)) (cell_count tl + 1)
              (mesh_type tl) (coeff tl)]
  | None => []
  end.

Lemma Line_after_sync_run kr st l o :
  heap_lines st !! l = Some o →
  Line_after_sync kr l st =
    Ok (tt, with_lines <[l := Line_on_base MeshTransaction_after_sync o]>
              (with_calls (λ _, gmsh_calls st ++ line_refinement o) st)).
Proof.
  intros Ho. unfold Line_after_sync, line_refinement, get_line, deref.
  unfold mbind at 1, M_bind at 1. rewrite Ho.
  destruct (Line_transfinite o) as [tl|].
  - destruct (after_sync_initiated (Line_base o)); simpl.
    + unfold mbind, M_bind, mret, M_ret, modify_line, mutate. rewrite Ho.
      by rewrite with_calls_nil.
    + unfold mbind, M_bind, mret, M_ret, modify_line, mutate, gmsh_, gmsh,
        mbind, M_bind. simpl. by rewrite Ho.
  - unfold mbind, M_bind, mret, M_ret, modify_line, mutate. rewrite Ho.
    by rewrite with_calls_nil.
Qed.

Lemma line_refinement_kind o : Forall (λ c, is_transfinite_curve c = true) (line_refinement o).
Proof.
  unfold line_refinement. destruct (Line_transfinite o); [|constructor].
  destruct (after_sync_initiated _); repeat constructor.
Qed.

Lemma refinement_line st l o :
  heap_lines st !! l = Some o → refinement_done st (RLine l) = after_sync_initiated (Line_base o).
Proof. intros H. unfold refinement_done. simpl. by rewrite H. Qed.
Lemma refinement_point st l o :
  heap_points st !! l = Some o →
  refinement_done st (RPoint l) = after_sync_initiated (Point_base o).
Proof. intros H. unfold refinement_done. simpl. by rewrite H. Qed.
Lemma refinement_loop st l o :
  heap_loops st !! l = Some o →
  refinement_done st (RCurveLoop l) = after_sync_initiated (CurveLoop_base o).
Proof. intros H. unfold refinement_done. simpl. by rewrite H. Qed.
Lemma refinement_surface st l o :
  heap_surfaces st !! l = Some o →
  refinement_done st (RSurface l) = after_sync_initiated (PlaneSurface_base o).
Proof. intros H. unfold refinement_done. simpl. by rewrite H. Qed.

Lemma Line_after_sync_wp kr st l :
  l < length (heap_lines st) →
  wp (Line_after_sync kr l)
     (λ _ st', stepA is_transfinite_curve st st' ∧ refinement_done st' (RLine l) = true) st.
Proof.
  intros Hl. destruct (lookup_lt_is_Some_2 _ _ Hl) as [o Ho].
  eexists _, _. split; [by apply Line_after_sync_run|]. split.
  - etrans; [apply stepA_calls, line_refinement_kind|].
    eapply stepA_line; [exact Ho|]. split; try done; apply refined_after.
  - erewrite refinement_line; [|simpl; by apply list_lookup_insert_eq]. done.
Qed.

Lemma Point_after_sync_wp st p :
  p < length (heap_points st) →
  wp (Point_after_sync p)
     (λ _ st', stepA is_transfinite_curve st st' ∧ refinement_done st' (RPoint p) = true) st.
Proof.
  intros Hp. destruct (lookup_lt_is_Some_2 _ _ Hp) as [o Ho].
  unfold Point_after_sync. eapply wp_mutate; [exact Ho|]. split.
  - eapply stepA_point; [exact Ho|]. split; try done; apply refined_after.
  - erewrite refinement_point; [|simpl; by apply list_lookup_insert_eq]. done.
Qed.

(** The calls [BoundaryLayer.after_sync] makes, [t] being the tag the kernel
    gave the field and [line_tags] those of the loop. *)
Definition layer_refinement (t : Z) (line_tags : list (option Z)) (bl : BoundaryLayer)
  : list GmshCall :=
  [field_add "BoundaryLayer"; field_setNumbers t "CurvesList" line_tags]
  ++ (if truthy_float (aniso_max bl)
      then [field_setNumber t "AnisoMax" (default 0%Q (aniso_max bl))] else [])
  ++ (if intersect_metrics bl
      then [field_setNumber t "IntersectMetrics" (float_of_bool (intersect_metrics bl))]
      else [])
  ++ (if is_quad_mesh bl
      then [field_setNumber t "Quads" (float_of_bool (is_quad_mesh bl))] else [])
  ++ (if truthy_float (hfar bl)
      then [field_setNumber t "hfar" (default 0%Q (hfar bl))] else [])
  ++ (if truthy_float (hwall_n bl)
      then [field_setNumber t "hwall_n" (default 0%Q (hwall_n bl))] else [])
  ++ (if truthy_float (ratio bl)
      then [field_setNumber t "ratio" (default 0%Q (ratio bl))] else [])
  ++ (if truthy_float (thickness bl)
      then [field_setNumber t "thickness" (default 0%Q (thickness bl))] else [])
  ++ [field_setAsBoundaryLayer t].

(** The calls of [after_sync] on a field as a function of the field. *)
Definition field_refinement (kr : list GmshCall → Z) (st : State) (o : Field)
    (line_tags : list (option Z)) : list GmshCall :=
  match Field_layer o with
  | Some bl =>
      if after_sync_initiated (Field_base o) then []
      else layer_refinement (kr (gmsh_calls st ++ [field_add "BoundaryLayer"])) line_tags bl
  | None => []
  end.

Definition field_refined (kr : list GmshCall → Z) (st : State) (o : Field) : Field :=
  match Field_layer o with
  | Some bl =>
      if after_sync_initiated (Field_base o) then Field_on_base MeshTransaction_after_sync o
      else Field_on_base MeshTransaction_after_sync
             (Field_on_base
                (set_tag (Some (kr (gmsh_calls st ++ [field_add "BoundaryLayer"])))) o)
  | None => Field_on_base MeshTransaction_after_sync o
  end.

Lemma Field_after_sync_run kr st f c o lp :
  heap_fields st !! f = Some o → heap_loops st !! c = Some lp →
  Field_after_sync kr f c st =
    Ok (tt, with_fields <[f := field_refined kr st o]>
              (with_calls
                 (λ _, gmsh_calls st ++ field_refinement kr st o (CurveLoop_line_tags lp)) st)).
Proof.
  intros Ho Hlp.
  assert (Hf : f < length (heap_fields st)) by (by eapply lookup_lt_Some).
  cut (wp (Field_after_sync kr f c)
         (λ _ st', st' = with_fields <[f := field_refined kr st o]>
              (with_calls
                 (λ _, gmsh_calls st ++ field_refinement kr st o (CurveLoop_line_tags lp)) st))
         st).
  { intros ([] & st' & Hrun & ->). exact Hrun. }
  unfold Field_after_sync, field_refined, field_refinement.
  apply wp_bind. eapply wp_deref; [exact Ho|].
  destruct (Field_layer o) as [bl|].
  - apply wp_bind. apply wp_when.
    + intros Hfresh%negb_true_iff. rewrite Hfresh.
      apply wp_bind. apply wp_gmsh.
      apply wp_bind. eapply wp_mutate; [exact Ho|].
      apply wp_bind. eapply wp_deref; [exact Hlp|].
      apply wp_bind. apply wp_gmsh_.
      do 7 (apply wp_bind; apply wp_when_gmsh).
      apply wp_gmsh_.
      eapply wp_mutate.
      { simpl. by apply list_lookup_insert_eq. }
      rewrite !with_calls_twice.
      destruct st. unfold with_fields, with_calls, layer_refinement. simpl.
      rewrite list_insert_insert_eq. f_equal.
      rewrite <- !app_assoc. reflexivity.
    + intros Hdone%negb_false_iff. rewrite Hdone.
      eapply wp_mutate; [exact Ho|]. by rewrite with_calls_nil.
  - apply wp_bind. apply wp_ret.
    eapply wp_mutate; [exact Ho|]. by rewrite with_calls_nil.
Qed.

Lemma layer_refinement_kind t tags bl :
  Forall (λ c, is_field_call c = true) (layer_refinement t tags bl).
Proof.
  unfold layer_refinement.
  repeat (apply Forall_app; split); try (by repeat constructor);
    match goal with |- context [if ?b then _ else _] => destruct b end;
    by repeat constructor.
Qed.

Lemma field_refinement_kind kr st o tags :
  Forall (λ c, is_field_call c = true) (field_refinement kr st o tags).
Proof.
  unfold field_refinement. destruct (Field_layer o); [|constructor].
  destruct (after_sync_initiated _); [constructor|]. apply layer_refinement_kind.
Qed.

Lemma Field_after_sync_wp kr st f c :
  f < length (heap_fields st) → c < length (heap_loops st) →
  wp (Field_after_sync kr f c) (λ _ st', stepA is_field_call st st') st.
Proof.
  intros Hf Hc.
  destruct (lookup_lt_is_Some_2 _ _ Hf) as [o Ho].
  destruct (lookup_lt_is_Some_2 _ _ Hc) as [lp Hlp].
  eexists _, _. split; [by eapply Field_after_sync_run|].
  etrans; [apply stepA_calls, field_refinement_kind|].
  eapply stepA_field; [exact Ho|]. unfold field_refined.
  destruct (Field_layer o); [destruct (after_sync_initiated (Field_base o))|];
    split; try done; simpl; split; auto.
Qed.

(** A loop whose body computes [g] on the threaded variable returns the
    left fold of [g]. *)
Lemma for_acc_fold_wp {A B} (step : relation State) `{!PreOrder step}
    (Qx : A → State → Prop) (g : B → A → B) (xs : list A) (body : B → A → M B) st0 acc0 :
  (∀ x s s', Qx x s → step s s' → Qx x s') →
  (∀ x acc s, x ∈ xs → step st0 s →
     wp (body acc x) (λ acc' s', acc' = g acc x ∧ step s s' ∧ Qx x s') s) →
  wp (for_acc xs acc0 body)
     (λ acc' s', acc' = foldl g acc0 xs ∧ step st0 s' ∧ ∀ x, x ∈ xs → Qx x s') st0.
Proof.
  intros Hstable Hbody.
  cut (∀ s acc, step st0 s →
         wp (for_acc xs acc body)
            (λ acc' s', acc' = foldl g acc xs ∧ step s s' ∧ ∀ x, x ∈ xs → Qx x s') s).
  { intros H. eapply wp_mono; [apply H; reflexivity|]. simpl. tauto. }
  induction xs as [|x xs IH]; intros s acc Hs.
  - apply wp_ret. split; [done|]. split; [reflexivity|].
    intros x Hx. by apply elem_of_nil in Hx.
  - simpl. apply wp_bind.
    eapply wp_mono; [apply Hbody; [left | exact Hs]|].
    intros acc' s1 (-> & H1 & Q1). simpl.
    eapply wp_mono.
    { apply IH; [|by etrans]. intros y acc'' s2 Hy. apply Hbody. by right. }
    intros acc2 s2 (-> & H2 & Q2). simpl. split; [done|]. split; [by etrans|].
    intros y [->|Hy]%elem_of_cons; [by eapply Hstable | by apply Q2].
Qed.

(** The label and the tag of a line, as the first loop of
    [CurveLoop.after_sync] reads them. *)
Definition line_pair (st : State) (l : nat) : option string * option Z :=
  match heap_lines st !! l with
  | Some o => (Line_label o, tag (Line_base o))
  | None => (None, None)
  end.

(** The dictionary [line_group_tags] after the first loop. *)
Definition line_groups (pairs : list (option string * option Z)) : LineGroups :=
  foldl (λ d p, group_line d (fst p) (snd p)) [] pairs.

(** The calls of the second loop, [pre] being the calls made before it. *)
Fixpoint group_calls (kr : list GmshCall → Z) (pre : list GmshCall) (d : LineGroups)
  : list GmshCall :=
  match d with
  | [] => []
  | kv :: d' =>
      let c1 := add_physical_group (DimType_value CURVE) (snd kv) in
      let c2 := set_physical_name (DimType_value CURVE) (kr (pre ++ [c1])) (fst kv) in
      c1 :: c2 :: group_calls kr (pre ++ [c1; c2]) d'
  end.

Definition is_loop_refinement (c : GmshCall) : bool :=
  is_transfinite_curve c || is_physical_group c || is_field_call c.

Lemma group_calls_kind kr pre d :
  Forall (λ c, is_physical_group c = true) (group_calls kr pre d).
Proof.
  revert pre. induction d as [|kv d IH]; intros pre; simpl; [constructor|].
  constructor; [done|]. constructor; [done|]. apply IH.
Qed.

Lemma group_loop_wp kr (d : LineGroups) (Q : unit → State → Prop) st :
  Q tt (with_calls (λ _, gmsh_calls st ++ group_calls kr (gmsh_calls st) d) st) →
  wp (for_ d (λ kv,
        physical_group_tag ← gmsh kr (add_physical_group (DimType_value CURVE) (snd kv));
        gmsh_ kr (set_physical_name (DimType_value CURVE) physical_group_tag (fst kv))))
     Q st.
Proof.
  revert st. induction d as [|kv d IH]; intros st HQ.
  - apply wp_ret. simpl in HQ. by rewrite with_calls_nil in HQ.
  - unfold for_. simpl. apply wp_bind. apply wp_bind. apply wp_gmsh. apply wp_gmsh_.
    apply IH. rewrite !with_calls_twice. simpl.
    simpl in HQ. rewrite <- !app_assoc. simpl. exact HQ.
Qed.

Lemma CurveLoop_after_sync_again o :
  after_sync_initiated (CurveLoop_base o) = true →
  CurveLoop_on_base MeshTransaction_after_sync o = o.
Proof.
  destruct o; simpl; intros H. unfold CurveLoop_on_base; simpl. by rewrite after_sync_again.
Qed.

Lemma PlaneSurface_after_sync_again o :
  after_sync_initiated (PlaneSurface_base o) = true →
  PlaneSurface_on_base MeshTransaction_after_sync o = o.
Proof.
  destruct o; simpl; intros H. unfold PlaneSurface_on_base; simpl.
  by rewrite after_sync_again.
Qed.

(** The outcome of [CurveLoop.after_sync]. *)
Record loop_refined (kr : list GmshCall → Z) (c : nat) (st st' : State) : Prop := {
  lr_step : stepA is_loop_refinement st st';
  lr_done : refinement_done st' (RCurveLoop c) = true;
  lr_again : refinement_done st (RCurveLoop c) = true → st' = st;
  lr_first : ∀ o, heap_loops st !! c = Some o →
    after_sync_initiated (CurveLoop_base o) = false →
    ∃ D1 D3,
      gmsh_calls st' =
        gmsh_calls st ++ D1
          ++ group_calls kr (gmsh_calls st ++ D1)
               (line_groups (line_pair st <$> CurveLoop_lines o))
          ++ D3 ∧
      Forall (λ e, is_transfinite_curve e = true) D1 ∧
      Forall (λ e, is_field_call e = true) D3
}.

Lemma CurveLoop_after_sync_wp kr st c :
  wf st → c < length (heap_loops st) →
  wp (CurveLoop_after_sync kr c) (λ _ st', loop_refined kr c st st') st.
Proof.
  intros Hwf Hc. destruct (lookup_lt_is_Some_2 _ _ Hc) as [o Ho].
  destruct (wf_loop_at _ _ _ Hwf Ho) as [Hls Hfs].
  unfold CurveLoop_after_sync.
  apply wp_bind. eapply wp_deref; [exact Ho|].
  apply wp_bind. apply wp_when.
  - intros Hfresh%negb_true_iff.
    (* the lines *)
    apply wp_bind.
    eapply wp_mono.
    { apply (for_acc_fold_wp (stepA is_transfinite_curve) (λ _ _, True)
               (λ d l, group_line d (fst (line_pair st l)) (snd (line_pair st l))));
        [done|].
      intros l d s Hl [Fs Es].
      destruct (frame_lengths _ _ _ _ Fs) as (_ & El & _).
      assert (Hl' : l < length (heap_lines st)).
      { rewrite Forall_forall in Hls. by apply Hls. }
      destruct (lookup_lt_is_Some_2 _ _ Hl') as [lo Hlo].
      destruct (frame_line_at _ _ _ _ _ _ Fs Hlo) as (lo' & Hlo' & [_ _ Elab _ (Etag & _)]).
      apply wp_bind. eapply wp_deref; [exact Hlo'|].
      apply wp_bind.
      eapply wp_mono; [apply Line_after_sync_wp; by rewrite El|].
      intros [] s' [Hs' _]. simpl. apply wp_ret.
      split; [|done]. unfold line_pair. rewrite Hlo. simpl. by rewrite Elab, Etag. }
    intros d s1 (-> & [F1 (D1 & E1 & K1)] & _). simpl.
    (* the groups *)
    apply wp_bind. apply group_loop_wp.
    match goal with |- context [group_calls kr _ ?g] => set (groups := g) end.
    set (G := group_calls kr (gmsh_calls s1) groups).
    set (s2 := with_calls _ s1).
    destruct (frame_lengths _ _ _ _ F1) as (_ & _ & Ec1 & _ & Ef1).
    (* the fields *)
    eapply wp_mono.
    { apply (for_wp (stepA is_field_call) (λ _ _, True)); [done|].
      intros f s Hf [Fs Es].
      destruct (frame_lengths _ _ _ _ Fs) as (_ & _ & Ec & _ & Ef).
      eapply wp_mono.
      { apply Field_after_sync_wp.
        - rewrite Ef. simpl. rewrite Ef1. rewrite Forall_forall in Hfs. by apply Hfs.
        - rewrite Ec. simpl. by rewrite Ec1. }
      intros [] s' Hs'. done. }
    intros [] s3 [[F3 (D3 & E3 & K3)] _]. simpl.
    assert (F13 : frame refined eq st s3).
    { etrans; [exact F1|]. etrans; [|exact F3]. apply (frame_calls refined eq). }
    destruct (frame_loop_at _ _ _ _ _ _ F13 Ho) as (o3 & Ho3 & Le3).
    eapply wp_mutate; [exact Ho3|].
    set (o4 := CurveLoop_on_base _ o3).
    assert (Ho4 : heap_loops (with_loops <[c := o4]> s3) !! c = Some o4).
    { simpl. apply list_lookup_insert_eq. by eapply lookup_lt_Some. }
    assert (Hcalls : gmsh_calls (with_loops <[c := o4]> s3)
                     = gmsh_calls st ++ D1 ++ G ++ D3).
    { simpl. rewrite E3. simpl. rewrite E1. by rewrite <- !app_assoc. }
    split.
    + split.
      * etrans; [exact F13|]. eapply (frame_loop refined eq); [exact Ho3|].
        split; try done; apply refined_after.
      * exists (D1 ++ G ++ D3). split; [exact Hcalls|].
        repeat (apply Forall_app; split).
        -- eapply Forall_impl; [exact K1|]. intros e He. unfold is_loop_refinement.
           by rewrite He.
        -- eapply Forall_impl; [apply group_calls_kind|]. intros e He.
           unfold is_loop_refinement. rewrite He. by rewrite orb_true_r.
        -- eapply Forall_impl; [exact K3|]. intros e He. unfold is_loop_refinement.
           rewrite He. by rewrite orb_true_r.
    + by rewrite (refinement_loop _ _ _ Ho4).
    + rewrite (refinement_loop _ _ _ Ho). congruence.
    + intros o' Ho' _. assert (o' = o) as -> by congruence.
      exists D1, D3. split; [|done].
      rewrite Hcalls. unfold G, groups, line_groups. rewrite E1.
      by rewrite (foldl_fmap (λ d p, group_line d (fst p) (snd p))).
  - intros Hdone%negb_false_iff.
    eapply wp_mutate; [exact Ho|].
    rewrite CurveLoop_after_sync_again by done. rewrite with_loops_same by done.
    split; [reflexivity|by rewrite (refinement_loop _ _ _ Ho)|done|].
    intros o' Ho'. assert (o' = o) as -> by congruence. congruence.
Qed.

(** The calls [PlaneSurface.after_sync] makes for the surface itself, after
    those of its loops: the physical group, [pre] being the calls made
    before it, and the recombination. *)
Definition surface_group (kr : list GmshCall → Z) (pre : list GmshCall) (o : PlaneSurface)
  : list GmshCall :=
  match PlaneSurface_label o with
  | Some label =>
      let c1 := add_physical_group (DimType_value SURFACE) [tag (PlaneSurface_base o)] in
      [c1; set_physical_name (DimType_value SURFACE) (kr (pre ++ [c1])) label]
  | None => []
  end.

Definition surface_recombine (o : PlaneSurface) : list GmshCall :=
  if PlaneSurface_is_quad_mesh o then [mesh_set_recombine 2 (tag (PlaneSurface_base o))]
  else [].

Definition base_refinement (kr : list GmshCall → Z) (pre : list GmshCall) (o : PlaneSurface)
    (loops : list GmshCall) : list GmshCall :=
  loops ++ surface_group kr (pre ++ loops) o ++ surface_recombine o.

(** The tags [TransfinitePlaneSurface.after_sync] collects. *)
Definition corner_tags (st : State) (corners : list nat) : list (option Z) :=
  (λ p, default None (tag <$> (Point_base <$> heap_points st !! p))) <$> corners.

Lemma is_loop_refinement_refinement c : is_loop_refinement c = true → is_refinement c = true.
Proof. by destruct c. Qed.

Lemma is_transfinite_curve_refinement c :
  is_transfinite_curve c = true → is_refinement c = true.
Proof. by destruct c. Qed.

Lemma surface_group_kind kr pre o :
  Forall (λ c, is_refinement c = true) (surface_group kr pre o).
Proof. unfold surface_group. destruct (PlaneSurface_label o); by repeat constructor. Qed.

Lemma surface_recombine_kind o : Forall (λ c, is_refinement c = true) (surface_recombine o).
Proof.
  unfold surface_recombine. destruct (PlaneSurface_is_quad_mesh o); by repeat constructor.
Qed.

(** The outcome of [PlaneSurface.after_sync]. *)
Record surface_refined (kr : list GmshCall → Z) (s : nat) (st st' : State) : Prop := {
  sr_step : stepA is_refinement st st';
  sr_done : refinement_done st' (RSurface s) = true;
  sr_again : refinement_done st (RSurface s) = true → st' = st;
  sr_first : ∀ o, heap_surfaces st !! s = Some o →
    after_sync_initiated (PlaneSurface_base o) = false →
    ∃ DL, gmsh_calls st' = gmsh_calls st ++ base_refinement kr (gmsh_calls st) o DL ∧
          Forall (λ e, is_loop_refinement e = true) DL
}.

Lemma PlaneSurface_after_sync_wp kr st s :
  wf st → s < length (heap_surfaces st) →
  wp (PlaneSurface_after_sync kr s) (λ _ st', surface_refined kr s st st') st.
Proof.
  intros Hwf Hs. destruct (lookup_lt_is_Some_2 _ _ Hs) as [o Ho].
  destruct (wf_surface_at _ _ _ Hwf Ho) as [Hcs _].
  unfold PlaneSurface_after_sync.
  apply wp_bind. eapply wp_deref; [exact Ho|].
  apply wp_bind. apply wp_when.
  - intros Hfresh%negb_true_iff.
    apply wp_bind.
    eapply wp_mono.
    { apply (for_wp (stepA is_loop_refinement) (λ _ _, True)); [done|].
      intros c s1 Hc [F1 E1].
      destruct (frame_lengths _ _ _ _ F1) as (_ & _ & Ec & _).
      eapply wp_mono.
      { apply CurveLoop_after_sync_wp; [by eapply frame_wf|].
        rewrite Ec. rewrite Forall_forall in Hcs. by apply Hcs. }
      intros [] s2 [H12 _ _ _]. done. }
    intros [] s1 [[F1 (DL & E1 & K1)] _]. simpl.
    destruct (frame_surface_at _ _ _ _ _ _ F1 Ho) as (o1 & Ho1 & Le1).
    apply wp_bind.
    cut (wp (modify_surface s (PlaneSurface_on_base MeshTransaction_after_sync))
           (λ _ st', surface_refined kr s st st')
           (with_calls
              (λ _, gmsh_calls s1 ++ surface_group kr (gmsh_calls s1) o ++ surface_recombine o)
              s1)).
    { unfold surface_group, surface_recombine.
      destruct (PlaneSurface_label o) as [label|]; intros Hcut.
      - apply wp_bind. apply wp_gmsh. apply wp_gmsh_. apply wp_when_gmsh.
        rewrite !with_calls_twice. simpl. rewrite <- !app_assoc. exact Hcut.
      - apply wp_ret. apply wp_when_gmsh. exact Hcut. }
    eapply wp_mutate; [exact Ho1|].
    set (G := surface_group kr (gmsh_calls s1) o ++ surface_recombine o).
    set (o2 := PlaneSurface_on_base _ o1).
    set (s2 := with_surfaces _ _).
    assert (Ho2 : heap_surfaces s2 !! s = Some o2).
    { simpl. apply list_lookup_insert_eq. by eapply lookup_lt_Some. }
    assert (Hcalls : gmsh_calls s2 = gmsh_calls st ++ base_refinement kr (gmsh_calls st) o DL).
    { simpl. unfold base_refinement, G. rewrite E1. by rewrite <- !app_assoc. }
    split.
    + split.
      * etrans; [exact F1|]. etrans; [apply (frame_calls refined eq)|].
        eapply (frame_surface refined eq); [exact Ho1|].
        split; try done; apply refined_after.
      * eexists. split; [exact Hcalls|]. unfold base_refinement.
        repeat (apply Forall_app; split).
        -- eapply Forall_impl; [exact K1|]. apply is_loop_refinement_refinement.
        -- apply surface_group_kind.
        -- apply surface_recombine_kind.
    + by rewrite (refinement_surface _ _ _ Ho2).
    + rewrite (refinement_surface _ _ _ Ho). congruence.
    + intros o' Ho' _. assert (o' = o) as -> by congruence. by exists DL.
  - intros Hdone%negb_false_iff.
    eapply wp_mutate; [exact Ho|].
    rewrite PlaneSurface_after_sync_again by done. rewrite with_surfaces_same by done.
    split; [reflexivity|by rewrite (refinement_surface _ _ _ Ho)|done|].
    intros o' Ho'. assert (o' = o) as -> by congruence. congruence.
Qed.

Lemma corner_tags_snoc st corners :
  foldl (λ tags p, tags ++ [default None (tag <$> (Point_base <$> heap_points st !! p))])
        [] corners
  = corner_tags st corners.
Proof.
  unfold corner_tags.
  cut (∀ acc, foldl (λ tags p,
                tags ++ [default None (tag <$> (Point_base <$> heap_points st !! p))])
              acc corners
            = acc ++ ((λ p, default None (tag <$> (Point_base <$> heap_points st !! p)))
                        <$> corners)).
  { intros H. by rewrite H. }
  induction corners as [|p ps IH]; intros acc; simpl; [by rewrite app_nil_r|].
  rewrite IH. by rewrite <- app_assoc.
Qed.

(** The outcome of [TransfinitePlaneSurface.after_sync]. *)
Record transfinite_refined (kr : list GmshCall → Z) (s : nat) (corners : list nat)
    (st st' : State) : Prop := {
  tr_step : stepA is_refinement st st';
  tr_done : refinement_done st' (RSurface s) = true;
  tr_again : refinement_done st (RSurface s) = true → st' = st;
  tr_first : ∀ o, heap_surfaces st !! s = Some o →
    after_sync_initiated (PlaneSurface_base o) = false →
    ∃ DL,
      let own := mesh_set_transfinite_surface (tag (PlaneSurface_base o))
                   (corner_tags st corners) in
      gmsh_calls st' =
        gmsh_calls st ++ [own] ++ base_refinement kr (gmsh_calls st ++ [own]) o DL ∧
      Forall (λ e, is_loop_refinement e = true) DL
}.

Lemma TransfinitePlaneSurface_after_sync_wp kr st s corners :
  wf st → s < length (heap_surfaces st) →
  Forall (λ p, p < length (heap_points st)) corners →
  wp (TransfinitePlaneSurface_after_sync kr s corners)
     (λ _ st', transfinite_refined kr s corners st st') st.
Proof.
  intros Hwf Hs Hcorners. destruct (lookup_lt_is_Some_2 _ _ Hs) as [o Ho].
  unfold TransfinitePlaneSurface_after_sync.
  apply wp_bind. eapply wp_deref; [exact Ho|].
  apply wp_bind. apply wp_when.
  - intros Hfresh%negb_true_iff.
    apply wp_bind.
    eapply wp_mono.
    { apply (for_acc_fold_wp eq (λ _ _, True)
               (λ tags p,
                  tags ++ [default None (tag <$> (Point_base <$> heap_points st !! p))]));
        [done|].
      intros p tags s1 Hp <-.
      rewrite Forall_forall in Hcorners.
      destruct (lookup_lt_is_Some_2 _ _ (Hcorners p Hp)) as [po Hpo].
      apply wp_bind. eapply wp_deref; [exact Hpo|]. apply wp_ret.
      rewrite Hpo. done. }
    intros tags s1 (-> & <- & _). simpl. rewrite corner_tags_snoc.
    apply wp_gmsh_.
    set (own := mesh_set_transfinite_surface _ _).
    set (s1 := with_calls _ st).
    eapply wp_mono.
    { apply (PlaneSurface_after_sync_wp kr s1); [|exact Hs].
      eapply frame_wf; [|exact Hwf]. apply (frame_calls refined eq). }
    intros [] s2 [St Dn Ag Fi]. simpl.
    split.
    + etrans; [|exact St]. apply stepA_calls. by repeat constructor.
    + exact Dn.
    + rewrite (refinement_surface _ _ _ Ho). congruence.
    + intros o' Ho' _. assert (o' = o) as -> by congruence.
      destruct (Fi o Ho Hfresh) as (DL & HDL & KDL). exists DL. split; [|done].
      simpl. rewrite HDL. simpl. by rewrite <- app_assoc.
  - intros Hdone%negb_false_iff.
    eapply wp_mono; [by apply PlaneSurface_after_sync_wp|].
    intros [] s2 [St Dn Ag Fi]. simpl.
    split; [done|done|done|].
    intros o' Ho'. assert (o' = o) as -> by congruence. congruence.
Qed.

(** [after_sync] on any valid root. *)
Lemma after_sync_wp kr st r :
  wf st → valid st r →
  wp (after_sync kr r)
     (λ _ st', stepA is_refinement st st' ∧ refinement_done st' r = true) st.
Proof.
  intros Hwf Hv. destruct r as [p|l|c|s|f]; simpl in *.
  - eapply wp_mono; [by apply Point_after_sync_wp|].
    intros [] st' [H1 H2]. split; [|done].
    eapply stepA_mono; [|exact H1]. apply is_transfinite_curve_refinement.
  - eapply wp_mono; [by apply Line_after_sync_wp|].
    intros [] st' [H1 H2]. split; [|done].
    eapply stepA_mono; [|exact H1]. apply is_transfinite_curve_refinement.
  - eapply wp_mono; [by apply CurveLoop_after_sync_wp|].
    intros [] st' [H1 H2 _ _]. split; [|done].
    eapply stepA_mono; [|exact H1]. apply is_loop_refinement_refinement.
  - destruct (lookup_lt_is_Some_2 _ _ Hv) as [o Ho].
    apply wp_bind. eapply wp_deref; [exact Ho|].
    destruct (PlaneSurface_corners o) as [corners|] eqn:Ecorners.
    + eapply wp_mono.
      { apply TransfinitePlaneSurface_after_sync_wp; [done|done|].
        destruct (wf_surface_at _ _ _ Hwf Ho) as [_ Hcorners].
        by rewrite Ecorners in Hcorners. }
      intros [] st' [H1 H2 _ _]. done.
    + eapply wp_mono; [by apply PlaneSurface_after_sync_wp|].
      intros [] st' [H1 H2 _ _]. done.
  - done.
Qed.

(** ** The helper [get_points_and_lines] *)

(** A list argument has an entry for each of the [n] lines (or is empty and
    ignored). *)
Definition covers {A} (n : nat) (a : option (OneOrList A)) : Prop :=
  match a with
  | Some (PyList l) => l = [] ∨ n ≤ length l
  | _ => True
  end.

(** The value the first iteration leaves in the variable [mesh_size]. *)
Definition first_mesh_size (mesh_size : OneOrList float) : option float :=
  match mesh_size with
  | Scalar q => Some q
  | PyList l => head l
  end.

Lemma wp_pick_covered {A} (nz : A → bool) n (a : OneOrList A) k
    (Q : A → State → Prop) st :
  truthy_arg nz (Some a) = true → covers n (Some a) → k < n →
  (∀ v, Q v st) → wp (pick a k) Q st.
Proof.
  intros Ht Hc Hk HQ. destruct a as [v|l]; simpl in *.
  - by apply wp_ret.
  - destruct Hc as [->|Hn]; [done|].
    destruct (lookup_lt_is_Some_2 l k) as [v Hv]; [lia|].
    eapply wp_index; eauto.
Qed.

Lemma Point_new_wp coord mesh_size (Q : nat → State → Prop) st :
  2 ≤ length coord →
  (∀ o, Point_mesh_size o = mesh_size →
        Q (length (heap_points st)) (with_points (λ ps, ps ++ [o]) st)) →
  wp (Point_new coord mesh_size) Q st.
Proof.
  intros Hlen HQ. unfold Point_new.
  destruct (lookup_lt_is_Some_2 coord 0) as [x Hx]; [lia|].
  destruct (lookup_lt_is_Some_2 coord 1) as [y Hy]; [lia|].
  apply wp_bind. eapply wp_index; [exact Hx|].
  apply wp_bind. eapply wp_index; [exact Hy|].
  apply wp_bind.
  destruct (length coord =? 3) eqn:E.
  - apply Nat.eqb_eq in E.
    destruct (lookup_lt_is_Some_2 coord 2) as [z Hz]; [lia|].
    eapply wp_index; [exact Hz|].
    eexists _, _. split; [reflexivity|]. by apply HQ.
  - apply wp_ret. eexists _, _. split; [reflexivity|]. by apply HQ.
Qed.

Lemma get_points_and_lines_line_wp labels cell_counts mesh_types mesh_coeffs
    points point line_index i n start (Q : nat → State → Prop) st :
  covers n labels → covers n cell_counts → covers n mesh_types → covers n mesh_coeffs →
  line_index < n → points !! (i - 1) = Some start →
  (∀ o, Line_start o = start → Line_end o = point →
        Q (length (heap_lines st)) (with_lines (λ ls, ls ++ [o]) st)) →
  wp (get_points_and_lines_line labels cell_counts mesh_types mesh_coeffs
        points point line_index i) Q st.
Proof.
  intros Cl Cc Ct Cf Hk Hstart HQ. unfold get_points_and_lines_line.
  apply wp_bind.
  assert (Hlabel : ∀ Q' : option string → State → Prop, (∀ v, Q' v st) →
            wp (if truthy_arg nonempty labels then
                  match labels with
                  | Some a => v ← pick a line_index; mret (Some v)
                  | None => mret None
                  end
                else mret None) Q' st).
  { intros Q' HQ'. destruct (truthy_arg nonempty labels) eqn:E; [|by apply wp_ret].
    destruct labels as [a|]; [|done].
    apply wp_bind. eapply wp_pick_covered; eauto. intros v. by apply wp_ret. }
  apply Hlabel. intros label.
  apply wp_bind. eapply wp_index; [exact Hstart|].
  destruct (truthy_arg nonzeroZ cell_counts) eqn:Ecc.
  - destruct cell_counts as [a|]; [|done].
    apply wp_bind. eapply wp_pick_covered; eauto. intros cell_count.
    apply wp_bind.
    assert (Htype : ∀ Q' : string → State → Prop, (∀ v, Q' v st) →
              wp (if truthy_arg nonempty mesh_types then
                    match mesh_types with
                    | Some a => pick a line_index
                    | None => raise TypeError
                    end
                  else mret "Progression") Q' st).
    { intros Q' HQ'. destruct (truthy_arg nonempty mesh_types) eqn:E; [|by apply wp_ret].
      destruct mesh_types as [b|]; [|done]. eapply wp_pick_covered; eauto. }
    apply Htype. intros mesh_type.
    apply wp_bind.
    assert (Hcoeff : ∀ Q' : float → State → Prop, (∀ v, Q' v st) →
              wp (if truthy_arg nonzeroQ mesh_coeffs then
                    match mesh_coeffs with
                    | Some a => pick a line_index
                    | None => raise TypeError
                    end
                  else mret 1%Q) Q' st).
    { intros Q' HQ'. destruct (truthy_arg nonzeroQ mesh_coeffs) eqn:E; [|by apply wp_ret].
      destruct mesh_coeffs as [b|]; [|done]. eapply wp_pick_covered; eauto. }
    apply Hcoeff. intros mesh_coeff.
    eexists _, _. split; [reflexivity|]. by apply HQ.
  - eexists _, _. split; [reflexivity|]. by apply HQ.
Qed.

(** The state of the loop when [i] points and [k] lines have been made,
    [st] being the state at the call and [n] the number of rows. *)
Record helper_inv (st : State) (n : nat) (m0 : float) (i k : nat)
    (loc : Locals) (s : State) : Prop := {
  hi_mesh_size : loc_mesh_size loc = Scalar m0;
  hi_points : loc_points loc = seq (length (heap_points st)) i;
  hi_lines : loc_lines loc = seq (length (heap_lines st)) k;
  hi_line_index : loc_line_index loc = k;
  hi_heap_points : length (heap_points s) = length (heap_points st) + i;
  hi_heap_lines : length (heap_lines s) = length (heap_lines st) + k;
  hi_point : ∀ j, j < i →
    ∃ o, heap_points s !! (length (heap_points st) + j) = Some o ∧ Point_mesh_size o = m0;
  hi_line : ∀ j, j < k →
    ∃ o, heap_lines s !! (length (heap_lines st) + j) = Some o ∧
         Line_start o = length (heap_points st) + j ∧
         Line_end o = length (heap_points st) + (j + 1) mod n
}.

Section Helper.

Context (coords : list (list float)).
Context (labels : option (OneOrList string)) (cell_counts : option (OneOrList Z)).
Context (mesh_types : option (OneOrList string)) (mesh_coeffs : option (OneOrList float)).
Context (st : State) (m0 : float).

Let n := length coords.
Let body := get_points_and_lines_body coords labels cell_counts mesh_types mesh_coeffs.

Hypothesis rows_ok : Forall (λ row, 2 ≤ length row) coords.
Hypothesis labels_ok : covers n labels.
Hypothesis cell_counts_ok : covers n cell_counts.
Hypothesis mesh_types_ok : covers n mesh_types.
Hypothesis mesh_coeffs_ok : covers n mesh_coeffs.

(** The first iteration makes a point and no line. *)
Lemma helper_first mesh_size :
  1 ≤ n → first_mesh_size mesh_size = Some m0 →
  wp (body {| loc_mesh_size := mesh_size; loc_points := []; loc_lines := [];
              loc_line_index := 0 |} 0)
     (λ loc s, helper_inv st n m0 1 0 loc s) st.
Proof.
  intros Hn Hm. unfold body, get_points_and_lines_body. simpl.
  apply wp_bind.
  assert (Hpick : wp (pick mesh_size 0) (λ v s, v = m0 ∧ s = st) st).
  { destruct mesh_size as [q|l]; simpl in *.
    - apply wp_ret. split; congruence.
    - destruct l as [|q l]; [done|]. simpl in Hm.
      eapply wp_index; [reflexivity|]. split; congruence. }
  eapply wp_mono; [exact Hpick|]. intros ? ? [-> ->]. simpl.
  apply wp_bind. unfold get_points_and_lines_point.
  destruct (0 =? length coords) eqn:E; [apply Nat.eqb_eq in E; unfold n in Hn; lia|].
  destruct (lookup_lt_is_Some_2 coords 0) as [row Hrow]; [unfold n in Hn; lia|].
  apply wp_bind. eapply wp_index; [exact Hrow|].
  apply wp_bind. apply Point_new_wp.
  { rewrite Forall_forall in rows_ok. apply rows_ok. by eapply list_elem_of_lookup_2. }
  intros o Ho. apply wp_ret. simpl. apply wp_ret.
  split; simpl; try done.
  - rewrite length_app. simpl. lia.
  - intros j Hj. assert (j = 0) as -> by lia. exists o. split; [|done].
    rewrite Nat.add_0_r. by rewrite lookup_app_r, Nat.sub_diag.
  - intros j Hj. lia.
Qed.

(** A middle iteration makes a point and the line that ends at it. *)
Lemma helper_middle i loc s :
  1 ≤ i → i < n → helper_inv st n m0 i (i - 1) loc s →
  wp (body loc i) (λ loc' s', helper_inv st n m0 (i + 1) i loc' s') s.
Proof.
  intros Hi Hin [Hms Hpts Hlns Hidx Hhp Hhl Hpt Hln].
  unfold body, get_points_and_lines_body. rewrite Hms. simpl.
  apply wp_bind. apply wp_ret.
  apply wp_bind. unfold get_points_and_lines_point.
  destruct (i =? length coords) eqn:E; [apply Nat.eqb_eq in E; unfold n in Hin; lia|].
  destruct (lookup_lt_is_Some_2 coords i) as [row Hrow]; [exact Hin|].
  apply wp_bind. eapply wp_index; [exact Hrow|].
  apply wp_bind. apply Point_new_wp.
  { rewrite Forall_forall in rows_ok. apply rows_ok. by eapply list_elem_of_lookup_2. }
  intros o Ho. apply wp_ret. simpl.
  destruct (0 <? i) eqn:E0; [|apply Nat.ltb_ge in E0; lia].
  apply wp_bind.
  eapply (get_points_and_lines_line_wp _ _ _ _ _ _ _ _ n
            (length (heap_points st) + (i - 1))); eauto.
  { rewrite Hidx. lia. }
  { rewrite Hpts. rewrite lookup_app_l by (rewrite length_seq; lia).
    apply lookup_seq_lt. lia. }
  intros lo Hs He. apply wp_ret. simpl.
  split; simpl.
  - done.
  - rewrite Hpts, Hhp. by rewrite seq_app.
  - rewrite Hlns, Hhl.
    replace (seq (length (heap_lines st)) i)
      with (seq (length (heap_lines st)) (i - 1 + 1)) by (f_equal; lia).
    by rewrite seq_app.
  - rewrite Hidx. lia.
  - rewrite length_app. simpl. lia.
  - rewrite length_app. simpl. lia.
  - intros j Hj. destruct (decide (j = i)) as [->|Hne].
    + exists o. split; [|done].
      rewrite lookup_app_r by lia. by rewrite Hhp, Nat.sub_diag.
    + destruct (Hpt j) as (o' & Ho' & Hm'); [lia|]. exists o'. split; [|done].
      by apply lookup_app_l_Some.
  - intros j Hj. destruct (decide (j = i - 1)) as [->|Hne].
    + exists lo. split.
      * rewrite lookup_app_r by lia. by rewrite Hhl, Nat.sub_diag.
      * split; [done|]. rewrite He, Hhp.
        replace (i - 1 + 1) with i by lia. by rewrite Nat.mod_small.
    + destruct (Hln j) as (o' & Ho' & Hm'); [lia|]. exists o'. split; [|done].
      by apply lookup_app_l_Some.
Qed.

(** The last iteration closes the cycle with a line back to [points[0]]. *)
Lemma helper_last loc s :
  1 ≤ n → helper_inv st n m0 n (n - 1) loc s →
  wp (body loc n) (λ loc' s', helper_inv st n m0 n n loc' s') s.
Proof.
  intros Hn [Hms Hpts Hlns Hidx Hhp Hhl Hpt Hln].
  unfold body, get_points_and_lines_body. rewrite Hms. simpl.
  apply wp_bind. apply wp_ret.
  apply wp_bind. unfold get_points_and_lines_point.
  fold n. rewrite Nat.eqb_refl.
  apply wp_bind. eapply wp_index.
  { rewrite Hpts. apply lookup_seq_lt. lia. }
  apply wp_ret. simpl.
  destruct (0 <? n) eqn:E0; [|apply Nat.ltb_ge in E0; lia].
  apply wp_bind.
  eapply (get_points_and_lines_line_wp _ _ _ _ _ _ _ _ n
            (length (heap_points st) + (n - 1))); eauto.
  { rewrite Hidx. lia. }
  { rewrite Hpts. apply lookup_seq_lt. lia. }
  intros lo Hs He. apply wp_ret. simpl.
  split; simpl.
  - done.
  - done.
  - rewrite Hlns, Hhl.
    replace (seq (length (heap_lines st)) n)
      with (seq (length (heap_lines st)) (n - 1 + 1)) by (f_equal; lia).
    by rewrite seq_app.
  - rewrite Hidx. lia.
  - done.
  - rewrite length_app. simpl. lia.
  - exact Hpt.
  - intros j Hj. destruct (decide (j = n - 1)) as [->|Hne].
    + exists lo. split.
      * rewrite lookup_app_r by lia. by rewrite Hhl, Nat.sub_diag.
      * split; [done|]. rewrite He.
        replace (n - 1 + 1) with n by lia. by rewrite Nat.Div0.mod_same.
    + destruct (Hln j) as (o' & Ho' & Hm'); [lia|]. exists o'. split; [|done].
      by apply lookup_app_l_Some.
Qed.

Lemma helper_middle_loop k : ∀ i loc s,
  1 ≤ i → i + k ≤ n → helper_inv st n m0 i (i - 1) loc s →
  wp (for_acc (seq i k) loc body)
     (λ loc' s', helper_inv st n m0 (i + k) (i + k - 1) loc' s') s.
Proof.
  induction k as [|k IH]; intros i loc s Hi Hik Hinv.
  - apply wp_ret. by rewrite Nat.add_0_r.
  - simpl. apply wp_bind.
    eapply wp_mono; [apply helper_middle; [done|lia|done]|].
    intros loc1 s1 Hinv1. simpl.
    replace (S i) with (i + 1) by lia.
    eapply wp_mono.
    { apply (IH (i + 1)); [lia|lia|].
      by replace (i + 1 - 1) with i by lia. }
    intros loc2 s2 Hinv2. simpl.
    by replace (i + S k) with (i + 1 + k) by lia.
Qed.

Lemma for_acc_app {A B} (xs ys : list A) (acc : B) (f : B → A → M B)
    (Q : B → State → Prop) s :
  wp (for_acc xs acc f) (λ acc' s', wp (for_acc ys acc' f) Q s') s →
  wp (for_acc (xs ++ ys) acc f) Q s.
Proof.
  revert acc s. induction xs as [|x xs IH]; intros acc s H; simpl in *.
  - destruct H as (a & s' & Hr & HQ). by injection Hr as <- <-.
  - destruct H as (a & s' & Hr & HQ).
    unfold mbind, M_bind in Hr.
    destruct (f acc x s) as [[acc1 s1]|e] eqn:E; [|done].
    apply wp_bind. exists acc1, s1. split; [done|].
    apply IH. by exists a, s'.
Qed.

Lemma helper_run mesh_size :
  1 ≤ n → first_mesh_size mesh_size = Some m0 →
  wp (get_points_and_lines coords mesh_size labels cell_counts mesh_types mesh_coeffs)
     (λ '(points, lines) s,
        ∃ loc, points = loc_points loc ∧ lines = loc_lines loc ∧
               helper_inv st n m0 n n loc s) st.
Proof.
  intros Hn Hm. unfold get_points_and_lines. apply wp_bind.
  fold n.
  replace (seq 0 (n + 1)) with (0 :: (seq 1 (n - 1) ++ [n])); last first.
  { replace (n + 1) with (S (n - 1 + 1)) by lia. simpl. f_equal.
    rewrite seq_app. simpl. do 2 f_equal. lia. }
  simpl.
  apply wp_bind.
  eapply wp_mono; [by apply helper_first|].
  intros loc1 s1 Hinv1. simpl.
  fold body. apply for_acc_app.
  eapply wp_mono; [apply (helper_middle_loop (n - 1) 1); [lia|lia|exact Hinv1]|].
  intros loc2 s2 Hinv2. simpl.
  replace (1 + (n - 1)) with n in * by lia.
  apply wp_bind.
  eapply wp_mono; [by apply helper_last|].
  intros loc3 s3 Hinv3. simpl. apply wp_ret. apply wp_ret.
  by exists loc3.
Qed.

End Helper.

(** ** The session: [Geometry.generate] *)

Lemma is_construction_not_refinement c : is_construction c = true → is_refinement c = false.
Proof. by destruct c. Qed.

Lemma refinement_roots_wp kr st rs :
  wf st → Forall (valid st) rs →
  wp (for_ rs (after_sync kr))
     (λ _ st', stepA is_refinement st st' ∧ ∀ r, r ∈ rs → refinement_done st' r = true) st.
Proof.
  intros Hwf Hrs.
  apply (for_wp (stepA is_refinement) (λ r s, refinement_done s r = true)).
  - intros r s s' Hr Hs. by eapply stepA_refinement_done.
  - intros r s Hr [Fs Es].
    apply after_sync_wp; [by eapply frame_wf|].
    eapply frame_valid; [exact Fs|]. rewrite Forall_forall in Hrs. by apply Hrs.
Qed.

(** Both branches of the [isinstance] tests of [generate] traverse the roots
    in order. *)
Lemma for_singleton {A} (f : A → M unit) (x : A) st : for_ [x] f st = f x st.
Proof.
  unfold for_. simpl. unfold mbind, M_bind, mret, M_ret.
  by destruct (f x st) as [[[] s]|e].
Qed.

Lemma construction_phase_roots kr ts st :
  construction_phase kr ts st = for_ (roots ts) (before_sync kr) st.
Proof. destruct ts; simpl; [by rewrite for_singleton | done]. Qed.

Lemma refinement_phase_roots kr ts st :
  refinement_phase kr ts st = for_ (roots ts) (after_sync kr) st.
Proof. destruct ts; simpl; [by rewrite for_singleton | done]. Qed.

Lemma Geometry_generate_phases kr ts :
  Geometry_generate kr ts =
    (construction_phase kr ts;; gmsh_ kr geo_synchronize;; refinement_phase kr ts;;
     gmsh_ kr mesh_generate;; gmsh_ kr (option_set_number "Mesh.SaveAll" 1%Q)).
Proof. reflexivity. Qed.

(** C1. For a single root or a list of roots, [Geometry.generate] runs
    [before_sync] over every root in the given order, making entity-creation
    calls only, then makes one [synchronize] call, then runs [after_sync]
    over every root in the same order, making refinement calls only, and
    then requests mesh generation; every root is constructed before the
    [synchronize] call and no refinement call precedes it. *)
Theorem generate_two_phases kr st ts :
  wf st → Forall (valid st) (roots ts) →
  ∃ st1 st2 st3 D1 D2,
    for_ (roots ts) (before_sync kr) st = Ok (tt, st1) ∧
    gmsh_calls st1 = gmsh_calls st ++ D1 ∧
    Forall (λ c, is_construction c = true ∧ is_refinement c = false) D1 ∧
    (∀ r, r ∈ roots ts → constructed st1 r = true) ∧
    for_ (roots ts) (after_sync kr)
      (with_calls (λ _, gmsh_calls st1 ++ [geo_synchronize]) st1) = Ok (tt, st2) ∧
    gmsh_calls st2 = gmsh_calls st1 ++ [geo_synchronize] ++ D2 ∧
    Forall (λ c, is_refinement c = true) D2 ∧
    (∀ r, r ∈ roots ts → refinement_done st2 r = true) ∧
    Geometry_generate kr ts st = Ok (tt, st3) ∧
    gmsh_calls st3 =
      gmsh_calls st ++ D1 ++ [geo_synchronize] ++ D2
        ++ [mesh_generate; option_set_number "Mesh.SaveAll" 1%Q] ∧
    count_calls is_synchronize
      (D1 ++ [geo_synchronize] ++ D2
         ++ [mesh_generate; option_set_number "Mesh.SaveAll" 1%Q]) = 1.
Proof.
  intros Hwf Hrs.
  destruct (construction_roots_wp kr st (roots ts) Hwf Hrs)
    as ([] & st1 & Hrun1 & G1 & Hdone1).
  destruct (grows_step _ _ _ _ G1) as (F1 & (D1 & E1 & K1) & _).
  set (s1 := with_calls (λ _, gmsh_calls st1 ++ [geo_synchronize]) st1).
  assert (Hwf1 : wf s1).
  { eapply (frame_wf flags_le any_tags); [|exact Hwf]. etrans; [exact F1|].
    apply (frame_calls flags_le any_tags). }
  assert (Hrs1 : Forall (valid s1) (roots ts)).
  { eapply Forall_impl; [exact Hrs|]. intros r Hr.
    eapply (frame_valid flags_le any_tags); [|exact Hr]. etrans; [exact F1|].
    apply (frame_calls flags_le any_tags). }
  destruct (refinement_roots_wp kr s1 (roots ts) Hwf1 Hrs1)
    as ([] & st2 & Hrun2 & [F2 (D2 & E2 & K2)] & Hdone2).
  exists st1, st2,
    (with_calls (λ _, (gmsh_calls st2 ++ [mesh_generate])
                        ++ [option_set_number "Mesh.SaveAll" 1%Q]) st2), D1, D2.
  split; [done|]. split; [done|]. split.
  { eapply Forall_impl; [exact K1|]. intros c Hc. simpl in Hc.
    pose proof (rank_below_construction _ _ Hc) as Hc'.
    split; [done | by apply is_construction_not_refinement]. }
  split; [done|]. split; [done|]. split.
  { rewrite E2. simpl. by rewrite <- app_assoc. }
  split; [done|]. split; [done|]. split.
  { rewrite Geometry_generate_phases.
    unfold mbind, M_bind. rewrite construction_phase_roots, Hrun1.
    unfold gmsh_, gmsh, mbind, M_bind, mret, M_ret.
    fold s1. rewrite refinement_phase_roots, Hrun2.
    by rewrite with_calls_twice. }
  split.
  { simpl. rewrite E2. simpl. rewrite E1. by rewrite <- !app_assoc. }
  rewrite !count_calls_app.
  rewrite (count_calls_none _ D1), (count_calls_none _ D2).
  - reflexivity.
  - eapply Forall_impl; [exact K2|]. intros c Hc. simpl in Hc. by destruct c.
  - eapply Forall_impl; [exact K1|]. intros c Hc. simpl in Hc. by destruct c.
Qed.

(** C2. Calling [before_sync] on a fresh entity of any class once or N > 1
    times ends in the same state: the calls made hold exactly one creation
    call of the entity's class, the entity's tag is what the kernel returned
    for it, and every further call changes nothing. *)
Theorem construct_idempotent kr st r N :
  wf st → valid st r → constructed st r = false → 1 < N →
  ∃ st1 D,
    before_sync kr r st = Ok (tt, st1) ∧
    repeat_ N (before_sync kr r) st = Ok (tt, st1) ∧
    before_sync kr r st1 = Ok (tt, st1) ∧
    gmsh_calls st1 = gmsh_calls st ++ D ∧
    count_calls (creates r) D = 1 ∧
    tag <$> base_of st1 r = Some (Some (kr (gmsh_calls st1))).
Proof.
  intros Hwf Hv Hfresh HN.
  destruct (before_sync_built kr st r Hwf Hv) as ([] & st1 & Hrun & B).
  pose proof (built_wf _ _ _ _ _ B Hwf) as Hwf1.
  pose proof (built_valid _ _ _ r _ _ B Hv) as Hv1.
  pose proof (before_sync_noop kr st1 r Hwf1 Hv1 (built_done _ _ _ _ _ B)) as Hnoop.
  destruct (built_first _ _ _ _ _ B Hfresh) as (D & c & HD & KD & Hc & Htag).
  exists st1, (D ++ [c]).
  split; [done|]. split.
  { destruct N as [|N]; [lia|]. simpl. unfold mbind, M_bind. rewrite Hrun.
    by apply repeat_noop. }
  split; [done|]. split; [done|]. split; [|done].
  rewrite count_calls_app, (count_calls_none _ D), (count_calls_one _ c).
  - done.
  - apply creates_rank; [done|]. intros f ->. done.
  - eapply Forall_impl; [exact KD|]. intros e He. by apply creates_below.
Qed.

(** The corners a transfinite surface declares, and the points of an entity
    with them. *)
Definition corner_points (st : State) (s : nat) : gset nat :=
  match heap_surfaces st !! s with
  | Some o => list_to_set (default [] (PlaneSurface_corners o))
  | None => ∅
  end.

Definition entity_points (st : State) (r : Ref) : gset nat :=
  match r with
  | RSurface s => surface_points st s ∪ corner_points st s
  | _ => ref_points st r
  end.

(** Every [Point] instance of the graph under a list of roots. *)
Definition all_points (st : State) (rs : list Ref) : gset nat :=
  ⋃ (entity_points st <$> rs).

(** The data model's condition on a transfinite surface: its corners are
    points of its loops. *)
Definition corners_on_loops (st : State) (r : Ref) : Prop :=
  match r with
  | RSurface s => corner_points st s ⊆ surface_points st s
  | _ => True
  end.

Lemma all_points_graph_points st rs :
  Forall (corners_on_loops st) rs → all_points st rs = graph_points st rs.
Proof.
  unfold all_points, graph_points. induction 1 as [|r rs Hr _ IH]; [done|].
  rewrite !fmap_cons, !union_list_cons, IH. f_equal.
  destruct r as [| | |s|]; try done. simpl in Hr. simpl.
  apply set_eq. intros p. rewrite elem_of_union. split; [|by left].
  intros [?|?]; [done|]. by apply Hr.
Qed.

(** C3. On a heap where nothing is constructed yet, the construction phase
    over a list of roots makes exactly as many point-creation calls as the
    graph under the roots has distinct [Point] instances, whatever their
    coordinates and however many lines refer to each; the corners of a
    transfinite surface are points of its loops, as the data model asks. *)
Theorem one_creation_per_point kr st rs :
  wf st → Forall (valid st) rs → Forall (corners_on_loops st) rs → all_fresh st →
  ∃ st1 D,
    for_ rs (before_sync kr) st = Ok (tt, st1) ∧
    gmsh_calls st1 = gmsh_calls st ++ D ∧
    count_calls is_add_point D = size (all_points st rs).
Proof.
  intros Hwf Hrs Hcorners Hfresh. rewrite (all_points_graph_points _ _ Hcorners).
  destruct (construction_roots_wp kr st rs Hwf Hrs) as ([] & st1 & Hrun & G1 & Hdone).
  destruct G1 as [(F1 & (D & E1 & K1) & B1) C1].
  destruct (C1 (all_fresh_closed _ Hfresh)) as [Hcl Hsub].
  exists st1, D. split; [done|]. split; [done|].
  assert (Hpts : constructed_points st1 = graph_points st rs).
  { apply set_eq. intros p. split.
    - intros Hp. apply Hsub in Hp. rewrite (all_fresh_no_points _ Hfresh) in Hp.
      set_solver.
    - intros (X & HX & Hp)%elem_of_union_list.
      apply list_elem_of_fmap in HX as (r & -> & Hr).
      rewrite <- (frame_ref_points _ _ _ _ _ F1) in Hp.
      eapply closed_ref_points; [exact Hcl| |exact Hp]. by apply Hdone. }
  unfold balance in B1. rewrite E1, count_calls_app in B1.
  rewrite (all_fresh_no_points _ Hfresh), size_empty, Hpts in B1. lia.
Qed.

(** ** What a run that returns leaves *)

(** [post m Q st]: when [m] returns from [st], [Q] holds of its value and
    of the state it leaves. *)
Definition post {A} (m : M A) (Q : A → State → Prop) (st : State) : Prop :=
  ∀ a st', m st = Ok (a, st') → Q a st'.

Lemma post_ret {A} (a : A) (Q : A → State → Prop) st : Q a st → post (mret a) Q st.
Proof. intros HQ a' st' H. by injection H as <- <-. Qed.

Lemma post_bind {A B} (m : M A) (f : A → M B) (Q : B → State → Prop) st :
  post m (λ a st1, post (f a) Q st1) st → post (m ≫= f) Q st.
Proof.
  intros Hm b st' H. unfold mbind, M_bind in H.
  destruct (m st) as [[a s1]|e] eqn:E; [|done]. by eapply Hm.
Qed.

Lemma post_mono {A} (m : M A) (Q Q' : A → State → Prop) st :
  post m Q st → (∀ a st', Q a st' → Q' a st') → post m Q' st.
Proof. intros Hm Himp a st' H. auto. Qed.

Lemma post_deref {A} (arena : State → list A) i (Q : A → State → Prop) st :
  (∀ o, arena st !! i = Some o → Q o st) → post (deref arena i) Q st.
Proof.
  intros HQ a st' H. unfold deref in H.
  destruct (arena st !! i) as [o|] eqn:E; [|done]. injection H as <- <-. auto.
Qed.

Lemma post_mutate {A} (arena : State → list A) store i (f : A → A)
    (Q : unit → State → Prop) st :
  (∀ o, arena st !! i = Some o → Q tt (store <[i := f o]> st)) →
  post (mutate arena store i f) Q st.
Proof.
  intros HQ a st' H. unfold mutate in H.
  destruct (arena st !! i) as [o|] eqn:E; [|done]. injection H as <- <-. auto.
Qed.

Lemma post_gmsh kr c (Q : Z → State → Prop) st :
  Q (kr (gmsh_calls st ++ [c])) (with_calls (λ _, gmsh_calls st ++ [c]) st) →
  post (gmsh kr c) Q st.
Proof. intros HQ a st' H. by injection H as <- <-. Qed.

Lemma post_when (c : bool) body (Q : unit → State → Prop) st :
  (c = true → post body Q st) → (c = false → Q tt st) → post (when c body) Q st.
Proof. destruct c; simpl; intros H1 H2; [auto | apply post_ret; auto]. Qed.

(** A loop keeps an invariant [I] of the elements done so far, the local
    variable and the state. *)
Lemma post_for_acc {A B} (I : list A → B → State → Prop) (body : B → A → M B) xs :
  (∀ done x acc s, I done acc s →
     post (body acc x) (λ acc' s', I (done ++ [x]) acc' s') s) →
  ∀ done acc s, I done acc s →
    post (for_acc xs acc body) (λ acc' s', I (done ++ xs) acc' s') s.
Proof.
  intros Hbody. induction xs as [|x xs IH]; intros done acc s HI; simpl.
  - apply post_ret. by rewrite app_nil_r.
  - apply post_bind. eapply post_mono; [by apply Hbody|].
    intros acc' s' HI'. simpl. eapply post_mono; [by apply IH|].
    intros acc2 s2 H2. simpl in H2. by rewrite <- app_assoc in H2.
Qed.

Lemma post_for {A} (I : list A → State → Prop) (body : A → M unit) xs st :
  (∀ done x s, I done s → post (body x) (λ _ s', I (done ++ [x]) s') s) →
  I [] st → post (for_ xs body) (λ _ s', I xs s') st.
Proof.
  intros Hbody HI. unfold for_.
  apply (post_for_acc (λ done _ s, I done s) (λ _ x, body x) xs
           (λ done x _ s, Hbody done x s) [] tt st HI).
Qed.

Lemma post_run {A} (m : M A) (Q : A → State → Prop) st a st1 :
  m st = Ok (a, st1) → Q a st1 → post m Q st.
Proof. intros Hm HQ a' st' H. rewrite Hm in H. by injection H as <- <-. Qed.

Lemma post_gmsh_ kr c (Q : unit → State → Prop) st :
  Q tt (with_calls (λ _, gmsh_calls st ++ [c]) st) → post (gmsh_ kr c) Q st.
Proof. intros HQ. unfold gmsh_. apply post_bind, post_gmsh. by apply post_ret. Qed.

Lemma for_acc_app_eq {A B} (xs ys : list A) (acc : B) (f : B → A → M B) s :
  for_acc (xs ++ ys) acc f s =
    match for_acc xs acc f s with
    | Ok (acc', s') => for_acc ys acc' f s'
    | Raise e => Raise e
    end.
Proof.
  revert acc s. induction xs as [|x xs IH]; intros acc s; simpl; [done|].
  unfold mbind, M_bind. destruct (f acc x s) as [[acc1 s1]|e]; [apply IH|done].
Qed.

(** ** Runs inside a refinement *)

(** A run is a function of the state, so what [wp] shows of a computation
    holds whenever it returns. *)
Lemma wp_post {A} (m : M A) (Q : A → State → Prop) st : wp m Q st → post m Q st.
Proof. intros (a & s & Hm & HQ) a' st' H. rewrite Hm in H. by injection H as <- <-. Qed.

Lemma post_bind_eq {A B} (m : M A) (f : A → M B) (Q : B → State → Prop) st :
  (∀ a st1, m st = Ok (a, st1) → post (f a) Q st1) → post (m ≫= f) Q st.
Proof.
  intros Hm b st' H. unfold mbind, M_bind in H.
  destruct (m st) as [[a s1]|e] eqn:E; [|done]. by eapply Hm.
Qed.

Lemma for_snoc {A} (f : A → M unit) (xs : list A) (x : A) st s s' :
  for_ xs f st = Ok (tt, s) → f x s = Ok (tt, s') → for_ (xs ++ [x]) f st = Ok (tt, s').
Proof.
  intros Hxs Hx. unfold for_ in *. rewrite for_acc_app_eq, Hxs. simpl.
  unfold mbind, M_bind. by rewrite Hx.
Qed.

(** The lines of a loop, refined in order. *)
Lemma lines_refined_wp kr st ls :
  Forall (λ l, l < length (heap_lines st)) ls →
  wp (for_ ls (Line_after_sync kr))
     (λ _ s1, stepA is_transfinite_curve st s1 ∧
              ∀ l, l ∈ ls → refinement_done s1 (RLine l) = true) st.
Proof.
  intros Hls.
  apply (for_wp (stepA is_transfinite_curve) (λ l s, refinement_done s (RLine l) = true)).
  - intros l s s' Hl Hs. by eapply stepA_refinement_done.
  - intros l s Hl [Fs _].
    destruct (frame_lengths _ _ _ _ Fs) as (_ & El & _).
    apply Line_after_sync_wp. rewrite El. rewrite Forall_forall in Hls. by apply Hls.
Qed.

(** The loops of a surface, refined in order. *)
Lemma loops_refined_wp kr st cs :
  wf st → Forall (λ c, c < length (heap_loops st)) cs →
  wp (for_ cs (CurveLoop_after_sync kr))
     (λ _ s1, stepA is_loop_refinement st s1 ∧
              ∀ c, c ∈ cs → refinement_done s1 (RCurveLoop c) = true) st.
Proof.
  intros Hwf Hcs.
  apply (for_wp (stepA is_loop_refinement)
           (λ c s, refinement_done s (RCurveLoop c) = true)).
  - intros c s s' Hc Hs. by eapply stepA_refinement_done.
  - intros c s Hc Hs. pose proof Hs as [Fs _].
    destruct (frame_lengths _ _ _ _ Fs) as (_ & _ & Ec & _).
    eapply wp_mono.
    { apply CurveLoop_after_sync_wp; [by eapply stepA_wf|].
      rewrite Ec. rewrite Forall_forall in Hcs. by apply Hcs. }
    intros [] s' R. split; [apply (lr_step _ _ _ _ R) | apply (lr_done _ _ _ _ R)].
Qed.

(** Refining a line changes neither its label nor its tag. *)
Lemma line_pair_refined st l o f l' :
  heap_lines st !! l = Some o →
  line_pair (with_lines <[l := Line_on_base MeshTransaction_after_sync o]>
               (with_calls f st)) l'
  = line_pair st l'.
Proof.
  intros Ho. unfold line_pair. simpl. destruct (decide (l' = l)) as [->|Hne].
  - rewrite list_lookup_insert_eq by (by eapply lookup_lt_Some). by rewrite Ho.
  - by rewrite list_lookup_insert_ne.
Qed.

(** A boundary layer that is not refined yet. *)
Definition fresh_layer (st : State) (f : nat) : Prop :=
  ∃ fo bl, heap_fields st !! f = Some fo ∧ Field_layer fo = Some bl ∧
           after_sync_initiated (Field_base fo) = false.

(** [CurveLoop.after_sync] on a fresh loop: the lines are refined in order,
    then come the group calls of the dictionary the line visits built, then
    the calls of the fields; a fresh boundary layer among the fields is
    given the loop's [line_tags] under the tag it keeps. *)
Lemma CurveLoop_after_sync_post kr c st :
  post (CurveLoop_after_sync kr c)
    (λ _ st', ∀ o, heap_loops st !! c = Some o →
                   after_sync_initiated (CurveLoop_base o) = false →
                   ∃ s1 D3,
                     for_ (CurveLoop_lines o) (Line_after_sync kr) st = Ok (tt, s1) ∧
                     gmsh_calls st' =
                       gmsh_calls s1
                         ++ group_calls kr (gmsh_calls s1)
                              (line_groups (line_pair st <$> CurveLoop_lines o))
                         ++ D3 ∧
                     Forall (λ e, is_field_call e = true) D3 ∧
                     heap_lines st' = heap_lines s1 ∧
                     ∀ f, f ∈ CurveLoop_fields o → fresh_layer st f →
                          ∃ t, field_setNumbers t "CurvesList" (CurveLoop_line_tags o) ∈ D3 ∧
                               tag <$> base_of st' (RField f) = Some (Some t)) st.
Proof.
  unfold CurveLoop_after_sync.
  apply post_bind, post_deref. intros o Ho.
  apply post_bind, post_when.
  - intros Hfresh%negb_true_iff.
    (* the lines *)
    set (A := λ (done : list nat) (d : LineGroups) (s : State),
           for_ done (Line_after_sync kr) st = Ok (tt, s) ∧
           d = line_groups (line_pair st <$> done) ∧
           (∀ l, line_pair s l = line_pair st l) ∧
           heap_loops s = heap_loops st ∧ heap_fields s = heap_fields st).
    apply post_bind.
    eapply post_mono.
    { apply (post_for_acc A _ (CurveLoop_lines o)) with (done := []).
      - intros done l d s (Hrun & Hd & Hpair & Ec & Ef).
        apply post_bind, post_deref. intros line Hline.
        apply post_bind.
        eapply post_run; [by apply Line_after_sync_run|].
        apply post_ret. unfold A.
        split; [eapply for_snoc; [exact Hrun|by apply Line_after_sync_run]|].
        split.
        { unfold line_groups. rewrite fmap_app, foldl_app. simpl.
          fold (line_groups (line_pair st <$> done)). rewrite <- Hd.
          rewrite <- (Hpair l). unfold line_pair. by rewrite Hline. }
        split; [|done].
        intros l'. rewrite (line_pair_refined _ _ _ _ _ Hline). apply Hpair.
      - unfold A. done. }
    intros groups s1 (Hlines & -> & Hpair1 & Ec1 & Ef1). simpl.
    (* the groups *)
    apply post_bind. apply wp_post, group_loop_wp.
    set (G := group_calls kr (gmsh_calls s1) _).
    set (s2 := with_calls _ s1).
    (* the fields *)
    set (C := λ (done : list nat) (s : State),
           heap_loops s = heap_loops st ∧ heap_lines s = heap_lines s1 ∧
           (∀ f, f ∉ done → heap_fields s !! f = heap_fields st !! f) ∧
           ∃ D, gmsh_calls s = gmsh_calls s2 ++ D ∧
                Forall (λ e, is_field_call e = true) D ∧
                ∀ f, f ∈ done → fresh_layer st f →
                     ∃ t fo', field_setNumbers t "CurvesList" (CurveLoop_line_tags o) ∈ D ∧
                              heap_fields s !! f = Some fo' ∧
                              tag (Field_base fo') = Some t ∧
                              after_sync_initiated (Field_base fo') = true).
    eapply post_mono.
    { apply (post_for C).
      - intros done f s (Ec & El & Ef & D & ED & KD & HD).
        assert (Hlp : heap_loops s !! c = Some o) by (by rewrite Ec).
        destruct (heap_fields s !! f) as [fo|] eqn:Efo; last first.
        { intros a s' Hrun. unfold Field_after_sync, mbind, M_bind, get_field, deref in Hrun.
          by rewrite Efo in Hrun. }
        assert (Hf : f < length (heap_fields s)) by (by eapply lookup_lt_Some).
        eapply post_run; [by apply Field_after_sync_run|].
        unfold C. simpl. split; [done|]. split; [done|]. split.
        { intros f' Hf'. rewrite not_elem_of_app, list_elem_of_singleton in Hf'.
          destruct Hf' as [Hnd Hne]. rewrite list_lookup_insert_ne by done. by apply Ef. }
        exists (D ++ field_refinement kr s fo (CurveLoop_line_tags o)).
        split; [by rewrite ED, app_assoc|]. split.
        { apply Forall_app. split; [done|apply field_refinement_kind]. }
        intros f' Hf' Hfl. destruct (decide (f' ∈ done)) as [Hin|Hnin].
        { destruct (HD f' Hin Hfl) as (t & fo' & Ht & Hfo' & Htag & Hdone).
          exists t. destruct (decide (f' = f)) as [->|Hne].
          - exists (field_refined kr s fo). split; [apply elem_of_app; by left|].
            split; [by apply list_lookup_insert_eq|].
            assert (fo' = fo) as -> by congruence.
            unfold field_refined. rewrite Hdone.
            destruct (Field_layer fo); simpl; auto.
          - exists fo'. split; [apply elem_of_app; by left|].
            split; [by rewrite list_lookup_insert_ne|done]. }
        apply elem_of_app in Hf' as [?|Heq%list_elem_of_singleton]; [done|]. subst f'.
        destruct Hfl as (fo' & bl & Hfo' & Hbl & Hfr).
        rewrite (Ef f Hnin) in Efo. assert (fo' = fo) as -> by congruence.
        eexists _, (field_refined kr s fo).
        split; [|split; [by apply list_lookup_insert_eq|]].
        + unfold field_refinement. rewrite Hbl, Hfr.
          apply elem_of_app. right. unfold layer_refinement. simpl.
          apply list_elem_of_further, list_elem_of_here.
        + unfold field_refined. rewrite Hbl, Hfr. simpl. done.
      - unfold C. split; [done|]. split; [done|]. split; [intros f _; by rewrite <- Ef1|].
        exists []. split; [by rewrite app_nil_r|]. split; [constructor|].
        intros f Hf. by apply elem_of_nil in Hf. }
    intros [] s3 (Ec3 & El3 & Ef3 & D3 & ED3 & KD3 & HD3). simpl.
    apply post_mutate. intros o3 Ho3.
    intros o' Ho' _. assert (o' = o) as -> by congruence.
    exists s1, D3. split; [done|]. split.
    { simpl. rewrite ED3. simpl. by rewrite <- app_assoc. }
    split; [done|]. split; [done|].
    intros f Hf Hfl. destruct (HD3 f Hf Hfl) as (t & fo' & Ht & Hfo' & Htag & _).
    exists t. split; [done|]. simpl. by rewrite Hfo', <- Htag.
  - intros Hdone%negb_false_iff.
    apply post_mutate. intros o1 Ho1.
    intros o' Ho' Hf. assert (o' = o) as -> by congruence. congruence.
Qed.

(** [PlaneSurface.after_sync] on a fresh surface: the loops are refined in
    order, then come the calls for the surface itself. *)
Lemma PlaneSurface_after_sync_post kr s st :
  post (PlaneSurface_after_sync kr s)
    (λ _ st', ∀ o, heap_surfaces st !! s = Some o →
                   after_sync_initiated (PlaneSurface_base o) = false →
                   ∃ s1,
                     for_ (PlaneSurface_curve_loops o) (CurveLoop_after_sync kr) st
                       = Ok (tt, s1) ∧
                     gmsh_calls st' =
                       gmsh_calls s1 ++ surface_group kr (gmsh_calls s1) o
                         ++ surface_recombine o ∧
                     heap_loops st' = heap_loops s1) st.
Proof.
  unfold PlaneSurface_after_sync.
  apply post_bind, post_deref. intros o Ho.
  apply post_bind, post_when.
  - intros Hfresh%negb_true_iff.
    apply post_bind_eq. intros [] s1 Hloops.
    apply post_bind.
    eapply (post_mono _ (λ _ s2, s2 = with_calls (λ _, gmsh_calls s1
                                      ++ surface_group kr (gmsh_calls s1) o) s1)).
    { unfold surface_group. destruct (PlaneSurface_label o) as [label|].
      - apply post_bind, post_gmsh. apply post_gmsh_.
        rewrite with_calls_twice. simpl. by rewrite <- app_assoc.
      - apply post_ret. by rewrite with_calls_nil. }
    intros [] s2 ->. simpl.
    eapply (post_mono _ (λ _ s3, s3 = with_calls (λ _, gmsh_calls s1
                                      ++ surface_group kr (gmsh_calls s1) o
                                      ++ surface_recombine o) s1)).
    { unfold surface_recombine. apply post_when.
      - intros ->. apply post_gmsh_. rewrite with_calls_twice. simpl.
        by rewrite <- app_assoc.
      - intros ->. simpl. by rewrite app_nil_r. }
    intros [] s3 ->. simpl.
    apply post_mutate. intros o3 Ho3.
    intros o' Ho' _. assert (o' = o) as -> by congruence.
    exists s1. done.
  - intros Hdone%negb_false_iff.
    apply post_mutate. intros o1 Ho1.
    intros o' Ho' Hf. assert (o' = o) as -> by congruence. congruence.
Qed.

(** [TransfinitePlaneSurface.after_sync] on a fresh surface makes its own
    call and then runs the base method. *)
Lemma TransfinitePlaneSurface_after_sync_post kr s corners st :
  post (TransfinitePlaneSurface_after_sync kr s corners)
    (λ _ st', ∀ o, heap_surfaces st !! s = Some o →
                   after_sync_initiated (PlaneSurface_base o) = false →
                   PlaneSurface_after_sync kr s
                     (with_calls
                        (λ _, gmsh_calls st
                                ++ [mesh_set_transfinite_surface (tag (PlaneSurface_base o))
                                      (corner_tags st corners)]) st)
                   = Ok (tt, st')) st.
Proof.
  unfold TransfinitePlaneSurface_after_sync.
  apply post_bind, post_deref. intros o Ho.
  apply post_bind, post_when.
  - intros Hfresh%negb_true_iff.
    apply post_bind.
    eapply post_mono.
    { apply (post_for_acc (λ done tags s', s' = st ∧ tags = corner_tags st done) _ corners)
        with (done := []).
      - intros done p tags s' [-> ->].
        apply post_bind, post_deref. intros corner Hcorner. apply post_ret.
        split; [done|]. unfold corner_tags. rewrite fmap_app. simpl. by rewrite Hcorner.
      - done. }
    intros tags s' [-> ->]. simpl.
    apply post_gmsh_.
    intros [] st' Hrun o' Ho' _. assert (o' = o) as -> by congruence. exact Hrun.
  - intros Hdone%negb_false_iff.
    intros [] st' Hrun o' Ho' Hf. assert (o' = o) as -> by congruence. congruence.
Qed.

(** The outcome of the base [PlaneSurface.after_sync] on a fresh surface,
    [DL] being the calls of the loops' refinement. *)
Lemma PlaneSurface_after_sync_first kr s st st' o :
  wf st → heap_surfaces st !! s = Some o →
  after_sync_initiated (PlaneSurface_base o) = false →
  PlaneSurface_after_sync kr s st = Ok (tt, st') →
  ∃ s1 DL,
    for_ (PlaneSurface_curve_loops o) (CurveLoop_after_sync kr) st = Ok (tt, s1) ∧
    gmsh_calls s1 = gmsh_calls st ++ DL ∧
    (∀ c, c ∈ PlaneSurface_curve_loops o → refinement_done st' (RCurveLoop c) = true) ∧
    gmsh_calls st' =
      gmsh_calls st ++ DL ++ surface_group kr (gmsh_calls st ++ DL) o
        ++ surface_recombine o ∧
    Forall (λ e, is_loop_refinement e = true) DL.
Proof.
  intros Hwf Ho Hfresh Hrun.
  destruct (wf_surface_at _ _ _ Hwf Ho) as [Hcs _].
  destruct (PlaneSurface_after_sync_post kr s st _ _ Hrun o Ho Hfresh)
    as (s1 & Hloops & Hcalls & Ec).
  destruct (loops_refined_wp kr st _ Hwf Hcs)
    as ([] & s1' & Hloops' & [_ (DL & E & K)] & Hdone).
  rewrite Hloops in Hloops'. injection Hloops' as <-.
  exists s1, DL. split; [done|]. split; [done|]. split.
  { intros c Hc. unfold refinement_done, base_of. rewrite Ec. by apply Hdone. }
  split; [|done]. rewrite Hcalls, E. by rewrite <- !app_assoc.
Qed.

(** ** Label aggregation *)

(** The tags of the lines that carry the label [lab], in loop order. *)
Definition has_label (lab : string) (p : option string * option Z) : bool :=
  match fst p with
  | Some s => String.eqb s lab
  | None => false
  end.

Definition tags_labelled (lab : string) (pairs : list (option string * option Z))
  : list (option Z) :=
  snd <$> filter (λ p, has_label lab p = true) pairs.

Lemma line_groups_A_A_B_None (pairs : list (option string * option Z)) :
  fst <$> pairs ≡ₚ [Some "A"; Some "A"; Some "B"; None] →
  ∃ first second,
    line_groups pairs = [first; second] ∧
    [first; second] ≡ₚ [("A", tags_labelled "A" pairs); ("B", tags_labelled "B" pairs)] ∧
    length (tags_labelled "A" pairs) = 2 ∧ length (tags_labelled "B" pairs) = 1.
Proof.
  intros H. symmetry in H. apply permutations_Permutation in H.
  set (L := permutations _) in H. vm_compute in L. subst L.
  destruct pairs as [|[x1 t1] [|[x2 t2] [|[x3 t3] [|[x4 t4] [|? ?]]]]];
    repeat (apply elem_of_cons in H as [H|H]; [try discriminate H|]);
    try (by apply elem_of_nil in H);
    simpl in H; injection H as -> -> -> ->;
    (eexists _, _; split; [vm_compute; reflexivity|];
     split; [first [reflexivity | apply perm_swap]|]; split; reflexivity).
Qed.

(** The two calls that make the group [kv] after the calls [pre]: its
    creation at curve dimension, and the naming, by its label, of the tag
    the kernel returned for that creation. *)
Definition named_group (kr : list GmshCall → Z) (pre : list GmshCall)
    (kv : string * list (option Z)) : list GmshCall :=
  [add_physical_group 1 (snd kv);
   set_physical_name 1 (kr (pre ++ [add_physical_group 1 (snd kv)])) (fst kv)].

(** C4. Refining a fresh [CurveLoop] whose lines carry the labels "A", "A",
    "B" and [None], in any order, first visits every line: the calls [D1]
    are those of [after_sync] run over the lines in loop order, and every
    line is refined after.  Then it makes exactly two physical groups, both
    at curve dimension: one with the tags of the two lines labelled "A" and
    one with the tag of the line labelled "B", each named by its label
    under the tag the kernel returned for its creation.  The calls after
    them are field calls, so no group is made for the unlabelled line and
    none before every line is visited. *)
Theorem curve_loop_label_groups kr st c o :
  wf st → heap_loops st !! c = Some o →
  after_sync_initiated (CurveLoop_base o) = false →
  fst <$> (line_pair st <$> CurveLoop_lines o) ≡ₚ [Some "A"; Some "A"; Some "B"; None] →
  ∃ st' s1 D1 D3 first second,
    CurveLoop_after_sync kr c st = Ok (tt, st') ∧
    for_ (CurveLoop_lines o) (Line_after_sync kr) st = Ok (tt, s1) ∧
    gmsh_calls s1 = gmsh_calls st ++ D1 ∧
    (∀ l, l ∈ CurveLoop_lines o → refinement_done st' (RLine l) = true) ∧
    gmsh_calls st' =
      gmsh_calls st ++ D1
        ++ named_group kr (gmsh_calls st ++ D1) first
        ++ named_group kr
             (gmsh_calls st ++ D1 ++ named_group kr (gmsh_calls st ++ D1) first) second
        ++ D3 ∧
    Forall (λ e, is_transfinite_curve e = true) D1 ∧
    Forall (λ e, is_field_call e = true) D3 ∧
    [first; second] ≡ₚ
      [("A", tags_labelled "A" (line_pair st <$> CurveLoop_lines o));
       ("B", tags_labelled "B" (line_pair st <$> CurveLoop_lines o))] ∧
    length (tags_labelled "A" (line_pair st <$> CurveLoop_lines o)) = 2 ∧
    length (tags_labelled "B" (line_pair st <$> CurveLoop_lines o)) = 1 ∧
    count_calls is_physical_group (D1 ++ D3) = 0.
Proof.
  intros Hwf Ho Hfresh Hlabels.
  assert (Hc : c < length (heap_loops st)) by (by eapply lookup_lt_Some).
  destruct (wf_loop_at _ _ _ Hwf Ho) as [Hls _].
  destruct (CurveLoop_after_sync_wp kr st c Hwf Hc) as ([] & st' & Hrun & _).
  destruct (CurveLoop_after_sync_post kr c st _ _ Hrun o Ho Hfresh)
    as (s1 & D3 & Hlines & Hcalls & K3 & El & _).
  destruct (lines_refined_wp kr st _ Hls)
    as ([] & s1' & Hlines' & [_ (D1 & E1 & K1)] & Hdone).
  rewrite Hlines in Hlines'. injection Hlines' as <-.
  destruct (line_groups_A_A_B_None _ Hlabels) as (first & second & Hg & Hperm & HA & HB).
  rewrite Hg in Hcalls. simpl in Hcalls.
  exists st', s1, D1, D3, first, second.
  split; [done|]. split; [done|]. split; [done|]. split.
  { intros l Hl. unfold refinement_done, base_of. rewrite El. by apply Hdone. }
  split.
  { rewrite Hcalls, E1. unfold named_group. simpl. by rewrite <- !app_assoc. }
  split; [done|]. split; [done|]. split; [done|]. split; [done|]. split; [done|].
  rewrite count_calls_app, (count_calls_none _ D1), (count_calls_none _ D3); [done| |].
  - eapply Forall_impl; [exact K3|]. intros e He. simpl in He. by destruct e.
  - eapply Forall_impl; [exact K1|]. intros e He. simpl in He. by destruct e.
Qed.

(** ** Boundary layers *)

(** The values set for the option [key] by the calls [D]. *)
Definition set_numbers (key : string) (D : list GmshCall) : list float :=
  flat_map (λ c, match c with
                 | field_setNumber _ k v => if String.eqb k key then [v] else []
                 | _ => []
                 end) D.

(** The optional attributes of a [BoundaryLayer] with the kernel option each
    one sets: those that default to [None], and the two flags. *)
Definition numeric_attrs (bl : BoundaryLayer) : list (string * option float) :=
  [("AnisoMax", aniso_max bl); ("hfar", hfar bl); ("hwall_n", hwall_n bl);
   ("ratio", ratio bl); ("thickness", thickness bl)].

Definition flag_attrs (bl : BoundaryLayer) : list (string * bool) :=
  [("IntersectMetrics", intersect_metrics bl); ("Quads", is_quad_mesh bl)].

(** The specification's wording: an option is set if and only if the caller
    gave the attribute a value. *)
Definition sets_exactly_provided (bl : BoundaryLayer) (D : list GmshCall) : Prop :=
  Forall (λ ka : string * option float, set_numbers (fst ka) D ≠ [] ↔ is_Some (snd ka))
         (numeric_attrs bl).

Lemma set_numbers_app key D1 D2 :
  set_numbers key (D1 ++ D2) = set_numbers key D1 ++ set_numbers key D2.
Proof. unfold set_numbers. by rewrite flat_map_app. Qed.

Lemma set_numbers_when key (b : bool) t k v :
  set_numbers key (if b then [field_setNumber t k v] else [])
  = if b && String.eqb k key then [v] else [].
Proof. destruct b; simpl; [|done]. by destruct (String.eqb k key). Qed.

Lemma set_numbers_layer key t tags bl :
  set_numbers key (layer_refinement t tags bl) =
    (if truthy_float (aniso_max bl) && String.eqb "AnisoMax" key
     then [default 0%Q (aniso_max bl)] else [])
    ++ (if intersect_metrics bl && String.eqb "IntersectMetrics" key
        then [float_of_bool (intersect_metrics bl)] else [])
    ++ (if is_quad_mesh bl && String.eqb "Quads" key
        then [float_of_bool (is_quad_mesh bl)] else [])
    ++ (if truthy_float (hfar bl) && String.eqb "hfar" key
        then [default 0%Q (hfar bl)] else [])
    ++ (if truthy_float (hwall_n bl) && String.eqb "hwall_n" key
        then [default 0%Q (hwall_n bl)] else [])
    ++ (if truthy_float (ratio bl) && String.eqb "ratio" key
        then [default 0%Q (ratio bl)] else [])
    ++ (if truthy_float (thickness bl) && String.eqb "thickness" key
        then [default 0%Q (thickness bl)] else []).
Proof.
  unfold layer_refinement. rewrite !set_numbers_app, !set_numbers_when.
  simpl. by rewrite app_nil_r.
Qed.

(** C5, as the code has it.  Refining a fresh [BoundaryLayer] sets no number
    for a numeric attribute that was not given, sets the given value, once,
    for one that was given and is not zero, and sets the flags
    [IntersectMetrics] and [Quads] to 1 exactly when they are [True]. *)
Theorem boundary_layer_sets_truthy kr st f c o bl lp :
  heap_fields st !! f = Some o → Field_layer o = Some bl →
  after_sync_initiated (Field_base o) = false →
  heap_loops st !! c = Some lp →
  ∃ st' D,
    Field_after_sync kr f c st = Ok (tt, st') ∧
    gmsh_calls st' = gmsh_calls st ++ D ∧
    Forall (λ ka : string * option float,
      (snd ka = None → set_numbers (fst ka) D = []) ∧
      (∀ v, snd ka = Some v → Qeq_bool v 0%Q = false → set_numbers (fst ka) D = [v]))
      (numeric_attrs bl) ∧
    Forall (λ kb : string * bool, set_numbers (fst kb) D = if snd kb then [1%Q] else [])
           (flag_attrs bl).
Proof.
  intros Ho Hbl Hfresh Hlp.
  eexists _, _. split; [by eapply Field_after_sync_run|].
  split; [reflexivity|].
  unfold field_refinement. rewrite Hbl, Hfresh.
  unfold numeric_attrs, flag_attrs.
  split; repeat (apply Forall_cons; split); try apply Forall_nil;
    cbn [fst snd]; rewrite ?set_numbers_layer; simpl;
    rewrite ?andb_false_r, ?andb_true_r; simpl; rewrite ?app_nil_r.
  all: try done.
  all: try (split; [by intros -> | intros v -> Hv; simpl; by rewrite Hv]).
  - by destruct (intersect_metrics bl).
  - by destruct (is_quad_mesh bl).
Qed.

(** ** Transfinite surfaces *)

Definition is_transfinite_surface (c : GmshCall) : bool :=
  match c with mesh_set_transfinite_surface _ _ => true | _ => false end.

(** The calls of the base [PlaneSurface.after_sync]: every refinement call
    but the transfinite-surface constraint. *)
Definition is_base_refinement (c : GmshCall) : bool :=
  is_refinement c && negb (is_transfinite_surface c).

(** No call of kind [P] comes after a call of kind [Q]. *)
Fixpoint none_after (P Q : GmshCall → bool) (D : list GmshCall) : bool :=
  match D with
  | [] => true
  | c :: D' => (negb (Q c) || forallb (λ e, negb (P e)) D') && none_after P Q D'
  end.

(** The specification's wording: the base refinement comes first and the
    transfinite constraint after it. *)
Definition base_then_transfinite (D : list GmshCall) : Prop :=
  none_after is_base_refinement is_transfinite_surface D = true.

(** C6, as the code has it.  Refining a fresh [TransfinitePlaneSurface]
    first applies the transfinite constraint, with the surface's tag and the
    tags of the declared corners, and then performs the whole base
    refinement: [after_sync] is run over the loops in order, [DL] being the
    calls of that run, and leaves every loop refined; then come the physical
    group of a labelled surface and the recombination of a quad mesh. *)
Theorem transfinite_constraint_then_base kr st s o corners :
  wf st → heap_surfaces st !! s = Some o → PlaneSurface_corners o = Some corners →
  after_sync_initiated (PlaneSurface_base o) = false →
  ∃ st' s1 DL,
    after_sync kr (RSurface s) st = Ok (tt, st') ∧
    for_ (PlaneSurface_curve_loops o) (CurveLoop_after_sync kr)
      (with_calls
         (λ _, gmsh_calls st
                 ++ [mesh_set_transfinite_surface (tag (PlaneSurface_base o))
                       (corner_tags st corners)]) st)
      = Ok (tt, s1) ∧
    gmsh_calls s1 =
      gmsh_calls st
        ++ [mesh_set_transfinite_surface (tag (PlaneSurface_base o)) (corner_tags st corners)]
        ++ DL ∧
    (∀ c, c ∈ PlaneSurface_curve_loops o → refinement_done st' (RCurveLoop c) = true) ∧
    gmsh_calls st' =
      gmsh_calls st
        ++ [mesh_set_transfinite_surface (tag (PlaneSurface_base o)) (corner_tags st corners)]
        ++ DL
        ++ surface_group kr
             (gmsh_calls st
                ++ [mesh_set_transfinite_surface (tag (PlaneSurface_base o))
                      (corner_tags st corners)] ++ DL) o
        ++ surface_recombine o ∧
    Forall (λ e, is_loop_refinement e = true) DL.
Proof.
  intros Hwf Ho Hcorners Hfresh.
  assert (Hs : s < length (heap_surfaces st)) by (by eapply lookup_lt_Some).
  destruct (wf_surface_at _ _ _ Hwf Ho) as [_ Hcs]. rewrite Hcorners in Hcs.
  destruct (TransfinitePlaneSurface_after_sync_wp kr st s corners Hwf Hs Hcs)
    as ([] & st' & Hrun & _).
  pose proof (TransfinitePlaneSurface_after_sync_post kr s corners st _ _ Hrun o Ho Hfresh)
    as Hbase.
  set (own := mesh_set_transfinite_surface _ _) in *.
  set (s0 := with_calls (λ _, gmsh_calls st ++ [own]) st) in *.
  assert (Hwf0 : wf s0).
  { eapply (frame_wf flags_le any_tags); [|exact Hwf]. apply (frame_calls flags_le any_tags). }
  destruct (PlaneSurface_after_sync_first kr s s0 st' o Hwf0 Ho Hfresh Hbase)
    as (s1 & DL & Hloops & E & Hdone & Hcalls & K).
  exists st', s1, DL. split.
  { simpl. unfold mbind, M_bind, get_surface, deref. by rewrite Ho, Hcorners. }
  split; [done|]. split.
  { rewrite E. simpl. by rewrite <- app_assoc. }
  split; [done|]. split; [|done].
  rewrite Hcalls. simpl. by rewrite <- !app_assoc.
Qed.

(** ** The session lifecycle *)

(** The session state of the specification, read off the calls made: open
    after [initialize], not open before it or after [finalize]. *)
Definition session_open (calls : list GmshCall) : bool :=
  foldl (λ b c, match c with initialize => true | finalize => false | _ => b end)
        false calls.

(** C7, as the code has it.  [Geometry] keeps no lifecycle state: in every
    state, [__enter__] hands [initialize] to the kernel and [write] hands
    [write] to the kernel, and neither raises. *)
Theorem session_delegates kr st filename :
  Geometry_enter kr st = Ok (tt, with_calls (λ _, gmsh_calls st ++ [initialize]) st) ∧
  Geometry_write kr filename st
    = Ok (tt, with_calls (λ _, gmsh_calls st ++ [write filename]) st).
Proof. split; reflexivity. Qed.

(** ** Transfinite lines *)

(** C8. Refining a fresh [TransfiniteLine] with [cell_count >= 1] makes one
    call, the transfinite-curve constraint with [cell_count + 1] nodes, the
    line's grading type and its coefficient; with [cell_count = 4] the node
    count is 5.  Refining it again makes no call. *)
Theorem transfinite_line_nodes kr st l o tl :
  heap_lines st !! l = Some o → Line_transfinite o = Some tl →
  after_sync_initiated (Line_base o) = false → (1 ≤ cell_count tl)%Z →
  ∃ st',
    Line_after_sync kr l st = Ok (tt, st') ∧
    gmsh_calls st' =
      gmsh_calls st
        ++ [mesh_set_transfinite_curve (tag (Line_base o)) (cell_count tl + 1)
              (mesh_type tl) (coeff tl)] ∧
    (cell_count tl = 4%Z →
     gmsh_calls st' =
       gmsh_calls st
         ++ [mesh_set_transfinite_curve (tag (Line_base o)) 5 (mesh_type tl) (coeff tl)]) ∧
    count_calls is_transfinite_curve
      [mesh_set_transfinite_curve (tag (Line_base o)) (cell_count tl + 1)
         (mesh_type tl) (coeff tl)] = 1 ∧
    ∃ st'', Line_after_sync kr l st' = Ok (tt, st'') ∧ gmsh_calls st'' = gmsh_calls st'.
Proof.
  intros Ho Htl Hfresh Hcc.
  assert (Hl : l < length (heap_lines st)) by (by eapply lookup_lt_Some).
  eexists. split; [by apply Line_after_sync_run|].
  unfold line_refinement. rewrite Htl, Hfresh.
  split; [reflexivity|]. split; [by intros ->|]. split; [reflexivity|].
  eexists. split.
  - apply Line_after_sync_run. simpl. by apply list_lookup_insert_eq.
  - unfold line_refinement. simpl. rewrite Htl. by rewrite app_nil_r.
Qed.

(** ** [get_points_and_lines] *)

(** The closure invariant of a [CurveLoop]: each line ends where the next
    one, cyclically, starts. *)
Definition closed_cycle (st : State) (lines : list nat) : Prop :=
  ∀ i a b, lines !! i = Some a → lines !! ((i + 1) mod length lines) = Some b →
    ∃ oa ob, heap_lines st !! a = Some oa ∧ heap_lines st !! b = Some ob ∧
             Line_end oa = Line_start ob.

(** C9. For [n >= 1] rows of two or more coordinates, a scalar or non-empty
    mesh-size list and per-line lists with an entry for every line,
    [get_points_and_lines] returns [n] distinct points and [n] distinct
    lines; line [i] starts at [points[i]] and ends at [points[i+1]], the
    last one at [points[0]]; so the lines form a closed cycle. *)
Theorem get_points_and_lines_cycle coords mesh_size labels cell_counts mesh_types
    mesh_coeffs st :
  1 ≤ length coords →
  Forall (λ row, 2 ≤ length row) coords →
  is_Some (first_mesh_size mesh_size) →
  covers (length coords) labels → covers (length coords) cell_counts →
  covers (length coords) mesh_types → covers (length coords) mesh_coeffs →
  ∃ points lines st',
    get_points_and_lines coords mesh_size labels cell_counts mesh_types mesh_coeffs st
      = Ok ((points, lines), st') ∧
    length points = length coords ∧ length lines = length coords ∧
    NoDup points ∧ NoDup lines ∧
    Forall (λ p, is_Some (heap_points st' !! p)) points ∧
    (∀ i, i < length coords →
       ∃ l o, lines !! i = Some l ∧ heap_lines st' !! l = Some o ∧
              points !! i = Some (Line_start o) ∧
              (i + 1 < length coords → points !! (i + 1) = Some (Line_end o)) ∧
              (i + 1 = length coords → points !! 0 = Some (Line_end o))) ∧
    closed_cycle st' lines.
Proof.
  intros Hn Hrows [m0 Hm0] Cl Cc Ct Cf.
  destruct (helper_run coords labels cell_counts mesh_types mesh_coeffs st m0
              Hrows Cl Cc Ct Cf mesh_size Hn Hm0)
    as ([points lines] & st' & Hrun & loc & -> & -> & Hinv).
  destruct Hinv as [_ Hpts Hlns _ Hhp Hhl Hpt Hln].
  set (n := length coords) in *.
  exists (loc_points loc), (loc_lines loc), st'. split; [done|].
  rewrite Hpts, Hlns, !length_seq.
  split; [done|]. split; [done|].
  split; [apply NoDup_seq|]. split; [apply NoDup_seq|].
  split.
  { apply Forall_forall. intros p Hp%elem_of_seq.
    destruct (Hpt (p - length (heap_points st))) as (o & Ho & _); [lia|].
    exists o. rewrite <- Ho. f_equal. lia. }
  split.
  - intros i Hi. destruct (Hln i Hi) as (o & Ho & Hs & He).
    exists (length (heap_lines st) + i), o.
    split; [by apply lookup_seq_lt|]. split; [done|].
    split; [rewrite Hs; by apply lookup_seq_lt|]. split.
    + intros Hi1. rewrite He, Nat.mod_small by done. by apply lookup_seq_lt.
    + intros Hi1. rewrite He, Hi1, Nat.Div0.mod_same.
      rewrite lookup_seq_lt by lia. f_equal. 
  - intros i a b Ha Hb. rewrite length_seq in Hb.
    apply lookup_seq in Ha as [-> Hi]. apply lookup_seq in Hb as [-> Hi'].
    destruct (Hln i Hi) as (oa & Hoa & _ & Hea).
    destruct (Hln ((i + 1) mod n) Hi') as (ob & Hob & Hsb & _).
    exists oa, ob. split; [done|]. split; [done|]. by rewrite Hea, Hsb.
Qed.

(** C10. When [mesh_size] is a list, every point [get_points_and_lines]
    returns has the first entry of the list as its mesh size, whatever the
    other entries are. *)
Theorem get_points_and_lines_first_mesh_size coords m0 rest labels cell_counts mesh_types
    mesh_coeffs st :
  1 ≤ length coords →
  Forall (λ row, 2 ≤ length row) coords →
  covers (length coords) labels → covers (length coords) cell_counts →
  covers (length coords) mesh_types → covers (length coords) mesh_coeffs →
  ∃ points lines st',
    get_points_and_lines coords (PyList (m0 :: rest)) labels cell_counts mesh_types
      mesh_coeffs st = Ok ((points, lines), st') ∧
    length points = length coords ∧
    Forall (λ p, ∃ o, heap_points st' !! p = Some o ∧ Point_mesh_size o = m0) points.
Proof.
  intros Hn Hrows Cl Cc Ct Cf.
  destruct (helper_run coords labels cell_counts mesh_types mesh_coeffs st m0
              Hrows Cl Cc Ct Cf (PyList (m0 :: rest)) Hn eq_refl)
    as ([points lines] & st' & Hrun & loc & -> & -> & Hinv).
  destruct Hinv as [_ Hpts _ _ _ _ Hpt _].
  exists (loc_points loc), (loc_lines loc), st'. split; [done|].
  rewrite Hpts, length_seq. split; [done|].
  apply Forall_forall. intros p Hp%elem_of_seq.
  destruct (Hpt (p - length (heap_points st))) as (o & Ho & Hm); [lia|].
  exists o. split; [|done]. rewrite <- Ho. f_equal. lia.
Qed.

(** ** A worked example *)

(** A kernel that answers each call with the number of calls made so far. *)
Definition count_reply (calls : list GmshCall) : Z := Z.of_nat (length calls).

(** The unit square: four points, four lines labelled "A", "B", unlabelled
    and "A" (the first with four cells), a loop with a boundary layer whose
    [aniso_max] is given as zero, and a labelled transfinite surface on the
    four corners, meshed with quads. *)
Definition example_layer : BoundaryLayer :=
  {| aniso_max := Some 0%Q; hfar := Some 2%Q; hwall_n := None; ratio := None;
     thickness := None; intersect_metrics := false; is_quad_mesh := true |}.

Definition example_graph : M nat :=
  p0 ← Point_new [0%Q; 0%Q] (1#10)%Q;
  p1 ← Point_new [1%Q; 0%Q] (1#10)%Q;
  p2 ← Point_new [1%Q; 1%Q] (1#10)%Q;
  p3 ← Point_new [0%Q; 1%Q] (1#10)%Q;
  l0 ← TransfiniteLine_new p0 p1 (Some "A") 4%Z "Progression" 1%Q;
  l1 ← Line_new p1 p2 (Some "B");
  l2 ← Line_new p2 p3 None;
  l3 ← Line_new p3 p0 (Some "A");
  f ← BoundaryLayer_new example_layer;
  c ← CurveLoop_new [l0; l1; l2; l3] [f];
  TransfinitePlaneSurface_new [c] [] (Some "domain") true [p0; p1; p2; p3].

Definition example_state : State :=
  Eval vm_compute in default empty_state (exec example_graph empty_state).

(** The example after its construction phase and the synchronize call. *)
Definition example_built : State :=
  Eval vm_compute in
    default empty_state
      (exec (construction_phase count_reply (One (RSurface 0));;
             gmsh_ count_reply geo_synchronize) example_state).

(** A session on which [__enter__] has run once. *)
Definition opened_session : State :=
  Eval vm_compute in default empty_state (exec (Geometry_enter count_reply) empty_state).

(** Two points with the same coordinates. *)
Definition twin_points : State :=
  Eval vm_compute in
    default empty_state
      (exec (Point_new [1%Q; 2%Q] (1#10)%Q;; Point_new [1%Q; 2%Q] (1#10)%Q) empty_state).

(** The calls a run from [st] to [st'] has added. *)
Definition new_calls (st st' : State) : list GmshCall :=
  drop (length (gmsh_calls st)) (gmsh_calls st').

(** The specification's wording of the lifecycle checks. *)
Definition reopening_fails (kr : list GmshCall → Z) (st : State) : Prop :=
  session_open (gmsh_calls st) = true → ∃ e, Geometry_enter kr st = Raise e.

Definition write_needs_open (kr : list GmshCall → Z) (filename : string) (st : State)
  : Prop :=
  session_open (gmsh_calls st) = false → ∃ e, Geometry_write kr filename st = Raise e.

Ltac solve_wf :=
  unfold wf, wf_line, wf_loop, wf_surface; simpl;
  repeat first [split | apply Forall_nil_2 | apply Forall_cons_2 | (simpl; lia)].

(** Two distinct points with equal coordinates get a creation call each. *)
Example equal_coordinates_two_calls :
  ∃ st', for_ [RPoint 0; RPoint 1] (before_sync count_reply) twin_points = Ok (tt, st') ∧
         gmsh_calls st' =
           [geo_add_point 1%Q 2%Q 0%Q (1#10)%Q; geo_add_point 1%Q 2%Q 0%Q (1#10)%Q].
Proof. eexists. split; vm_compute; reflexivity. Qed.

Lemma generate_two_phases_witness :
  wf example_state ∧ Forall (valid example_state) (roots (One (RSurface 0))) ∧
  ∃ st3, Geometry_generate count_reply (One (RSurface 0)) example_state = Ok (tt, st3).
Proof.
  assert (Hwf : wf example_state) by solve_wf.
  assert (Hv : Forall (valid example_state) (roots (One (RSurface 0)))).
  { repeat constructor. }
  split; [exact Hwf|]. split; [exact Hv|].
  destruct (generate_two_phases count_reply example_state (One (RSurface 0)) Hwf Hv)
    as (st1 & st2 & st3 & D1 & D2 & H).
  exists st3. apply H.
Defined.

Lemma construct_idempotent_witness :
  wf example_state ∧ valid example_state (RSurface 0) ∧
  constructed example_state (RSurface 0) = false ∧ 1 < 2 ∧
  ∃ st1, repeat_ 2 (before_sync count_reply (RSurface 0)) example_state = Ok (tt, st1) ∧
         before_sync count_reply (RSurface 0) example_state = Ok (tt, st1).
Proof.
  assert (Hwf : wf example_state) by solve_wf.
  assert (Hv : valid example_state (RSurface 0)) by (simpl; lia).
  assert (Hlt : 1 < 2) by lia.
  split; [exact Hwf|]. split; [exact Hv|]. split; [reflexivity|]. split; [exact Hlt|].
  destruct (construct_idempotent count_reply example_state (RSurface 0) 2 Hwf Hv eq_refl Hlt)
    as (st1 & D & H1 & H2 & _).
  exists st1. split; assumption.
Defined.

Lemma one_creation_per_point_witness :
  wf example_state ∧ Forall (valid example_state) [RSurface 0; RLine 0] ∧
  Forall (corners_on_loops example_state) [RSurface 0; RLine 0] ∧
  all_fresh example_state ∧
  ∃ st1 D, for_ [RSurface 0; RLine 0] (before_sync count_reply) example_state = Ok (tt, st1) ∧
           gmsh_calls st1 = gmsh_calls example_state ++ D ∧
           count_calls is_add_point D = size (all_points example_state [RSurface 0; RLine 0]).
Proof.
  assert (Hwf : wf example_state) by solve_wf.
  assert (Hv : Forall (valid example_state) [RSurface 0; RLine 0]).
  { repeat constructor; simpl; lia. }
  assert (Hcorners : Forall (corners_on_loops example_state) [RSurface 0; RLine 0]).
  { repeat constructor.
    unfold corners_on_loops, corner_points, surface_points, loop_points, line_points.
    simpl. set_solver. }
  assert (Hfresh : all_fresh example_state).
  { unfold all_fresh. simpl. repeat first [split | apply Forall_nil_2 | apply Forall_cons_2]. }
  split; [exact Hwf|]. split; [exact Hv|]. split; [exact Hcorners|]. split; [exact Hfresh|].
  apply (one_creation_per_point count_reply example_state [RSurface 0; RLine 0]
           Hwf Hv Hcorners Hfresh).
Defined.

Lemma curve_loop_label_groups_witness :
  wf example_built ∧
  fst <$> (line_pair example_built <$> [0; 1; 2; 3])
    ≡ₚ [Some "A"; Some "A"; Some "B"; None] ∧
  ∃ st' first second,
    CurveLoop_after_sync count_reply 0 example_built = Ok (tt, st') ∧
    [first; second] ≡ₚ [("A", [Some 3%Z; Some 8%Z]); ("B", [Some 5%Z])] ∧
    refinement_done st' (RLine 0) = true.
Proof.
  assert (Hwf : wf example_built) by solve_wf.
  assert (Hperm : fst <$> (line_pair example_built <$> [0; 1; 2; 3])
                    ≡ₚ [Some "A"; Some "A"; Some "B"; None]).
  { simpl. apply perm_skip. symmetry.
    apply (Permutation_cons_append [Some "B"; None] (Some "A")). }
  split; [exact Hwf|]. split; [exact Hperm|].
  destruct (curve_loop_label_groups count_reply example_built 0 _ Hwf eq_refl eq_refl Hperm)
    as (st' & s1 & D1 & D3 & first & second & Hrun & _ & _ & Hdone & _ & _ & _ & Hgroups & _).
  exists st', first, second. split; [exact Hrun|]. split; [exact Hgroups|].
  exact (Hdone 0 (list_elem_of_here 0 [1; 2; 3])).
Defined.

Lemma boundary_layer_sets_truthy_witness :
  ∃ st' D,
    Field_after_sync count_reply 0 0 example_built = Ok (tt, st') ∧
    gmsh_calls st' = gmsh_calls example_built ++ D ∧
    set_numbers "hfar" D = [2%Q] ∧ set_numbers "Quads" D = [1%Q] ∧
    set_numbers "ratio" D = [].
Proof.
  destruct (boundary_layer_sets_truthy count_reply example_built 0 0 _ example_layer _
              eq_refl eq_refl eq_refl eq_refl)
    as (st' & D & Hrun & Hcalls & Hnum & Hflag).
  exists st', D. split; [exact Hrun|]. split; [exact Hcalls|].
  apply Forall_cons in Hnum as [_ Hnum]. apply Forall_cons in Hnum as [[_ Hhfar] Hnum].
  apply Forall_cons in Hnum as [_ Hnum]. apply Forall_cons in Hnum as [[Hratio _] _].
  apply Forall_cons in Hflag as [_ Hflag]. apply Forall_cons in Hflag as [Hquads _].
  split; [exact (Hhfar 2%Q eq_refl eq_refl)|].
  split; [exact Hquads | exact (Hratio eq_refl)].
Defined.

(** C5 fails as worded: [aniso_max] is given, as zero, and no number is set
    for "AnisoMax". *)
Lemma boundary_layer_zero_not_set :
  ∃ st',
    Field_after_sync count_reply 0 0 example_built = Ok (tt, st') ∧
    ¬ sets_exactly_provided example_layer (new_calls example_built st').
Proof.
  eexists. split; [vm_compute; reflexivity|].
  intros H. apply Forall_cons in H as [[_ H] _].
  apply H; [by eexists | reflexivity].
Qed.

Lemma transfinite_constraint_then_base_witness :
  wf example_built ∧
  ∃ st', after_sync count_reply (RSurface 0) example_built = Ok (tt, st') ∧
         head (new_calls example_built st')
           = Some (mesh_set_transfinite_surface (Some 10%Z)
                     [Some 1%Z; Some 2%Z; Some 4%Z; Some 6%Z]) ∧
         refinement_done st' (RCurveLoop 0) = true.
Proof.
  assert (Hwf : wf example_built) by solve_wf.
  split; [exact Hwf|].
  destruct (transfinite_constraint_then_base count_reply example_built 0 _ [0; 1; 2; 3]
              Hwf eq_refl eq_refl eq_refl)
    as (st' & s1 & DL & Hrun & _ & _ & Hdone & Hcalls & _).
  exists st'. split; [exact Hrun|]. split.
  - unfold new_calls. rewrite Hcalls. by rewrite drop_app_length.
  - exact (Hdone 0 (list_elem_of_here 0 [])).
Defined.

(** C6 fails as worded: the transfinite constraint is the first call, and
    the calls of the base refinement come after it. *)
Lemma transfinite_constraint_not_last :
  ∃ st',
    after_sync count_reply (RSurface 0) example_built = Ok (tt, st') ∧
    ¬ base_then_transfinite (new_calls example_built st').
Proof.
  eexists. split; [vm_compute; reflexivity|].
  unfold base_then_transfinite. vm_compute. discriminate.
Qed.

(** C7 fails as worded: opening an open session and writing on a session
    that was never opened both go to the kernel. *)
Lemma lifecycle_not_enforced :
  ¬ reopening_fails count_reply opened_session ∧
  ¬ write_needs_open count_reply "mesh.msh" empty_state.
Proof.
  split; intros H; destruct (H eq_refl) as [e He]; discriminate He.
Qed.

Lemma transfinite_line_nodes_witness :
  (1 ≤ 4)%Z ∧
  ∃ st', Line_after_sync count_reply 0 example_built = Ok (tt, st') ∧
         gmsh_calls st' =
           gmsh_calls example_built
             ++ [mesh_set_transfinite_curve (Some 3%Z) 5 "Progression" 1%Q].
Proof.
  assert (Hcc : (1 ≤ 4)%Z) by lia.
  split; [exact Hcc|].
  destruct (transfinite_line_nodes count_reply example_built 0 _
              (mkTransfiniteLine 4 "Progression" 1%Q) eq_refl eq_refl eq_refl Hcc)
    as (st' & Hrun & _ & H5 & _).
  exists st'. split; [exact Hrun | exact (H5 eq_refl)].
Defined.

(** The rows of the unit square. *)
Definition square : list (list float) :=
  [[0%Q; 0%Q]; [1%Q; 0%Q]; [1%Q; 1%Q]; [0%Q; 1%Q]].

Lemma get_points_and_lines_cycle_witness :
  ∃ points lines st',
    get_points_and_lines square (Scalar (1#10)%Q) (Some (PyList ["a"; "b"; "c"; "d"]))
      (Some (Scalar 10%Z)) None (Some (PyList [])) empty_state
      = Ok ((points, lines), st') ∧
    length points = 4 ∧ length lines = 4 ∧ closed_cycle st' lines.
Proof.
  assert (Hn : 1 ≤ length square) by (simpl; lia).
  assert (Hrows : Forall (λ row : list float, 2 ≤ length row) square).
  { repeat first [apply Forall_nil_2 | apply Forall_cons_2 | (simpl; lia)]. }
  assert (Hlabels : covers (length square) (Some (PyList ["a"; "b"; "c"; "d"])))
    by (right; simpl; lia).
  assert (Hcoeffs : covers (length square) (Some (PyList ([] : list float))))
    by (by left).
  destruct (get_points_and_lines_cycle square (Scalar (1#10)%Q)
              (Some (PyList ["a"; "b"; "c"; "d"])) (Some (Scalar 10%Z)) None
              (Some (PyList [])) empty_state Hn Hrows (ex_intro _ _ eq_refl)
              Hlabels I I Hcoeffs)
    as (points & lines & st' & Hrun & Hp & Hl & _ & _ & _ & _ & Hcycle).
  exists points, lines, st'. split; [exact Hrun|]. split; [exact Hp|].
  split; [exact Hl | exact Hcycle].
Defined.

Lemma get_points_and_lines_first_mesh_size_witness :
  ∃ points lines st',
    get_points_and_lines square (PyList [(1#10)%Q; (1#5)%Q]) None None None None empty_state
      = Ok ((points, lines), st') ∧
    Forall (λ p, ∃ o, heap_points st' !! p = Some o ∧ Point_mesh_size o = (1#10)%Q) points.
Proof.
  assert (Hn : 1 ≤ length square) by (simpl; lia).
  assert (Hrows : Forall (λ row : list float, 2 ≤ length row) square).
  { repeat first [apply Forall_nil_2 | apply Forall_cons_2 | (simpl; lia)]. }
  destruct (get_points_and_lines_first_mesh_size square (1#10)%Q [(1#5)%Q] None None None
              None empty_state Hn Hrows I I I I)
    as (points & lines & st' & Hrun & _ & Hms).
  exists points, lines, st'. split; [exact Hrun | exact Hms].
Defined.

(** * Further properties of the module *)

(** ** Refining twice *)

Lemma Point_after_sync_again o :
  after_sync_initiated (Point_base o) = true →
  Point_on_base MeshTransaction_after_sync o = o.
Proof. destruct o; simpl; intros H. unfold Point_on_base; simpl. by rewrite after_sync_again. Qed.

Lemma Line_after_sync_again o :
  after_sync_initiated (Line_base o) = true →
  Line_on_base MeshTransaction_after_sync o = o.
Proof. destruct o; simpl; intros H. unfold Line_on_base; simpl. by rewrite after_sync_again. Qed.

(** Once an entity is refined, [after_sync] on it changes nothing. *)
Lemma after_sync_noop kr st r :
  wf st → valid st r → refinement_done st r = true → after_sync kr r st = Ok (tt, st).
Proof.
  intros Hwf Hv Hdone. destruct r as [p|l|c|s|f]; simpl in Hv.
  - destruct (lookup_lt_is_Some_2 _ _ Hv) as [o Ho].
    rewrite (refinement_point _ _ _ Ho) in Hdone.
    simpl. unfold Point_after_sync, modify_point, mutate. rewrite Ho.
    rewrite Point_after_sync_again by done. by rewrite with_points_same.
  - destruct (lookup_lt_is_Some_2 _ _ Hv) as [o Ho].
    rewrite (refinement_line _ _ _ Ho) in Hdone.
    simpl. rewrite (Line_after_sync_run kr st l o Ho).
    assert (line_refinement o = []) as ->.
    { unfold line_refinement. rewrite Hdone. by destruct (Line_transfinite o). }
    rewrite with_calls_nil, Line_after_sync_again by done. by rewrite with_lines_same.
  - destruct (CurveLoop_after_sync_wp kr st c Hwf Hv) as ([] & st' & Hrun & R).
    simpl. rewrite Hrun. by rewrite (lr_again _ _ _ _ R Hdone).
  - destruct (lookup_lt_is_Some_2 _ _ Hv) as [o Ho].
    simpl. unfold mbind, M_bind, get_surface, deref. rewrite Ho.
    destruct (PlaneSurface_corners o) as [corners|] eqn:Ecorners.
    + destruct (wf_surface_at _ _ _ Hwf Ho) as [_ Hcs]. rewrite Ecorners in Hcs.
      destruct (TransfinitePlaneSurface_after_sync_wp kr st s corners Hwf Hv Hcs)
        as ([] & st' & Hrun & R).
      rewrite Hrun. by rewrite (tr_again _ _ _ _ _ R Hdone).
    + destruct (PlaneSurface_after_sync_wp kr st s Hwf Hv) as ([] & st' & Hrun & R).
      rewrite Hrun. by rewrite (sr_again _ _ _ _ R Hdone).
  - done.
Qed.

(** X1. [after_sync] on an entity of any class returns, and after it any
    number of further [after_sync] calls on the entity make no kernel call
    and change no object. *)
Theorem refine_idempotent kr st r N :
  wf st → valid st r →
  ∃ st', after_sync kr r st = Ok (tt, st') ∧
         refinement_done st' r = true ∧
         repeat_ N (after_sync kr r) st' = Ok (tt, st').
Proof.
  intros Hwf Hv.
  destruct (after_sync_wp kr st r Hwf Hv) as ([] & st' & Hrun & [Fr _] & Hdone).
  exists st'. split; [done|]. split; [done|].
  apply repeat_noop. apply after_sync_noop; [by eapply frame_wf|by eapply frame_valid|done].
Qed.

(** ** Roots that are fields *)

Definition is_field (r : Ref) : bool :=
  match r with RField _ => true | _ => false end.

Lemma for_cons {A} (f : A → M unit) (x : A) (xs : list A) st :
  for_ (x :: xs) f st =
    match f x st with
    | Ok (_, s) => for_ xs f s
    | Raise e => Raise e
    end.
Proof.
  unfold for_. simpl. unfold mbind, M_bind.
  by destruct (f x st) as [[[] s]|e].
Qed.

Lemma construction_field_raises kr rs : ∀ st,
  wf st → Forall (λ r, valid st r ∨ is_field r = true) rs →
  Exists (λ r, is_field r = true) rs →
  for_ rs (before_sync kr) st = Raise TypeError.
Proof.
  induction rs as [|r rs IH]; intros st Hwf Hall Hex; [by inversion Hex|].
  rewrite for_cons. apply Forall_cons in Hall as [Hr Hall].
  destruct (is_field r) eqn:Er.
  - by destruct r.
  - destruct Hr as [Hv|?]; [|done].
    destruct (before_sync_built kr st r Hwf Hv) as ([] & st' & Hrun & B).
    rewrite Hrun. apply IH.
    + by eapply built_wf.
    + eapply Forall_impl; [exact Hall|]. intros r' [Hv'|?]; [left|by right].
      by eapply built_valid.
    + apply Exists_cons in Hex as [?|?]; [congruence|done].
Qed.

(** X2. A [Field] cannot be a root: [generate] on a list of roots that holds
    a field, the others being entities, raises [TypeError] (the field's
    [before_sync] wants the loop argument), and so does [generate] on a
    single field. *)
Theorem generate_field_root_raises kr st rs f :
  wf st → Forall (λ r, valid st r ∨ is_field r = true) rs →
  Exists (λ r, is_field r = true) rs →
  Geometry_generate kr (Many rs) st = Raise TypeError ∧
  Geometry_generate kr (One (RField f)) st = Raise TypeError.
Proof.
  intros Hwf Hall Hex. split; [|reflexivity].
  rewrite Geometry_generate_phases. unfold mbind at 1, M_bind at 1.
  simpl. by rewrite (construction_field_raises kr rs st Hwf Hall Hex).
Qed.

(** ** Edge cases of [get_points_and_lines] and of [Point] *)

(** X3. With no coordinate row, [get_points_and_lines] raises [IndexError],
    whatever the other arguments: the closing iteration reads [points[0]]
    of an empty list. *)
Theorem get_points_and_lines_no_row mesh_size labels cell_counts mesh_types mesh_coeffs st :
  get_points_and_lines [] mesh_size labels cell_counts mesh_types mesh_coeffs st
  = Raise IndexError.
Proof. by destruct mesh_size as [q|[|q l]]. Qed.

(** X4. With an empty list as [mesh_size], [get_points_and_lines] raises
    [IndexError] in its first iteration, whatever the rows are. *)
Theorem get_points_and_lines_no_mesh_size coords labels cell_counts mesh_types mesh_coeffs st :
  get_points_and_lines coords (PyList []) labels cell_counts mesh_types mesh_coeffs st
  = Raise IndexError.
Proof. unfold get_points_and_lines. by rewrite Nat.add_1_r. Qed.

(** The [z] that [Point.__post_init__] derives from a coordinate. *)
Definition z_of (rest : list float) : float :=
  match rest with
  | [z] => z
  | _ => 0%Q
  end.

(** The values a Python float can take: the finite binary64 numbers,
    [m * 2^e] with a significand [m] below [2^53]. *)
Definition is_float64 (q : float) : Prop :=
  ∃ m e : Z, (Z.abs m < 2 ^ 53)%Z ∧ (-1074 ≤ e ≤ 971)%Z ∧
             Qeq q (inject_Z m * Qpower 2 e).

(** X5. A point built from a row of floats [x, y, ...] and then constructed
    is created in the kernel at [(x, y, z)] with its mesh size, where [z] is
    the third component when there are exactly three and 0 otherwise (also
    when there are four or more); its tag is what the kernel returned.  A
    coordinate with fewer than two components raises [IndexError].  The
    components are float values: [np.asarray] leaves such a row as it is,
    whereas it would round a Python int next to a float, a case that is not
    part of this statement. *)
Theorem point_creation_coordinates kr x y rest mesh_size coord st :
  Forall is_float64 (x :: y :: rest) →
  (length coord < 2 → Point_new coord mesh_size st = Raise IndexError) ∧
  ∃ st1 st2,
    Point_new (x :: y :: rest) mesh_size st = Ok (length (heap_points st), st1) ∧
    Point_before_sync kr (length (heap_points st)) st1 = Ok (tt, st2) ∧
    gmsh_calls st2 = gmsh_calls st ++ [geo_add_point x y (z_of rest) mesh_size] ∧
    tag <$> base_of st2 (RPoint (length (heap_points st)))
      = Some (Some (kr (gmsh_calls st2))).
Proof.
  intros _. split.
  { intros Hlen. destruct coord as [|a [|b coord]]; [done|done|simpl in Hlen; lia]. }
  set (o := {| Point_x := x; Point_y := y; Point_z := z_of rest;
               Point_mesh_size := mesh_size; Point_label := None;
               Point_base := MeshTransaction_init |}).
  assert (Hnew : Point_new (x :: y :: rest) mesh_size st
                 = Ok (length (heap_points st), with_points (λ ps, ps ++ [o]) st)).
  { unfold Point_new, o. by destruct rest as [|z [|z' rest]]. }
  assert (Ho : heap_points (with_points (λ ps, ps ++ [o]) st) !! length (heap_points st)
               = Some o).
  { simpl. by rewrite lookup_app_r, Nat.sub_diag. }
  assert (Hp : length (heap_points st) < length (heap_points (with_points (λ ps, ps ++ [o]) st))).
  { by eapply lookup_lt_Some. }
  destruct (Point_before_sync_built kr _ _ Hp) as ([] & st2 & Hrun & B).
  exists (with_points (λ ps, ps ++ [o]) st), st2.
  split; [exact Hnew|]. split; [exact Hrun|].
  unfold Point_before_sync in Hrun.
  unfold mbind, M_bind, get_point, deref in Hrun. rewrite Ho in Hrun.
  simpl in Hrun. unfold modify_point, mutate in Hrun. simpl in Hrun.
  rewrite lookup_app_r, Nat.sub_diag in Hrun by done. simpl in Hrun.
  rewrite list_lookup_insert_eq in Hrun by (rewrite length_app; simpl; lia).
  injection Hrun as <-. simpl. split; [done|].
  rewrite list_lookup_insert_eq by (rewrite length_insert, length_app; simpl; lia). done.
Qed.

(** ** The order of construction *)

(** X6. Constructing a fresh entity ends with the entity's own creation
    call, and every call before it creates an entity of strictly lower
    dimension: dependencies are created first. *)
Theorem dependencies_created_first kr st r :
  wf st → valid st r → constructed st r = false →
  ∃ st' D c,
    before_sync kr r st = Ok (tt, st') ∧
    gmsh_calls st' = gmsh_calls st ++ D ++ [c] ∧
    creation_rank c = Some (rank_of r) ∧
    Forall (λ e, ∃ j, creation_rank e = Some j ∧ j < rank_of r) D.
Proof.
  intros Hwf Hv Hfresh.
  destruct (before_sync_built kr st r Hwf Hv) as ([] & st' & Hrun & B).
  destruct (built_first _ _ _ _ _ B Hfresh) as (D & c & HD & KD & Hc & _).
  exists st', D, c. split; [done|]. split; [done|]. split; [done|].
  eapply Forall_impl; [exact KD|]. intros e He. simpl in He.
  unfold rank_below in He. destruct (creation_rank e) as [j|]; [|done].
  exists j. split; [done|]. by apply Nat.ltb_lt.
Qed.

(** X7. The construction phase keeps the heap closed: if every constructed
    entity had constructed dependencies before, then after it every root is
    constructed, every point under a root is constructed, and every
    constructed entity still has constructed dependencies. *)
Theorem construction_closes_graph kr st rs :
  wf st → Forall (valid st) rs → closed st →
  ∃ st',
    for_ rs (before_sync kr) st = Ok (tt, st') ∧
    closed st' ∧
    (∀ r, r ∈ rs → constructed st' r = true) ∧
    graph_points st rs ⊆ constructed_points st'.
Proof.
  intros Hwf Hrs Hcl.
  destruct (construction_roots_wp kr st rs Hwf Hrs) as ([] & st' & Hrun & G & Hdone).
  destruct G as [(Fr & _ & _) C]. destruct (C Hcl) as [Hcl' _].
  exists st'. split; [done|]. split; [done|]. split; [done|].
  intros p (X & HX & Hp)%elem_of_union_list.
  apply list_elem_of_fmap in HX as (r & -> & Hr).
  rewrite <- (frame_ref_points _ _ _ _ _ Fr) in Hp.
  eapply closed_ref_points; [exact Hcl'| |exact Hp]. by apply Hdone.
Qed.

(** ** Generating twice *)

Lemma construction_noop kr rs : ∀ st,
  wf st → Forall (valid st) rs → (∀ r, r ∈ rs → constructed st r = true) →
  for_ rs (before_sync kr) st = Ok (tt, st).
Proof.
  induction rs as [|r rs IH]; intros st Hwf Hrs Hdone; [done|].
  apply Forall_cons in Hrs as [Hr Hrs].
  rewrite for_cons, before_sync_noop; [|done|done|apply Hdone; by left].
  apply IH; [done|done|]. intros r' Hr'. apply Hdone. by right.
Qed.

Lemma refinement_noop kr rs : ∀ st,
  wf st → Forall (valid st) rs → (∀ r, r ∈ rs → refinement_done st r = true) →
  for_ rs (after_sync kr) st = Ok (tt, st).
Proof.
  induction rs as [|r rs IH]; intros st Hwf Hrs Hdone; [done|].
  apply Forall_cons in Hrs as [Hr Hrs].
  rewrite for_cons, after_sync_noop; [|done|done|apply Hdone; by left].
  apply IH; [done|done|]. intros r' Hr'. apply Hdone. by right.
Qed.

(** X8. Running [generate] a second time on the same roots creates and
    refines nothing again: its only kernel calls are [synchronize], the mesh
    generation and the option, and the heap is left as it was. *)
Theorem generate_again kr st ts :
  wf st → Forall (valid st) (roots ts) →
  ∃ st1 st2,
    Geometry_generate kr ts st = Ok (tt, st1) ∧
    Geometry_generate kr ts st1 = Ok (tt, st2) ∧
    st2 = with_calls
            (λ _, gmsh_calls st1
                    ++ [geo_synchronize; mesh_generate;
                        option_set_number "Mesh.SaveAll" 1%Q]) st1.
Proof.
  intros Hwf Hrs.
  destruct (construction_roots_wp kr st (roots ts) Hwf Hrs)
    as ([] & s1 & Hrun1 & G1 & Hdone1).
  destruct (grows_step _ _ _ _ G1) as (F1 & _ & _).
  set (s1' := with_calls (λ _, gmsh_calls s1 ++ [geo_synchronize]) s1).
  assert (F1' : frame flags_le any_tags st s1').
  { etrans; [exact F1|]. apply (frame_calls flags_le any_tags). }
  pose proof (frame_wf _ _ _ _ F1' Hwf) as Hwf1.
  assert (Hrs1 : Forall (valid s1') (roots ts)).
  { eapply Forall_impl; [exact Hrs|]. intros r. exact (frame_valid _ _ _ _ r F1'). }
  destruct (refinement_roots_wp kr s1' (roots ts) Hwf1 Hrs1)
    as ([] & s2 & Hrun2 & [F2 _] & Hdone2).
  set (s3 := with_calls (λ _, (gmsh_calls s2 ++ [mesh_generate])
                               ++ [option_set_number "Mesh.SaveAll" 1%Q]) s2).
  assert (Hgen : ∀ s sa sb,
            for_ (roots ts) (before_sync kr) s = Ok (tt, sa) →
            for_ (roots ts) (after_sync kr)
              (with_calls (λ _, gmsh_calls sa ++ [geo_synchronize]) sa) = Ok (tt, sb) →
            Geometry_generate kr ts s =
              Ok (tt, with_calls (λ _, (gmsh_calls sb ++ [mesh_generate])
                                        ++ [option_set_number "Mesh.SaveAll" 1%Q]) sb)).
  { intros s sa sb Ha Hb. rewrite Geometry_generate_phases.
    unfold mbind, M_bind. rewrite construction_phase_roots, Ha.
    unfold gmsh_, gmsh, mbind, M_bind, mret, M_ret.
    rewrite refinement_phase_roots, Hb. by rewrite with_calls_twice. }
  assert (F3 : frame refined eq s1' s3).
  { etrans; [exact F2|]. apply (frame_calls refined eq). }
  assert (Hwf3 : wf s3) by (by eapply frame_wf).
  assert (Hrs3 : Forall (valid s3) (roots ts)).
  { eapply Forall_impl; [exact Hrs1|]. intros r. exact (frame_valid _ _ _ _ r F3). }
  assert (Hc3 : ∀ r, r ∈ roots ts → constructed s3 r = true).
  { intros r Hr. eapply frame_constructed; [apply refined_flags_le|exact F3|].
    eapply frame_constructed; [|apply (frame_calls flags_le any_tags)|by apply Hdone1].
    auto. }
  assert (Hr3 : ∀ r, r ∈ roots ts → refinement_done s3 r = true).
  { intros r Hr. eapply frame_refinement_done;
      [apply refined_flags_le|apply (frame_calls refined eq)|by apply Hdone2]. }
  set (s4 := with_calls (λ _, gmsh_calls s3 ++ [geo_synchronize]) s3).
  assert (F4 : frame refined eq s3 s4) by apply (frame_calls refined eq).
  exists s3, (with_calls (λ _, (gmsh_calls s4 ++ [mesh_generate])
                                ++ [option_set_number "Mesh.SaveAll" 1%Q]) s4).
  split; [by apply (Hgen st s1 s2)|]. split.
  - apply (Hgen s3 s3 s4).
    + by apply construction_noop.
    + apply refinement_noop; [by eapply frame_wf| |].
      * eapply Forall_impl; [exact Hrs3|]. intros r. exact (frame_valid _ _ _ _ r F4).
      * intros r Hr. eapply frame_refinement_done;
          [apply refined_flags_le|exact F4|by apply Hr3].
  - unfold s4. rewrite !with_calls_twice. simpl. by rewrite <- !app_assoc.
Qed.

(** ** The calls of a boundary layer and of a plane surface *)

(** X9. Refining a fresh [BoundaryLayer] first adds a "BoundaryLayer" field,
    then sets its "CurvesList" to the [line_tags] of the loop it is refined
    for, then sets numbers of that field only, and last marks it as the
    boundary layer; the tag the kernel returned for the field is the one
    every call uses and the one the field keeps. *)
Theorem boundary_layer_calls kr st f c o bl lp :
  heap_fields st !! f = Some o → Field_layer o = Some bl →
  after_sync_initiated (Field_base o) = false →
  heap_loops st !! c = Some lp →
  ∃ st' t mid,
    Field_after_sync kr f c st = Ok (tt, st') ∧
    t = kr (gmsh_calls st ++ [field_add "BoundaryLayer"]) ∧
    gmsh_calls st' =
      gmsh_calls st
        ++ [field_add "BoundaryLayer";
            field_setNumbers t "CurvesList" (CurveLoop_line_tags lp)]
        ++ mid ++ [field_setAsBoundaryLayer t] ∧
    Forall (λ e, ∃ key v, e = field_setNumber t key v) mid ∧
    base_of st' (RField f)
      = Some {| tag := Some t; before_sync_initiated := before_sync_initiated (Field_base o);
                after_sync_initiated := true |}.
Proof.
  intros Ho Hbl Hfresh Hlp.
  assert (Hf : f < length (heap_fields st)) by (by eapply lookup_lt_Some).
  eexists _, _, _. split; [by eapply Field_after_sync_run|].
  split; [reflexivity|].
  unfold field_refinement, field_refined. rewrite Hbl, Hfresh.
  split; [|split].
  - simpl. unfold layer_refinement. simpl. do 3 f_equal.
    rewrite !app_assoc. reflexivity.
  - repeat (apply Forall_app; split);
      match goal with |- context [if ?b then _ else _] => destruct b end;
      repeat constructor; by eexists _, _.
  - simpl. by rewrite list_lookup_insert_eq.
Qed.

(** ** Label aggregation in general *)

Lemma has_key_elem k (d : LineGroups) : has_key k d = true ↔ k ∈ fst <$> d.
Proof.
  unfold has_key. induction d as [|[k' ts] d IH]; simpl.
  - split; [done|]. intros H. by apply elem_of_nil in H.
  - rewrite orb_true_iff, IH, elem_of_cons, String.eqb_eq. split; intros [?|?]; auto.
Qed.

Lemma append_to_key_keys k t (d : LineGroups) :
  fst <$> append_to_key k t d = fst <$> d.
Proof.
  induction d as [|[k' ts] d IH]; simpl; [done|].
  destruct (String.eqb k' k); simpl; [done|]. f_equal. exact IH.
Qed.

Lemma elem_of_append_to_key k t (d : LineGroups) k' ts :
  NoDup (fst <$> d) →
  (k', ts) ∈ append_to_key k t d ↔
    (k' ≠ k ∧ (k', ts) ∈ d) ∨ (k' = k ∧ ∃ ts0, (k, ts0) ∈ d ∧ ts = ts0 ++ [t]).
Proof.
  induction d as [|[k1 ts1] d IH]; simpl; intros Hnd.
  - split; [intros H; by apply elem_of_nil in H|].
    intros [[_ H]|[_ (ts0 & H & _)]]; by apply elem_of_nil in H.
  - apply NoDup_cons in Hnd as [Hk1 Hnd].
    destruct (String.eqb k1 k) eqn:E.
    + apply String.eqb_eq in E. subst k1. rewrite !elem_of_cons. split.
      * intros [H|H].
        -- simplify_eq. right. split; [done|]. exists ts1. split; [by left|done].
        -- left. split; [|by right]. intros ->. apply Hk1.
           apply list_elem_of_fmap. by exists (k, ts).
      * intros [[Hne [H|H]]|[-> (ts0 & [H|H]%elem_of_cons & ->)]].
        -- by simplify_eq.
        -- by right.
        -- simplify_eq. by left.
        -- exfalso. apply Hk1. apply list_elem_of_fmap. by exists (k, ts0).
    + apply String.eqb_neq in E. rewrite !elem_of_cons, (IH Hnd). split.
      * intros [H|[[Hne H]|[-> (ts0 & H & ->)]]].
        -- simplify_eq. left. split; [done|by left].
        -- left. split; [done|by right].
        -- right. split; [done|]. exists ts0. split; [by right|done].
      * intros [[Hne [H|H]]|[-> (ts0 & [H|H]%elem_of_cons & ->)]].
        -- by left.
        -- right. left. done.
        -- by simplify_eq.
        -- right. right. split; [done|]. by exists ts0.
Qed.

Lemma tags_labelled_snoc k pairs p :
  tags_labelled k (pairs ++ [p])
  = tags_labelled k pairs ++ (if has_label k p then [snd p] else []).
Proof.
  unfold tags_labelled. rewrite filter_app, fmap_app. f_equal.
  destruct (has_label k p) eqn:E.
  - by rewrite filter_cons_True.
  - rewrite filter_cons_False; [done|congruence].
Qed.

Lemma line_groups_snoc pairs p :
  line_groups (pairs ++ [p]) = group_line (line_groups pairs) (fst p) (snd p).
Proof. unfold line_groups. by rewrite foldl_app. Qed.

(** The dictionary after the first loop: its keys are distinct, and it holds
    [k] with the tags [ts] exactly when [k] is not empty and [ts] is the list,
    not empty, of the tags of the lines labelled [k]. *)
Lemma line_groups_spec pairs :
  NoDup (fst <$> line_groups pairs) ∧
  ∀ k ts, (k, ts) ∈ line_groups pairs ↔
          k ≠ "" ∧ ts = tags_labelled k pairs ∧ ts ≠ [].
Proof.
  induction pairs as [|[lab t] pairs [IHnd IH]] using rev_ind.
  - split; [constructor|]. intros k ts. split; [intros H; by apply elem_of_nil in H|].
    intros (_ & -> & H). done.
  - rewrite line_groups_snoc. simpl.
    set (G := line_groups pairs) in *.
    unfold group_line.
    destruct (truthy_str lab) eqn:Elab.
    + destruct lab as [k0|]; [|done]. simpl in Elab.
      apply negb_true_iff, String.eqb_neq in Elab. simpl.
      assert (Hstep : ∀ G0 : LineGroups,
                NoDup (fst <$> G0) → k0 ∈ fst <$> G0 →
                (∀ k ts, k ≠ k0 → (k, ts) ∈ G0 ↔ (k, ts) ∈ G) →
                (∀ ts0, (k0, ts0) ∈ G0 ↔ ts0 = tags_labelled k0 pairs) →
                NoDup (fst <$> append_to_key k0 t G0) ∧
                ∀ k ts, (k, ts) ∈ append_to_key k0 t G0 ↔
                        k ≠ "" ∧ ts = tags_labelled k (pairs ++ [(Some k0, t)]) ∧ ts ≠ []).
      { intros G0 Hnd Hin Hother Hown. split; [by rewrite append_to_key_keys|].
        intros k ts. rewrite (elem_of_append_to_key _ _ _ _ _ Hnd), tags_labelled_snoc.
        unfold has_label. simpl. split.
        - intros [[Hne H]|[-> (ts0 & H & ->)]].
          + apply (Hother _ _ Hne), IH in H as (? & -> & ?).
            assert (String.eqb k0 k = false) as -> by (apply String.eqb_neq; congruence).
            by rewrite app_nil_r.
          + apply Hown in H as ->. rewrite String.eqb_refl.
            split; [done|]. split; [done|]. by destruct (tags_labelled k0 pairs).
        - intros (Hk & -> & Hts). destruct (String.eqb k0 k) eqn:E.
          + apply String.eqb_eq in E as <-. right. split; [done|].
            exists (tags_labelled k0 pairs). split; [by apply Hown|done].
          + apply String.eqb_neq in E. rewrite app_nil_r in *. left.
            split; [congruence|]. apply Hother; [congruence|]. by apply IH. }
      destruct (has_key k0 G) eqn:Ekey.
      * apply has_key_elem in Ekey. apply Hstep; [done|done|done|].
        intros ts0. split.
        -- intros H. by apply IH in H as (_ & -> & _).
        -- intros ->. apply list_elem_of_fmap in Ekey as ([k' ts'] & -> & H).
           pose proof H as H'. apply IH in H' as (_ & -> & _). done.
      * assert (Hnot : k0 ∉ fst <$> G).
        { intros H. apply has_key_elem in H. congruence. }
        assert (Hempty : tags_labelled k0 pairs = []).
        { destruct (tags_labelled k0 pairs) as [|t0 ts0] eqn:E; [done|].
          exfalso. apply Hnot. apply list_elem_of_fmap. exists (k0, t0 :: ts0).
          split; [done|]. apply IH. rewrite E. done. }
        apply Hstep.
        -- rewrite fmap_app. simpl. apply NoDup_app. split; [done|].
           split; [|apply NoDup_singleton]. intros k Hk ->%list_elem_of_singleton. done.
        -- rewrite fmap_app. apply elem_of_app. right. by left.
        -- intros k ts Hne. rewrite elem_of_app, list_elem_of_singleton.
           split; [intros [?|?]; [done|congruence]|by left].
        -- intros ts0. rewrite elem_of_app, list_elem_of_singleton, Hempty. split.
           ++ intros [H|H]; [|congruence]. exfalso. apply Hnot.
              apply list_elem_of_fmap. by exists (k0, ts0).
           ++ intros ->. by right.
    + split; [done|]. intros k ts. rewrite IH, tags_labelled_snoc.
      assert (k ≠ "" → has_label k (lab, t) = false) as Hfalse.
      { intros Hk. unfold has_label. simpl. destruct lab as [k0|]; [|done].
        simpl in Elab. apply negb_false_iff, String.eqb_eq in Elab as ->.
        apply String.eqb_neq. congruence. }
      split; intros (Hk & Hts & Hne); (split; [done|]); rewrite (Hfalse Hk) in *;
        rewrite app_nil_r in *; done.
Qed.

(** The groups and the names a trace creates. *)
Definition groups_created (D : list GmshCall) : list (Z * list (option Z)) :=
  omap (λ c, match c with add_physical_group dim ts => Some (dim, ts) | _ => None end) D.

Definition names_given (D : list GmshCall) : list string :=
  omap (λ c, match c with set_physical_name _ _ name => Some name | _ => None end) D.

Lemma groups_created_app D1 D2 :
  groups_created (D1 ++ D2) = groups_created D1 ++ groups_created D2.
Proof. apply omap_app. Qed.

Lemma names_given_app D1 D2 : names_given (D1 ++ D2) = names_given D1 ++ names_given D2.
Proof. apply omap_app. Qed.

Lemma no_group_calls D :
  Forall (λ e, is_physical_group e = false) D → groups_created D = [] ∧ names_given D = [].
Proof.
  induction 1 as [|e D He _ [IH1 IH2]]; [done|].
  unfold groups_created, names_given in *.
  destruct e; simpl in He; try discriminate He; simpl; by split.
Qed.

Lemma groups_created_group_calls kr pre (d : LineGroups) :
  groups_created (group_calls kr pre d) = (λ kv, (1%Z, snd kv)) <$> d ∧
  names_given (group_calls kr pre d) = fst <$> d.
Proof.
  revert pre. induction d as [|kv d IH]; intros pre; [done|].
  simpl. destruct (IH (pre ++ [add_physical_group 1 (snd kv);
                               set_physical_name 1
                                 (kr (pre ++ [add_physical_group 1 (snd kv)])) (fst kv)]))
    as [-> ->]. done.
Qed.

(** A group of the dictionary is created and named by two calls in a row. *)
Lemma group_calls_named kr (d : LineGroups) kv : ∀ pre,
  kv ∈ d → ∃ a b, group_calls kr pre d = a ++ named_group kr (pre ++ a) kv ++ b.
Proof.
  induction d as [|kv0 d IH]; intros pre Hin; [by apply elem_of_nil in Hin|].
  apply elem_of_cons in Hin as [->|Hin].
  - exists [], (group_calls kr (pre ++ named_group kr pre kv0) d).
    simpl. by rewrite app_nil_r.
  - destruct (IH (pre ++ named_group kr pre kv0) Hin) as (a & b & E).
    exists (named_group kr pre kv0 ++ a), b.
    simpl. unfold named_group in E at 1. simpl in E. rewrite E.
    by rewrite <- !app_assoc.
Qed.

(** X10. Refining a fresh [CurveLoop] first refines its lines in loop
    order and then creates one physical group per distinct non-empty label
    of its lines, at curve dimension, holding the tags of all the lines that
    carry the label, in loop order; each group is named, by the call that
    follows its creation, with its label under the tag the kernel returned
    for it.  Lines with no label or with the empty string as label are in
    no group, and no other call creates or names a group. *)
Theorem curve_loop_groups_by_label kr st c o :
  wf st → heap_loops st !! c = Some o →
  after_sync_initiated (CurveLoop_base o) = false →
  ∃ st' s1 D1 D3 (groups : LineGroups),
    CurveLoop_after_sync kr c st = Ok (tt, st') ∧
    for_ (CurveLoop_lines o) (Line_after_sync kr) st = Ok (tt, s1) ∧
    gmsh_calls s1 = gmsh_calls st ++ D1 ∧
    new_calls st st' = D1 ++ group_calls kr (gmsh_calls st ++ D1) groups ++ D3 ∧
    Forall (λ e, is_physical_group e = false) D1 ∧
    Forall (λ e, is_physical_group e = false) D3 ∧
    (∀ kv, kv ∈ groups →
       ∃ mid rest,
         new_calls st st' = mid ++ named_group kr (gmsh_calls st ++ mid) kv ++ rest) ∧
    groups_created (new_calls st st') = (λ kv, (1%Z, snd kv)) <$> groups ∧
    names_given (new_calls st st') = fst <$> groups ∧
    NoDup (fst <$> groups) ∧
    ∀ k ts, (k, ts) ∈ groups ↔
            k ≠ "" ∧ ts = tags_labelled k (line_pair st <$> CurveLoop_lines o) ∧ ts ≠ [].
Proof.
  intros Hwf Ho Hfresh.
  assert (Hc : c < length (heap_loops st)) by (by eapply lookup_lt_Some).
  destruct (wf_loop_at _ _ _ Hwf Ho) as [Hls _].
  destruct (CurveLoop_after_sync_wp kr st c Hwf Hc) as ([] & st' & Hrun & _).
  destruct (CurveLoop_after_sync_post kr c st _ _ Hrun o Ho Hfresh)
    as (s1 & D3 & Hlines & Hcalls & K3 & _ & _).
  destruct (lines_refined_wp kr st _ Hls)
    as ([] & s1' & Hlines' & [_ (D1 & E1 & K1)] & _).
  rewrite Hlines in Hlines'. injection Hlines' as <-.
  set (pairs := line_pair st <$> CurveLoop_lines o) in *.
  destruct (line_groups_spec pairs) as [Hnd Hspec].
  rewrite E1 in Hcalls.
  assert (Hnew : new_calls st st'
                 = D1 ++ group_calls kr (gmsh_calls st ++ D1) (line_groups pairs) ++ D3).
  { unfold new_calls. rewrite Hcalls, <- app_assoc. by rewrite drop_app_length. }
  assert (N1 : Forall (λ e, is_physical_group e = false) D1).
  { eapply Forall_impl; [exact K1|]. intros e He. simpl in He. by destruct e. }
  assert (N3 : Forall (λ e, is_physical_group e = false) D3).
  { eapply Forall_impl; [exact K3|]. intros e He. simpl in He. by destruct e. }
  destruct (groups_created_group_calls kr (gmsh_calls st ++ D1) (line_groups pairs))
    as [Hg Hn].
  destruct (no_group_calls D1 N1) as [Hg1 Hn1].
  destruct (no_group_calls D3 N3) as [Hg3 Hn3].
  exists st', s1, D1, D3, (line_groups pairs).
  split; [done|]. split; [done|]. split; [done|]. split; [done|].
  split; [done|]. split; [done|]. split.
  { intros kv Hkv.
    destruct (group_calls_named kr _ kv (gmsh_calls st ++ D1) Hkv) as (a & b & E).
    exists (D1 ++ a), (b ++ D3). rewrite Hnew, E. by rewrite <- !app_assoc. }
  rewrite Hnew, !groups_created_app, !names_given_app, Hg, Hn, Hg1, Hn1, Hg3, Hn3.
  by rewrite !app_nil_r.
Qed.


(** ** What [get_points_and_lines] allocates *)

(** [extends Ppt Pln st st']: the heap of [st'] is that of [st] with new
    points that satisfy [Ppt] and new lines that satisfy [Pln] appended; no
    other object and no kernel call is added or changed. *)
Definition extends (Ppt : Point → Prop) (Pln : Line → Prop) (st st' : State) : Prop :=
  ∃ ps ls,
    heap_points st' = heap_points st ++ ps ∧ heap_lines st' = heap_lines st ++ ls ∧
    Forall Ppt ps ∧ Forall Pln ls ∧
    heap_loops st' = heap_loops st ∧ heap_surfaces st' = heap_surfaces st ∧
    heap_fields st' = heap_fields st ∧ gmsh_calls st' = gmsh_calls st.

(** [yields V Ppt Pln m]: when [m] returns, its value satisfies [V] and it
    has only extended the heap. *)
Definition yields {A} (V : A → Prop) (Ppt : Point → Prop) (Pln : Line → Prop) (m : M A)
  : Prop :=
  ∀ st a st', m st = Ok (a, st') → V a ∧ extends Ppt Pln st st'.

Section Yields.

Context (Ppt : Point → Prop) (Pln : Line → Prop).

Lemma extends_refl st : extends Ppt Pln st st.
Proof. exists [], []. rewrite !app_nil_r. repeat split; constructor. Qed.

Lemma extends_trans st1 st2 st3 :
  extends Ppt Pln st1 st2 → extends Ppt Pln st2 st3 → extends Ppt Pln st1 st3.
Proof.
  intros (ps & ls & Hp & Hl & Fp & Fl & Hc & Hs & Hf & Hg)
         (ps' & ls' & Hp' & Hl' & Fp' & Fl' & Hc' & Hs' & Hf' & Hg').
  exists (ps ++ ps'), (ls ++ ls').
  rewrite Hp', Hp, Hl', Hl, !app_assoc.
  repeat split; try congruence; by apply Forall_app.
Qed.

Lemma yields_ret {A} (V : A → Prop) a : V a → yields V Ppt Pln (mret a).
Proof. intros HV st a' st' H. injection H as <- <-. split; [done|apply extends_refl]. Qed.

Lemma yields_raise {A} (V : A → Prop) e : yields V Ppt Pln (raise e).
Proof. intros st a st' H. discriminate H. Qed.

Lemma yields_bind {A B} (V : A → Prop) (W : B → Prop) (m : M A) (f : A → M B) :
  yields V Ppt Pln m → (∀ a, V a → yields W Ppt Pln (f a)) →
  yields W Ppt Pln (m ≫= f).
Proof.
  intros Hm Hf st b st' H. unfold mbind, M_bind in H.
  destruct (m st) as [[a s1]|e] eqn:E; [|done].
  destruct (Hm _ _ _ E) as [Ha H1]. destruct (Hf a Ha _ _ _ H) as [Hb H2].
  split; [done|]. by eapply extends_trans.
Qed.

Lemma yields_weaken {A} (V W : A → Prop) (m : M A) :
  yields V Ppt Pln m → (∀ a, V a → W a) → yields W Ppt Pln m.
Proof. intros Hm HVW st a st' H. destruct (Hm _ _ _ H). auto. Qed.

Lemma yields_index {A} (xs : list A) i : yields (λ a, a ∈ xs) Ppt Pln (index xs i).
Proof.
  intros st a st' H. unfold index in H. destruct (xs !! i) as [x|] eqn:E; [|done].
  injection H as <- <-. split; [by eapply list_elem_of_lookup_2|apply extends_refl].
Qed.

Lemma yields_pick {A} (a : OneOrList A) i :
  yields (λ v, match a with Scalar s => v = s | PyList l => v ∈ l end) Ppt Pln (pick a i).
Proof. destruct a as [s|l]; simpl; [by apply yields_ret | apply yields_index]. Qed.

Lemma yields_alloc_point o : Ppt o → yields (λ _, True) Ppt Pln (alloc_point o).
Proof.
  intros Ho st a st' H. injection H as <- <-. split; [done|].
  exists [o], []. simpl. rewrite app_nil_r. repeat split; by repeat constructor.
Qed.

Lemma yields_alloc_line o : Pln o → yields (λ _, True) Ppt Pln (alloc_line o).
Proof.
  intros Ho st a st' H. injection H as <- <-. split; [done|].
  exists [], [o]. simpl. rewrite app_nil_r. repeat split; by repeat constructor.
Qed.

Lemma yields_for_acc {A B} (xs : list A) (body : B → A → M B) :
  (∀ acc x, yields (λ _, True) Ppt Pln (body acc x)) →
  ∀ acc, yields (λ _, True) Ppt Pln (for_acc xs acc body).
Proof.
  intros Hbody. induction xs as [|x xs IH]; intros acc; simpl.
  - by apply yields_ret.
  - eapply yields_bind; [apply Hbody|]. intros acc' _. apply IH.
Qed.

End Yields.

(** A point as [Point(coord, mesh_size)] leaves it: no label, no tag, no
    phase done. *)
Definition new_point (o : Point) : Prop :=
  Point_label o = None ∧ Point_base o = MeshTransaction_init.

(** A line as the helper builds it from its arguments. *)
Definition helper_line (labels : option (OneOrList string))
    (cell_counts : option (OneOrList Z)) (mesh_types : option (OneOrList string))
    (mesh_coeffs : option (OneOrList float)) (o : Line) : Prop :=
  Line_base o = MeshTransaction_init ∧
  (* the label *)
  (truthy_arg nonempty labels = false → Line_label o = None) ∧
  (∀ s, labels = Some (Scalar s) → s ≠ "" → Line_label o = Some s) ∧
  (∀ l, labels = Some (PyList l) → l ≠ [] → ∃ s, s ∈ l ∧ Line_label o = Some s) ∧
  (* the class *)
  (truthy_arg nonzeroZ cell_counts = false → Line_transfinite o = None) ∧
  (truthy_arg nonzeroZ cell_counts = true →
   ∃ tl, Line_transfinite o = Some tl ∧
         (∀ n, cell_counts = Some (Scalar n) → cell_count tl = n) ∧
         (∀ l, cell_counts = Some (PyList l) → cell_count tl ∈ l) ∧
         (truthy_arg nonempty mesh_types = false → mesh_type tl = "Progression") ∧
         (∀ s, mesh_types = Some (Scalar s) → s ≠ "" → mesh_type tl = s) ∧
         (truthy_arg nonzeroQ mesh_coeffs = false → coeff tl = 1%Q) ∧
         (∀ q, mesh_coeffs = Some (Scalar q) → Qeq_bool q 0%Q = false → coeff tl = q)).

Lemma Point_new_yields Pln coord mesh_size :
  yields (λ _, True) new_point Pln (Point_new coord mesh_size).
Proof.
  unfold Point_new.
  eapply yields_bind; [apply yields_index|]. intros x _.
  eapply yields_bind; [apply yields_index|]. intros y _.
  eapply (yields_bind _ _ (λ _, True)).
  { destruct (length coord =? 3); [eapply yields_weaken; [apply yields_index|done]|].
    by apply yields_ret. }
  intros z _. by apply yields_alloc_point.
Qed.

Lemma get_points_and_lines_line_yields labels cell_counts mesh_types mesh_coeffs
    points point line_index i :
  yields (λ _, True) new_point (helper_line labels cell_counts mesh_types mesh_coeffs)
    (get_points_and_lines_line labels cell_counts mesh_types mesh_coeffs
       points point line_index i).
Proof.
  unfold get_points_and_lines_line.
  eapply (yields_bind _ _
            (λ label,
               (truthy_arg nonempty labels = false → label = None) ∧
               (∀ s, labels = Some (Scalar s) → s ≠ "" → label = Some s) ∧
               (∀ l, labels = Some (PyList l) → l ≠ [] → ∃ s, s ∈ l ∧ label = Some s))).
  { destruct (truthy_arg nonempty labels) eqn:E.
    - destruct labels as [a|]; [|done].
      eapply yields_bind; [apply yields_pick|]. intros v Hv. apply yields_ret.
      split; [done|]. split.
      + intros s [= ->] _. by rewrite Hv.
      + intros l [= ->] _. by exists v.
    - apply yields_ret. split; [done|]. split.
      + intros s -> Hs. simpl in E. unfold nonempty in E.
        apply negb_false_iff, String.eqb_eq in E. done.
      + intros l -> Hl. simpl in E. apply negb_false_iff, bool_decide_eq_true in E.
        by destruct l. }
  intros label (Hl1 & Hl2 & Hl3).
  eapply yields_bind; [apply yields_index|]. intros start _.
  destruct (truthy_arg nonzeroZ cell_counts) eqn:Ecc.
  - eapply (yields_bind _ _
              (λ n, (∀ n', cell_counts = Some (Scalar n') → n = n') ∧
                    (∀ l, cell_counts = Some (PyList l) → n ∈ l))).
    { destruct cell_counts as [a|]; [|apply yields_raise].
      eapply yields_weaken; [apply yields_pick|]. intros v Hv. split.
      - intros n' [= ->]. done.
      - intros l [= ->]. done. }
    intros n [Hn1 Hn2].
    eapply (yields_bind _ _
              (λ ty, (truthy_arg nonempty mesh_types = false → ty = "Progression") ∧
                     (∀ s, mesh_types = Some (Scalar s) → s ≠ "" → ty = s))).
    { destruct (truthy_arg nonempty mesh_types) eqn:E.
      - destruct mesh_types as [a|]; [|apply yields_raise].
        eapply yields_weaken; [apply yields_pick|]. intros v Hv. split; [done|].
        intros s [= ->] _. done.
      - apply yields_ret. split; [done|]. intros s -> Hs. simpl in E.
        unfold nonempty in E. apply negb_false_iff, String.eqb_eq in E. done. }
    intros ty [Ht1 Ht2].
    eapply (yields_bind _ _
              (λ cf, (truthy_arg nonzeroQ mesh_coeffs = false → cf = 1%Q) ∧
                     (∀ q, mesh_coeffs = Some (Scalar q) → Qeq_bool q 0%Q = false → cf = q))).
    { destruct (truthy_arg nonzeroQ mesh_coeffs) eqn:E.
      - destruct mesh_coeffs as [a|]; [|apply yields_raise].
        eapply yields_weaken; [apply yields_pick|]. intros v Hv. split; [done|].
        intros q [= ->] _. done.
      - apply yields_ret. split; [done|]. intros q -> Hq. simpl in E.
        unfold nonzeroQ in E. rewrite Hq in E. done. }
    intros cf [Hc1 Hc2].
    apply yields_alloc_line. unfold helper_line. simpl.
    split; [done|]. split; [done|]. split; [done|]. split; [done|].
    split; [congruence|]. intros _. eexists. split; [reflexivity|]. simpl. auto 10.
  - apply yields_alloc_line. unfold helper_line. simpl.
    split; [done|]. split; [done|]. split; [done|]. split; [done|].
    split; [done|]. congruence.
Qed.

Lemma get_points_and_lines_yields coords mesh_size labels cell_counts mesh_types mesh_coeffs :
  yields (λ _, True) new_point (helper_line labels cell_counts mesh_types mesh_coeffs)
    (get_points_and_lines coords mesh_size labels cell_counts mesh_types mesh_coeffs).
Proof.
  unfold get_points_and_lines.
  eapply yields_bind; [|intros loc _; by apply yields_ret].
  apply yields_for_acc. intros loc i. unfold get_points_and_lines_body.
  eapply yields_bind; [apply yields_pick|]. intros ms _.
  eapply (yields_bind _ _ (λ _, True)).
  { unfold get_points_and_lines_point. destruct (i =? length coords).
    - eapply yields_bind; [apply yields_index|]. intros p _. by apply yields_ret.
    - eapply yields_bind; [apply yields_index|]. intros coord _.
      eapply yields_bind; [apply Point_new_yields|]. intros p _. by apply yields_ret. }
  intros [point points] _.
  destruct (0 <? i).
  - eapply yields_bind; [apply get_points_and_lines_line_yields|].
    intros line _. by apply yields_ret.
  - by apply yields_ret.
Qed.

(** X11. [get_points_and_lines] only builds the description: it makes no
    kernel call, leaves every object that exists untouched, and the [n]
    points and [n] lines it returns are new objects with no tag and neither
    phase done. *)
Theorem get_points_and_lines_builds_only coords mesh_size labels cell_counts mesh_types
    mesh_coeffs st :
  1 ≤ length coords →
  Forall (λ row, 2 ≤ length row) coords →
  is_Some (first_mesh_size mesh_size) →
  covers (length coords) labels → covers (length coords) cell_counts →
  covers (length coords) mesh_types → covers (length coords) mesh_coeffs →
  ∃ points lines st' ps ls,
    get_points_and_lines coords mesh_size labels cell_counts mesh_types mesh_coeffs st
      = Ok ((points, lines), st') ∧
    gmsh_calls st' = gmsh_calls st ∧
    heap_points st' = heap_points st ++ ps ∧ length ps = length coords ∧
    heap_lines st' = heap_lines st ++ ls ∧ length ls = length coords ∧
    heap_loops st' = heap_loops st ∧ heap_surfaces st' = heap_surfaces st ∧
    heap_fields st' = heap_fields st ∧
    points = seq (length (heap_points st)) (length coords) ∧
    lines = seq (length (heap_lines st)) (length coords) ∧
    Forall (λ o, Point_base o = MeshTransaction_init) ps ∧
    Forall (λ o, Line_base o = MeshTransaction_init) ls.
Proof.
  intros Hn Hrows [m0 Hm0] Cl Cc Ct Cf.
  destruct (helper_run coords labels cell_counts mesh_types mesh_coeffs st m0
              Hrows Cl Cc Ct Cf mesh_size Hn Hm0)
    as ([points lines] & st' & Hrun & loc & -> & -> & Hinv).
  destruct Hinv as [_ Hpts Hlns _ Hhp Hhl _ _].
  destruct (get_points_and_lines_yields _ _ _ _ _ _ _ _ _ Hrun)
    as (_ & ps & ls & Hp & Hl & Fp & Fl & Hc & Hs & Hf & Hg).
  exists (loc_points loc), (loc_lines loc), st', ps, ls.
  split; [done|]. split; [done|]. split; [done|]. split.
  { rewrite Hp, length_app in Hhp. lia. }
  split; [done|]. split.
  { rewrite Hl, length_app in Hhl. lia. }
  split; [done|]. split; [done|]. split; [done|]. split; [done|]. split; [done|].
  split.
  - eapply Forall_impl; [exact Fp|]. by intros o [_ ?].
  - eapply Forall_impl; [exact Fl|]. by intros o [? _].
Qed.

(** X12. The lines [get_points_and_lines] returns are plain [Line]s when
    [cell_counts] is omitted, zero or an empty list, and [TransfiniteLine]s
    otherwise, with "Progression" as grading type when [mesh_types] is
    omitted or empty and 1.0 as coefficient when [mesh_coeffs] is omitted or
    zero; a line has no label when [labels] is omitted or empty, and the
    label itself when [labels] is one non-empty string. *)
Theorem get_points_and_lines_line_kinds coords mesh_size labels cell_counts mesh_types
    mesh_coeffs st points lines st' :
  get_points_and_lines coords mesh_size labels cell_counts mesh_types mesh_coeffs st
    = Ok ((points, lines), st') →
  ∃ ls,
    heap_lines st' = heap_lines st ++ ls ∧
    (truthy_arg nonzeroZ cell_counts = false →
     Forall (λ o, Line_transfinite o = None) ls) ∧
    (truthy_arg nonzeroZ cell_counts = true →
     Forall (λ o, ∃ tl, Line_transfinite o = Some tl ∧
                        (truthy_arg nonempty mesh_types = false →
                         mesh_type tl = "Progression") ∧
                        (truthy_arg nonzeroQ mesh_coeffs = false → coeff tl = 1%Q) ∧
                        (∀ n, cell_counts = Some (Scalar n) → cell_count tl = n)) ls) ∧
    (truthy_arg nonempty labels = false → Forall (λ o, Line_label o = None) ls) ∧
    (∀ s, labels = Some (Scalar s) → s ≠ "" → Forall (λ o, Line_label o = Some s) ls).
Proof.
  intros Hrun.
  destruct (get_points_and_lines_yields _ _ _ _ _ _ _ _ _ Hrun)
    as (_ & ps & ls & Hp & Hl & Fp & Fl & _).
  exists ls. split; [done|].
  split; [|split; [|split]].
  - intros H. eapply Forall_impl; [exact Fl|]. intros o (_ & _ & _ & _ & Hpl & _). auto.
  - intros H. eapply Forall_impl; [exact Fl|].
    intros o (_ & _ & _ & _ & _ & Htl).
    destruct (Htl H) as (tl & Htf & Hn & _ & Hty & _ & Hcf & _).
    exists tl. auto.
  - intros H. eapply Forall_impl; [exact Fl|]. intros o (_ & Hno & _). auto.
  - intros s Hs Hne. eapply Forall_impl; [exact Fl|]. intros o (_ & _ & Hsc & _). auto.
Qed.

(** ** Tags in the construction phase *)

(** What the construction phase does to one object: nothing, or it was
    fresh and is now constructed, with a tag. *)
Definition made1 {A} (base : A → MeshTransaction) (x y : A) : Prop :=
  y = x ∨ (before_sync_initiated (base x) = false ∧
           before_sync_initiated (base y) = true ∧ is_Some (tag (base y))).

#[global] Instance made1_refl {A} (base : A → MeshTransaction) : Reflexive (made1 base).
Proof. intros x. by left. Qed.

#[global] Instance made1_trans {A} (base : A → MeshTransaction) : Transitive (made1 base).
Proof.
  intros x y z [->|(Hx & Hy & Ht)] [->|(Hy' & Hz & Ht')].
  - by left.
  - by right.
  - by right.
  - congruence.
Qed.

Definition made {A} (base : A → MeshTransaction) (xs ys : list A) : Prop :=
  Forall2 (made1 base) xs ys.

(** [made_all st st']: every point, line, loop and surface of [st] is in
    [st'] as it was, or was fresh and is constructed and tagged in [st']. *)
Record made_all (st st' : State) : Prop := {
  ma_points : made Point_base (heap_points st) (heap_points st');
  ma_lines : made Line_base (heap_lines st) (heap_lines st');
  ma_loops : made CurveLoop_base (heap_loops st) (heap_loops st');
  ma_surfaces : made PlaneSurface_base (heap_surfaces st) (heap_surfaces st')
}.

Lemma made_refl {A} (base : A → MeshTransaction) xs : made base xs xs.
Proof. apply Forall2_refl_list, _. Qed.

Lemma made_eq {A} (base : A → MeshTransaction) xs ys : ys = xs → made base xs ys.
Proof. intros ->. apply made_refl. Qed.

Lemma made_trans {A} (base : A → MeshTransaction) xs ys zs :
  made base xs ys → made base ys zs → made base xs zs.
Proof. apply Forall2_trans_list, _. Qed.

#[global] Instance made_all_refl : Reflexive made_all.
Proof. intros st. split; apply made_refl. Qed.

#[global] Instance made_all_trans : Transitive made_all.
Proof. intros a b c [] []. split; eapply made_trans; eauto. Qed.

Lemma made_insert {A} (base : A → MeshTransaction) xs i x y :
  xs !! i = Some x → made1 base x y → made base xs (<[i := y]> xs).
Proof. intros Hi H. eapply Forall2_overwrite; [apply _|exact Hi|exact H]. Qed.

(** A constructed object is kept as it is. *)
Lemma made_kept {A} (base : A → MeshTransaction) xs ys i x :
  made base xs ys → xs !! i = Some x → before_sync_initiated (base x) = true →
  ys !! i = Some x.
Proof.
  intros H Hi Hx. destruct (Forall2_lookup_l _ _ _ _ _ H Hi) as (y & Hy & [->|(Hf & _)]).
  - done.
  - congruence.
Qed.

Lemma made_length {A} (base : A → MeshTransaction) xs ys :
  made base xs ys → length ys = length xs.
Proof. intros H. symmetry. by eapply Forall2_length. Qed.

(** The tag an entity carries, [None] while it has none. *)
Definition tag_at (st : State) (r : Ref) : option Z := base_of st r ≫= tag.

Lemma made_tag_points st st' p :
  made Point_base (heap_points st) (heap_points st') →
  constructed st (RPoint p) = true → tag_at st' (RPoint p) = tag_at st (RPoint p).
Proof.
  intros H Hc. unfold constructed, tag_at in *. simpl in *.
  destruct (heap_points st !! p) as [o|] eqn:E; [|done]. simpl in Hc.
  by rewrite (made_kept _ _ _ _ _ H E Hc).
Qed.

Lemma made_tag_lines st st' l :
  made Line_base (heap_lines st) (heap_lines st') →
  constructed st (RLine l) = true → tag_at st' (RLine l) = tag_at st (RLine l).
Proof.
  intros H Hc. unfold constructed, tag_at in *. simpl in *.
  destruct (heap_lines st !! l) as [o|] eqn:E; [|done]. simpl in Hc.
  by rewrite (made_kept _ _ _ _ _ H E Hc).
Qed.

Lemma made_tag_loops st st' c :
  made CurveLoop_base (heap_loops st) (heap_loops st') →
  constructed st (RCurveLoop c) = true →
  tag_at st' (RCurveLoop c) = tag_at st (RCurveLoop c).
Proof.
  intros H Hc. unfold constructed, tag_at in *. simpl in *.
  destruct (heap_loops st !! c) as [o|] eqn:E; [|done]. simpl in Hc.
  by rewrite (made_kept _ _ _ _ _ H E Hc).
Qed.

Lemma made_constructed_points st st' p :
  made Point_base (heap_points st) (heap_points st') →
  constructed st (RPoint p) = true → constructed st' (RPoint p) = true.
Proof.
  intros H Hc. unfold constructed in *. simpl in *.
  destruct (heap_points st !! p) as [o|] eqn:E; [|done]. simpl in Hc.
  by rewrite (made_kept _ _ _ _ _ H E Hc).
Qed.

Lemma made_constructed_lines st st' l :
  made Line_base (heap_lines st) (heap_lines st') →
  constructed st (RLine l) = true → constructed st' (RLine l) = true.
Proof.
  intros H Hc. unfold constructed in *. simpl in *.
  destruct (heap_lines st !! l) as [o|] eqn:E; [|done]. simpl in Hc.
  by rewrite (made_kept _ _ _ _ _ H E Hc).
Qed.

Lemma made_constructed_loops st st' c :
  made CurveLoop_base (heap_loops st) (heap_loops st') →
  constructed st (RCurveLoop c) = true → constructed st' (RCurveLoop c) = true.
Proof.
  intros H Hc. unfold constructed in *. simpl in *.
  destruct (heap_loops st !! c) as [o|] eqn:E; [|done]. simpl in Hc.
  by rewrite (made_kept _ _ _ _ _ H E Hc).
Qed.

(** [Point.before_sync] touches points only. *)
Lemma Point_before_sync_post kr p st :
  post (Point_before_sync kr p)
    (λ _ st', made Point_base (heap_points st) (heap_points st') ∧
              heap_lines st' = heap_lines st ∧ heap_loops st' = heap_loops st ∧
              heap_surfaces st' = heap_surfaces st ∧ heap_fields st' = heap_fields st ∧
              constructed st' (RPoint p) = true) st.
Proof.
  unfold Point_before_sync.
  apply post_bind, post_deref. intros o Ho.
  assert (Hp : p < length (heap_points st)) by (by eapply lookup_lt_Some).
  apply post_bind, post_when.
  - intros Hfresh%negb_true_iff.
    apply post_bind, post_gmsh. apply post_mutate. intros o1 Ho1.
    change (heap_points st !! p = Some o1) in Ho1.
    assert (o1 = o) as -> by congruence.
    apply post_mutate. intros o2 Ho2. simpl in Ho2.
    rewrite list_lookup_insert_eq in Ho2 by done. injection Ho2 as <-.
    rewrite with_points_twice. simpl.
    split; [|repeat split; try done].
    + eapply made_insert; [exact Ho|]. right. simpl. eauto.
    + unfold constructed. simpl. by rewrite list_lookup_insert_eq.
  - intros Hdone%negb_false_iff.
    apply post_mutate. intros o1 Ho1. assert (o1 = o) as -> by congruence.
    rewrite Point_before_sync_again by done. rewrite with_points_same by done.
    split; [apply made_refl|]. repeat split; try done.
    by rewrite (constructed_point _ _ _ Ho).
Qed.

Lemma tag_at_point st p o :
  heap_points st !! p = Some o → tag_at st (RPoint p) = tag (Point_base o).
Proof. intros H. unfold tag_at. simpl. by rewrite H. Qed.
Lemma tag_at_line st l o :
  heap_lines st !! l = Some o → tag_at st (RLine l) = tag (Line_base o).
Proof. intros H. unfold tag_at. simpl. by rewrite H. Qed.
Lemma tag_at_loop st c o :
  heap_loops st !! c = Some o → tag_at st (RCurveLoop c) = tag (CurveLoop_base o).
Proof. intros H. unfold tag_at. simpl. by rewrite H. Qed.

(** [Line.before_sync] touches points and lines only, and creates a fresh
    line from the tags its two points carry then. *)
Lemma Line_before_sync_post kr l st :
  post (Line_before_sync kr l)
    (λ _ st', made Point_base (heap_points st) (heap_points st') ∧
              made Line_base (heap_lines st) (heap_lines st') ∧
              heap_loops st' = heap_loops st ∧ heap_surfaces st' = heap_surfaces st ∧
              heap_fields st' = heap_fields st ∧
              constructed st' (RLine l) = true ∧
              ∀ o, heap_lines st !! l = Some o →
                   before_sync_initiated (Line_base o) = false →
                   last (gmsh_calls st')
                     = Some (geo_add_line (tag_at st' (RPoint (Line_start o)))
                                          (tag_at st' (RPoint (Line_end o)))) ∧
                   constructed st' (RPoint (Line_start o)) = true ∧
                   constructed st' (RPoint (Line_end o)) = true) st.
Proof.
  unfold Line_before_sync.
  apply post_bind, post_deref. intros o Ho.
  assert (Hl : l < length (heap_lines st)) by (by eapply lookup_lt_Some).
  apply post_bind, post_when.
  - intros Hfresh%negb_true_iff.
    apply post_bind. eapply post_mono; [apply Point_before_sync_post|].
    intros [] s1 (P1 & L1 & C1 & S1 & F1 & D1). simpl.
    apply post_bind. eapply post_mono; [apply Point_before_sync_post|].
    intros [] s2 (P2 & L2 & C2 & S2 & F2 & D2). simpl.
    apply post_bind, post_deref. intros ps Hps.
    apply post_bind, post_deref. intros pe Hpe.
    apply post_bind, post_gmsh.
    apply post_mutate. intros o1 Ho1.
    change (heap_lines s2 !! l = Some o1) in Ho1. rewrite L2, L1 in Ho1.
    assert (o1 = o) as -> by congruence.
    apply post_mutate. intros o2 Ho2. simpl in Ho2.
    rewrite list_lookup_insert_eq in Ho2 by (by rewrite L2, L1).
    injection Ho2 as <-.
    rewrite with_lines_twice. simpl.
    split; [by eapply made_trans|]. split.
    { rewrite L2, L1. eapply made_insert; [exact Ho|]. right. simpl. eauto. }
    split; [congruence|]. split; [congruence|]. split; [congruence|]. split.
    { unfold constructed. simpl. rewrite list_lookup_insert_eq by (by rewrite L2, L1). done. }
    intros o' Ho' _. assert (o' = o) as -> by congruence.
    split; [|split].
    + rewrite last_snoc. unfold tag_at. simpl. by rewrite Hps, Hpe.
    + unfold constructed. simpl. eapply (made_constructed_points s1 s2); done.
    + done.
  - intros Hdone%negb_false_iff.
    apply post_mutate. intros o1 Ho1. assert (o1 = o) as -> by congruence.
    rewrite Line_before_sync_again by done. rewrite with_lines_same by done.
    split; [apply made_refl|]. split; [apply made_refl|].
    split; [done|]. split; [done|]. split; [done|]. split.
    + by rewrite (constructed_line _ _ _ Ho).
    + intros o' Ho' Hf. assert (o' = o) as -> by congruence. congruence.
Qed.

Lemma made_lookup {A} (base : A → MeshTransaction) (xs ys : list A) :
  length ys = length xs →
  (∀ i x y, xs !! i = Some x → ys !! i = Some y → made1 base x y) →
  made base xs ys.
Proof. intros Hlen H. apply Forall2_same_length_lookup_2; [by apply Nat.eq_le_incl || done|done]. Qed.

(** What the construction phase keeps of a field: its class and attributes
    and its refinement flag. *)
Definition field_kept (x y : Field) : Prop :=
  Field_layer y = Field_layer x ∧
  after_sync_initiated (Field_base y) = after_sync_initiated (Field_base x).

#[global] Instance field_kept_refl : Reflexive field_kept.
Proof. by intros x. Qed.

#[global] Instance field_kept_trans : Transitive field_kept.
Proof. intros x y z [? ?] [? ?]. split; congruence. Qed.

(** [CurveLoop.before_sync] leaves the surfaces alone; on a fresh loop it
    appends the tag of each line, in order, to [line_tags], and creates the
    loop from that list. *)
Lemma CurveLoop_before_sync_post kr c st :
  post (CurveLoop_before_sync kr c)
    (λ _ st', made Point_base (heap_points st) (heap_points st') ∧
              made Line_base (heap_lines st) (heap_lines st') ∧
              made CurveLoop_base (heap_loops st) (heap_loops st') ∧
              heap_surfaces st' = heap_surfaces st ∧
              Forall2 field_kept (heap_fields st) (heap_fields st') ∧
              constructed st' (RCurveLoop c) = true ∧
              ∀ o, heap_loops st !! c = Some o →
                   before_sync_initiated (CurveLoop_base o) = false →
                   ∃ o', heap_loops st' !! c = Some o' ∧
                         after_sync_initiated (CurveLoop_base o')
                           = after_sync_initiated (CurveLoop_base o) ∧
                         CurveLoop_line_tags o'
                           = CurveLoop_line_tags o
                               ++ ((λ l, tag_at st' (RLine l)) <$> CurveLoop_lines o) ∧
                         last (gmsh_calls st')
                           = Some (geo_add_curve_loop (CurveLoop_line_tags o')) ∧
                         Forall (λ l, constructed st' (RLine l) = true)
                           (CurveLoop_lines o)) st.
Proof.
  unfold CurveLoop_before_sync.
  apply post_bind, post_deref. intros o Ho.
  assert (Hc : c < length (heap_loops st)) by (by eapply lookup_lt_Some).
  apply post_bind, post_when.
  - intros Hfresh%negb_true_iff.
    (* the lines *)
    set (I := λ (done : list nat) (s : State),
           made Point_base (heap_points st) (heap_points s) ∧
           made Line_base (heap_lines st) (heap_lines s) ∧
           heap_surfaces s = heap_surfaces st ∧
           heap_fields s = heap_fields st ∧
           length (heap_loops s) = length (heap_loops st) ∧
           (∀ c', c' ≠ c → heap_loops s !! c' = heap_loops st !! c') ∧
           (∃ oc, heap_loops s !! c = Some oc ∧
                  CurveLoop_base oc = CurveLoop_base o ∧
                  CurveLoop_line_tags oc
                    = CurveLoop_line_tags o ++ ((λ l, tag_at s (RLine l)) <$> done)) ∧
           Forall (λ l, constructed s (RLine l) = true) done).
    apply post_bind.
    eapply post_mono.
    { apply (post_for I).
      - intros done l s (P & L & S & Fd & Len & Oth & (oc & Hoc & Hbase & Htags) & Dn).
        apply post_bind. eapply post_mono; [apply Line_before_sync_post|].
        intros [] s1 (P1 & L1 & C1 & S1 & Fd1 & D1 & _). simpl.
        apply post_bind, post_deref. intros line Hline.
        apply post_mutate. intros oc1 Hoc1. rewrite C1 in Hoc1.
        assert (oc1 = oc) as -> by congruence.
        unfold I. simpl.
        split; [by eapply made_trans|]. split; [by eapply made_trans|].
        split; [congruence|]. split; [congruence|].
        split; [by rewrite length_insert, C1|]. split.
        { intros c' Hne. rewrite list_lookup_insert_ne by done. rewrite C1. by apply Oth. }
        split.
        { eexists. split.
          - apply list_lookup_insert_eq. by rewrite C1, Len.
          - split; [done|]. simpl. rewrite Htags, fmap_app, <- app_assoc. f_equal. f_equal.
            + apply Forall_fmap_ext_1. eapply Forall_impl; [exact Dn|].
              intros l' Hl'. simpl. symmetry.
              change (tag_at s1 (RLine l') = tag_at s (RLine l')).
              by apply made_tag_lines.
            + simpl. f_equal. symmetry. exact (tag_at_line s1 l line Hline). }
        apply Forall_app. split.
        + eapply Forall_impl; [exact Dn|]. intros l' Hl'. simpl in *.
          by apply (made_constructed_lines s s1).
        + by repeat constructor.
      - unfold I. split; [apply made_refl|]. split; [apply made_refl|].
        split; [done|]. split; [done|]. split; [done|]. split; [done|]. split; [|done].
        exists o. split; [done|]. split; [done|]. simpl. by rewrite app_nil_r. }
    intros [] s1 (P1 & L1 & S1 & Fd1 & Len1 & Oth1 & (oc & Hoc & Hbase & Htags) & Dn1). simpl.
    apply post_bind, post_deref. intros self' Hself'.
    assert (self' = oc) as -> by congruence.
    apply post_bind, post_gmsh.
    apply post_bind, post_mutate. intros oc1 Hoc1.
    change (heap_loops s1 !! c = Some oc1) in Hoc1.
    assert (oc1 = oc) as -> by congruence.
    set (call := geo_add_curve_loop _).
    set (t := kr _).
    set (o2 := CurveLoop_on_base (set_tag (Some t)) oc).
    set (s2 := with_loops <[c := o2]> (with_calls _ s1)).
    (* the fields *)
    eapply post_mono.
    { apply (post_for (λ _ s, heap_points s = heap_points s2 ∧
                              heap_lines s = heap_lines s2 ∧
                              heap_loops s = heap_loops s2 ∧
                              heap_surfaces s = heap_surfaces s2 ∧
                              gmsh_calls s = gmsh_calls s2 ∧
                              Forall2 field_kept (heap_fields s2) (heap_fields s))).
      - intros done f s (Ep & El & Ec & Es & Eg & Ef). unfold Field_before_sync.
        apply post_mutate. intros fo Hfo. simpl.
        split; [done|]. split; [done|]. split; [done|]. split; [done|]. split; [done|].
        eapply Forall2_trans_list; [apply _|exact Ef|].
        eapply Forall2_overwrite; [apply _|exact Hfo|]. by split.
      - split; [done|]. split; [done|]. split; [done|]. split; [done|]. split; [done|].
        apply Forall2_refl_list, _. }
    intros [] s3 (Ep & El & Ec & Es & Eg & Ef). simpl.
    apply post_mutate. intros o3 Ho3. rewrite Ec in Ho3. simpl in Ho3.
    rewrite list_lookup_insert_eq in Ho3 by (by rewrite Len1).
    injection Ho3 as <-.
    set (o3 := CurveLoop_on_base MeshTransaction_before_sync o2).
    set (sF := with_loops <[c := o3]> s3).
    assert (HpF : heap_points sF = heap_points s1) by (simpl; by rewrite Ep).
    assert (HlF : heap_lines sF = heap_lines s1) by (simpl; by rewrite El).
    assert (HcF : heap_loops sF = <[c := o3]> (heap_loops s1)).
    { simpl. rewrite Ec. simpl. by rewrite list_insert_insert_eq. }
    assert (HsF : heap_surfaces sF = heap_surfaces s1) by (simpl; by rewrite Es).
    assert (HgF : gmsh_calls sF = gmsh_calls s1 ++ [call]) by (simpl; by rewrite Eg).
    assert (HfF : Forall2 field_kept (heap_fields st) (heap_fields sF)).
    { simpl. simpl in Ef. by rewrite Fd1 in Ef. }
    clearbody sF.
    assert (TL : ∀ l, tag_at sF (RLine l) = tag_at s1 (RLine l)).
    { intros l. unfold tag_at, base_of. by rewrite HlF. }
    assert (CL : ∀ l, constructed sF (RLine l) = constructed s1 (RLine l)).
    { intros l. unfold constructed, base_of. by rewrite HlF. }
    assert (HoF : heap_loops sF !! c = Some o3).
    { rewrite HcF. apply list_lookup_insert_eq. by rewrite Len1. }
    rewrite HpF, HlF, HsF, HgF.
    split; [done|]. split; [done|]. split.
    { rewrite HcF. apply made_lookup; [by rewrite length_insert|].
      intros i x y Hx Hy. destruct (decide (i = c)) as [->|Hne].
      - rewrite list_lookup_insert_eq in Hy by (by rewrite Len1).
        injection Hy as <-. assert (x = o) as -> by congruence.
        right. simpl. eauto.
      - rewrite list_lookup_insert_ne in Hy by done. rewrite Oth1 in Hy by done.
        left. congruence. }
    split; [done|]. split.
    { exact HfF. }
    split.
    { by rewrite (constructed_loop _ _ _ HoF). }
    intros o' Ho' _. assert (o' = o) as -> by congruence.
    exists o3. split; [done|]. split; [simpl; by rewrite Hbase|]. split; [|split].
    + simpl. rewrite Htags. f_equal. apply Forall_fmap_ext_1, Forall_forall.
      intros l _. by rewrite TL.
    + by rewrite last_snoc.
    + eapply Forall_impl; [exact Dn1|]. intros l Hl. simpl. by rewrite CL.
  - intros Hdone%negb_false_iff.
    apply post_mutate. intros o1 Ho1. assert (o1 = o) as -> by congruence.
    rewrite CurveLoop_before_sync_again by done. rewrite with_loops_same by done.
    split; [apply made_refl|]. split; [apply made_refl|]. split; [apply made_refl|].
    split; [done|]. split; [apply Forall2_refl_list, _|]. split.
    + by rewrite (constructed_loop _ _ _ Ho).
    + intros o' Ho' Hf. assert (o' = o) as -> by congruence. congruence.
Qed.

(** [PlaneSurface.before_sync] creates a fresh surface from the tags its
    loops carry then, in the order of [curve_loops]. *)
Lemma PlaneSurface_before_sync_post kr s st :
  post (PlaneSurface_before_sync kr s)
    (λ _ st', made_all st st' ∧
              constructed st' (RSurface s) = true ∧
              ∀ o, heap_surfaces st !! s = Some o →
                   before_sync_initiated (PlaneSurface_base o) = false →
                   last (gmsh_calls st')
                     = Some (geo_add_plane_surface
                               ((λ c, tag_at st' (RCurveLoop c))
                                  <$> PlaneSurface_curve_loops o)) ∧
                   Forall (λ c, constructed st' (RCurveLoop c) = true)
                     (PlaneSurface_curve_loops o)) st.
Proof.
  unfold PlaneSurface_before_sync.
  apply post_bind, post_deref. intros o Ho.
  assert (Hs : s < length (heap_surfaces st)) by (by eapply lookup_lt_Some).
  apply post_bind, post_when.
  - intros Hfresh%negb_true_iff.
    set (I := λ (done : list nat) (tags : list (option Z)) (s1 : State),
           made Point_base (heap_points st) (heap_points s1) ∧
           made Line_base (heap_lines st) (heap_lines s1) ∧
           made CurveLoop_base (heap_loops st) (heap_loops s1) ∧
           heap_surfaces s1 = heap_surfaces st ∧
           tags = ((λ c, tag_at s1 (RCurveLoop c)) <$> done) ∧
           Forall (λ c, constructed s1 (RCurveLoop c) = true) done).
    apply post_bind.
    eapply post_mono.
    { apply (post_for_acc I _ (PlaneSurface_curve_loops o)) with (done := []).
      - intros done c tags s1 (P & L & C & S & Htags & Dn).
        apply post_bind. eapply post_mono; [apply CurveLoop_before_sync_post|].
        intros [] s2 (P2 & L2 & C2 & S2 & _ & D2 & _). simpl.
        apply post_bind, post_deref. intros lp Hlp.
        apply post_ret. unfold I.
        split; [by eapply made_trans|]. split; [by eapply made_trans|].
        split; [by eapply made_trans|]. split; [congruence|]. split.
        + rewrite fmap_app, Htags. f_equal.
          * apply Forall_fmap_ext_1. eapply Forall_impl; [exact Dn|].
            intros c' Hc'. simpl. symmetry. by apply made_tag_loops.
          * simpl. f_equal. symmetry. exact (tag_at_loop s2 c lp Hlp).
        + apply Forall_app. split.
          * eapply Forall_impl; [exact Dn|]. intros c' Hc'. simpl in *.
            by apply (made_constructed_loops s1 s2).
          * by repeat constructor.
      - unfold I. split; [apply made_refl|]. split; [apply made_refl|].
        split; [apply made_refl|]. done. }
    intros tags s1 (P1 & L1 & C1 & S1 & Htags & Dn1). simpl in *.
    apply post_bind, post_gmsh.
    apply post_mutate. intros o1 Ho1.
    change (heap_surfaces s1 !! s = Some o1) in Ho1. rewrite S1 in Ho1.
    assert (o1 = o) as -> by congruence.
    apply post_mutate. intros o2 Ho2. simpl in Ho2.
    rewrite list_lookup_insert_eq in Ho2 by (by rewrite S1).
    injection Ho2 as <-.
    rewrite with_surfaces_twice. simpl.
    split; [|split].
    + split; simpl; try done. rewrite S1. eapply made_insert; [exact Ho|].
      right. simpl. eauto.
    + unfold constructed. simpl. by rewrite list_lookup_insert_eq by (by rewrite S1).
    + intros o' Ho' _. assert (o' = o) as -> by congruence.
      split; [|done]. rewrite last_snoc, Htags. done.
  - intros Hdone%negb_false_iff.
    apply post_mutate. intros o1 Ho1. assert (o1 = o) as -> by congruence.
    rewrite PlaneSurface_before_sync_again by done. rewrite with_surfaces_same by done.
    split; [reflexivity|]. split.
    + by rewrite (constructed_surface _ _ _ Ho).
    + intros o' Ho' Hf. assert (o' = o) as -> by congruence. congruence.
Qed.

(** [before_sync] on any root. *)
Lemma before_sync_post kr r st :
  post (before_sync kr r) (λ _ st', made_all st st') st.
Proof.
  destruct r as [p|l|c|s|f]; simpl.
  - eapply post_mono; [apply Point_before_sync_post|].
    intros [] st' (P & L & C & S & _). split; first [done | by apply made_eq].
  - eapply post_mono; [apply Line_before_sync_post|].
    intros [] st' (P & L & C & S & _). split; first [done | by apply made_eq].
  - eapply post_mono; [apply CurveLoop_before_sync_post|].
    intros [] st' (P & L & C & S & _). split; first [done | by apply made_eq].
  - eapply post_mono; [apply PlaneSurface_before_sync_post|].
    by intros [] st' (H & _).
  - intros a st' H. discriminate H.
Qed.

(** Every constructed entity has a tag. *)
Definition tagged (st : State) : Prop :=
  ∀ r, is_field r = false → constructed st r = true → is_Some (tag_at st r).

(** X13. The construction phase never touches a constructed entity: after
    [before_sync] over any list of roots, every point, line, loop and
    surface that was constructed before is the same object, with the same
    tag and the same [line_tags]; and if every constructed entity had a tag
    before, every constructed entity has one after. *)
Theorem construction_keeps_constructed kr st rs :
  wf st → Forall (valid st) rs →
  ∃ st',
    for_ rs (before_sync kr) st = Ok (tt, st') ∧
    (∀ p o, heap_points st !! p = Some o → before_sync_initiated (Point_base o) = true →
            heap_points st' !! p = Some o) ∧
    (∀ l o, heap_lines st !! l = Some o → before_sync_initiated (Line_base o) = true →
            heap_lines st' !! l = Some o) ∧
    (∀ c o, heap_loops st !! c = Some o → before_sync_initiated (CurveLoop_base o) = true →
            heap_loops st' !! c = Some o) ∧
    (∀ s o, heap_surfaces st !! s = Some o →
            before_sync_initiated (PlaneSurface_base o) = true →
            heap_surfaces st' !! s = Some o) ∧
    (tagged st → tagged st').
Proof.
  intros Hwf Hrs.
  destruct (construction_roots_wp kr st rs Hwf Hrs) as ([] & st' & Hrun & _).
  assert (Hall : made_all st st').
  { refine (post_for (λ _ s, made_all st s) (before_sync kr) rs st _ _ tt st' Hrun).
    - intros done r s Hs. eapply post_mono; [apply before_sync_post|].
      intros [] s' Hs'. by etrans.
    - reflexivity. }
  destruct Hall as [P L C S].
  exists st'. split; [done|].
  split; [intros p o Ho Hb; by eapply made_kept|].
  split; [intros l o Ho Hb; by eapply made_kept|].
  split; [intros c o Ho Hb; by eapply made_kept|].
  split; [intros s o Ho Hb; by eapply made_kept|].
  intros Ht r Hr Hc.
  assert (Hgen : ∀ {A} (base : A → MeshTransaction) (xs ys : list A) i,
            made base xs ys →
            (∀ x, xs !! i = Some x → before_sync_initiated (base x) = true →
                  is_Some (tag (base x))) →
            ∀ y, ys !! i = Some y → before_sync_initiated (base y) = true →
                 is_Some (tag (base y))).
  { intros A base xs ys i Hm Hx y Hy Hb.
    destruct (Forall2_lookup_r _ _ _ _ _ Hm Hy) as (x & Hxi & [->|(_ & _ & Hs)]).
    - by eapply Hx.
    - done. }
  unfold tagged, constructed, tag_at in *.
  destruct r as [p|l|c|s|f]; simpl in *; [| | | |done].
  - destruct (heap_points st' !! p) as [y|] eqn:Ey; [|done]. simpl in *.
    eapply (Hgen _ Point_base _ _ p P); [|exact Ey|exact Hc].
    intros x Hx Hb. specialize (Ht (RPoint p) eq_refl). simpl in Ht.
    rewrite Hx in Ht. by apply Ht.
  - destruct (heap_lines st' !! l) as [y|] eqn:Ey; [|done]. simpl in *.
    eapply (Hgen _ Line_base _ _ l L); [|exact Ey|exact Hc].
    intros x Hx Hb. specialize (Ht (RLine l) eq_refl). simpl in Ht.
    rewrite Hx in Ht. by apply Ht.
  - destruct (heap_loops st' !! c) as [y|] eqn:Ey; [|done]. simpl in *.
    eapply (Hgen _ CurveLoop_base _ _ c C); [|exact Ey|exact Hc].
    intros x Hx Hb. specialize (Ht (RCurveLoop c) eq_refl). simpl in Ht.
    rewrite Hx in Ht. by apply Ht.
  - destruct (heap_surfaces st' !! s) as [y|] eqn:Ey; [|done]. simpl in *.
    eapply (Hgen _ PlaneSurface_base _ _ s S); [|exact Ey|exact Hc].
    intros x Hx Hb. specialize (Ht (RSurface s) eq_refl). simpl in Ht.
    rewrite Hx in Ht. by apply Ht.
Qed.

Lemma last_creation (pre D : list GmshCall) c c' :
  last (pre ++ D ++ [c]) = Some c' → c = c'.
Proof. rewrite app_assoc, last_snoc. congruence. Qed.

(** A point that [made] reports as constructed since has a tag. *)
Lemma made_fresh_tagged st st' p :
  made Point_base (heap_points st) (heap_points st') →
  constructed st (RPoint p) = false → constructed st' (RPoint p) = true →
  is_Some (tag_at st' (RPoint p)).
Proof.
  intros H Hf Hc. unfold constructed, tag_at in *. simpl in *.
  destruct (heap_points st' !! p) as [y|] eqn:Ey; [|done]. simpl in *.
  destruct (Forall2_lookup_r _ _ _ _ _ H Ey) as (x & Hx & [->|(_ & _ & Hs)]); [|done].
  rewrite Hx in Hf. simpl in Hf. congruence.
Qed.

(** X14. Constructing a fresh line creates it from the tags of its start and
    end point, in this order, after creating the points that were not yet
    constructed: a point constructed before keeps the tag it had, and a
    point created now has a tag. *)
Theorem line_created_from_point_tags kr st l o :
  wf st → heap_lines st !! l = Some o → before_sync_initiated (Line_base o) = false →
  ∃ st' D,
    before_sync kr (RLine l) st = Ok (tt, st') ∧
    gmsh_calls st' =
      gmsh_calls st ++ D
        ++ [geo_add_line (tag_at st' (RPoint (Line_start o)))
                         (tag_at st' (RPoint (Line_end o)))] ∧
    Forall (λ e, is_add_point e = true) D ∧
    ∀ p, p = Line_start o ∨ p = Line_end o →
         constructed st' (RPoint p) = true ∧
         (constructed st (RPoint p) = true → tag_at st' (RPoint p) = tag_at st (RPoint p)) ∧
         (constructed st (RPoint p) = false → is_Some (tag_at st' (RPoint p))).
Proof.
  intros Hwf Ho Hfresh.
  assert (Hl : l < length (heap_lines st)) by (by eapply lookup_lt_Some).
  destruct (Line_before_sync_built kr st l Hwf Hl) as ([] & st' & Hrun & B).
  destruct (Line_before_sync_post kr l st _ _ Hrun) as (P & L & _ & _ & _ & _ & Hnew).
  destruct (Hnew o Ho Hfresh) as (Hlast & Hs & He).
  destruct (built_first _ _ _ _ _ B) as (D & c & Hcalls & KD & _).
  { by rewrite (constructed_line _ _ _ Ho). }
  rewrite Hcalls in Hlast. apply last_creation in Hlast as ->.
  exists st', D. split; [done|]. split; [done|]. split.
  { eapply Forall_impl; [exact KD|]. intros e He'. simpl in He'.
    unfold rank_below in He'. unfold is_add_point.
    destruct (creation_rank e) as [[|j]|]; try done. }
  intros p Hp.
  assert (Hcp : constructed st' (RPoint p) = true) by (by destruct Hp as [->| ->]).
  split; [done|]. split.
  - intros Hc. by apply made_tag_points.
  - intros Hf. by eapply made_fresh_tagged.
Qed.

(** X15. Constructing a fresh loop constructs its lines in order, appends
    the tag of each to [line_tags] (empty on a new loop), one entry per
    occurrence, and creates the loop from that list; the list stays on the
    loop. *)
Theorem loop_created_from_line_tags kr st c o :
  wf st → heap_loops st !! c = Some o →
  before_sync_initiated (CurveLoop_base o) = false →
  ∃ st' D o',
    before_sync kr (RCurveLoop c) st = Ok (tt, st') ∧
    heap_loops st' !! c = Some o' ∧
    CurveLoop_line_tags o'
      = CurveLoop_line_tags o ++ ((λ l, tag_at st' (RLine l)) <$> CurveLoop_lines o) ∧
    gmsh_calls st' = gmsh_calls st ++ D ++ [geo_add_curve_loop (CurveLoop_line_tags o')] ∧
    Forall (λ e, ∃ j, creation_rank e = Some j ∧ j < 2) D ∧
    ∀ l, l ∈ CurveLoop_lines o →
         constructed st' (RLine l) = true ∧
         (constructed st (RLine l) = true → tag_at st' (RLine l) = tag_at st (RLine l)).
Proof.
  intros Hwf Ho Hfresh.
  assert (Hc : c < length (heap_loops st)) by (by eapply lookup_lt_Some).
  destruct (CurveLoop_before_sync_built kr st c Hwf Hc) as ([] & st' & Hrun & B).
  destruct (CurveLoop_before_sync_post kr c st _ _ Hrun) as (P & L & _ & _ & _ & _ & Hnew).
  destruct (Hnew o Ho Hfresh) as (o' & Ho' & _ & Htags & Hlast & Hlines).
  destruct (built_first _ _ _ _ _ B) as (D & call & Hcalls & KD & _).
  { by rewrite (constructed_loop _ _ _ Ho). }
  rewrite Hcalls in Hlast. apply last_creation in Hlast as ->.
  exists st', D, o'. split; [done|]. split; [done|]. split; [done|]. split; [done|].
  split.
  { eapply Forall_impl; [exact KD|]. intros e He. simpl in He.
    unfold rank_below in He. destruct (creation_rank e) as [j|]; [|done].
    exists j. split; [done|]. by apply Nat.ltb_lt. }
  intros l Hl. rewrite Forall_forall in Hlines. split; [by apply Hlines|].
  intros Hcl. by apply made_tag_lines.
Qed.


(** ** Tags in the refinement phase *)

Lemma Forall2_lookup_cases {A} (S : relation A) (xs ys : list A) i :
  Forall2 S xs ys →
  (∃ x y, xs !! i = Some x ∧ ys !! i = Some y ∧ S x y) ∨
  (xs !! i = None ∧ ys !! i = None).
Proof.
  intros H. destruct (xs !! i) as [x|] eqn:E.
  - destruct (Forall2_lookup_l _ _ _ _ _ H E) as (y & Hy & HS). left. eauto.
  - right. split; [done|]. apply lookup_ge_None. apply lookup_ge_None in E.
    by rewrite <- (Forall2_length _ _ _ H).
Qed.

(** The refinement phase keeps every tag and construction flag. *)
Lemma frame_refined_tag_at st st' r :
  frame refined eq st st' → is_field r = false →
  tag_at st' r = tag_at st r ∧ constructed st' r = constructed st r.
Proof.
  intros [FP FL FC FS _] Hr. unfold tag_at, constructed.
  destruct r as [p|l|c|s|f]; simpl in *; [| | | |done].
  - destruct (Forall2_lookup_cases _ _ _ p FP)
      as [(x & y & -> & -> & [_ _ _ _ _ (Ht & Hb & _)])|[-> ->]]; [|done].
    simpl. by rewrite Ht, Hb.
  - destruct (Forall2_lookup_cases _ _ _ l FL)
      as [(x & y & -> & -> & [_ _ _ _ (Ht & Hb & _)])|[-> ->]]; [|done].
    simpl. by rewrite Ht, Hb.
  - destruct (Forall2_lookup_cases _ _ _ c FC)
      as [(x & y & -> & -> & [_ _ _ (Ht & Hb & _)])|[-> ->]]; [|done].
    simpl. by rewrite Ht, Hb.
  - destruct (Forall2_lookup_cases _ _ _ s FS)
      as [(x & y & -> & -> & [_ _ _ _ _ _ (Ht & Hb & _)])|[-> ->]]; [|done].
    simpl. by rewrite Ht, Hb.
Qed.

(** X17. The refinement phase changes no tag: after [after_sync] over any
    list of roots, every point, line, loop and surface carries the tag it
    had and is constructed exactly if it was, and every loop has the
    [line_tags] it had. *)
Theorem refinement_keeps_tags kr st rs :
  wf st → Forall (valid st) rs →
  ∃ st',
    for_ rs (after_sync kr) st = Ok (tt, st') ∧
    (∀ r, is_field r = false →
          tag_at st' r = tag_at st r ∧ constructed st' r = constructed st r) ∧
    (∀ c, CurveLoop_line_tags <$> heap_loops st' !! c
          = CurveLoop_line_tags <$> heap_loops st !! c).
Proof.
  intros Hwf Hrs.
  destruct (refinement_roots_wp kr st rs Hwf Hrs) as ([] & st' & Hrun & [F _] & _).
  exists st'. split; [done|]. split.
  - intros r Hr. by apply frame_refined_tag_at.
  - destruct F as [_ _ FC _ _].
    intros c. destruct (Forall2_lookup_cases _ _ _ c FC)
      as [(x & y & -> & -> & [_ _ Ht _])|[-> ->]]; [|done].
    simpl. by rewrite Ht.
Qed.

(** X18. Refining a fresh plain [PlaneSurface] runs [after_sync] over its
    loops in order, [DL] being the calls of that run, which leaves every
    loop refined; then, when its label is not [None] (the empty string
    included), it creates one physical group at surface dimension that
    holds the surface's tag and names it by the label; and then, when
    [is_quad_mesh] is set, it asks for recombination of the surface.  It
    makes no other call. *)
Theorem plane_surface_group_and_recombine kr st s o :
  wf st → heap_surfaces st !! s = Some o → PlaneSurface_corners o = None →
  after_sync_initiated (PlaneSurface_base o) = false →
  ∃ st' s1 DL G Rc,
    after_sync kr (RSurface s) st = Ok (tt, st') ∧
    for_ (PlaneSurface_curve_loops o) (CurveLoop_after_sync kr) st = Ok (tt, s1) ∧
    gmsh_calls s1 = gmsh_calls st ++ DL ∧
    (∀ c, c ∈ PlaneSurface_curve_loops o → refinement_done st' (RCurveLoop c) = true) ∧
    gmsh_calls st' = gmsh_calls st ++ DL ++ G ++ Rc ∧
    Forall (λ e, is_loop_refinement e = true) DL ∧
    (∀ label, PlaneSurface_label o = Some label →
       G = [add_physical_group 2 [tag (PlaneSurface_base o)];
            set_physical_name 2
              (kr (gmsh_calls st ++ DL
                     ++ [add_physical_group 2 [tag (PlaneSurface_base o)]]))
              label]) ∧
    (PlaneSurface_label o = None → G = []) ∧
    (PlaneSurface_is_quad_mesh o = true →
       Rc = [mesh_set_recombine 2 (tag (PlaneSurface_base o))]) ∧
    (PlaneSurface_is_quad_mesh o = false → Rc = []).
Proof.
  intros Hwf Ho Hplain Hfresh.
  assert (Hs : s < length (heap_surfaces st)) by (by eapply lookup_lt_Some).
  destruct (PlaneSurface_after_sync_wp kr st s Hwf Hs) as ([] & st' & Hrun & _).
  destruct (PlaneSurface_after_sync_first kr s st st' o Hwf Ho Hfresh Hrun)
    as (s1 & DL & Hloops & E & Hdone & Hcalls & K).
  exists st', s1, DL, (surface_group kr (gmsh_calls st ++ DL) o), (surface_recombine o).
  split.
  { simpl. unfold mbind, M_bind, get_surface, deref. by rewrite Ho, Hplain. }
  split; [done|]. split; [done|]. split; [done|]. split; [done|]. split; [done|].
  unfold surface_group, surface_recombine.
  split; [intros label ->; by rewrite <- app_assoc|].
  split; [by intros ->|]. split; by intros ->.
Qed.

(** ** A list of labels that is too short *)

Section ShortList.

Context (coords : list (list float)).
Context (labels : option (OneOrList string)) (cell_counts : option (OneOrList Z)).
Context (mesh_types : option (OneOrList string)) (mesh_coeffs : option (OneOrList float)).
Context (st : State) (m0 : float).

(** The number of lines the list arguments are known to cover. *)
Context (m : nat).

Let n := length coords.
Let body := get_points_and_lines_body coords labels cell_counts mesh_types mesh_coeffs.

Hypothesis rows_ok : Forall (λ row, 2 ≤ length row) coords.
Hypothesis labels_ok : covers m labels.
Hypothesis cell_counts_ok : covers m cell_counts.
Hypothesis mesh_types_ok : covers m mesh_types.
Hypothesis mesh_coeffs_ok : covers m mesh_coeffs.

(** A middle iteration whose line is one of the first [m]. *)
Lemma helper_middle_upto i loc s :
  1 ≤ i → i < n → i ≤ m → helper_inv st n m0 i (i - 1) loc s →
  wp (body loc i) (λ loc' s', helper_inv st n m0 (i + 1) i loc' s') s.
Proof.
  intros Hi Hin Him [Hms Hpts Hlns Hidx Hhp Hhl Hpt Hln].
  unfold body, get_points_and_lines_body. rewrite Hms. simpl.
  apply wp_bind. apply wp_ret.
  apply wp_bind. unfold get_points_and_lines_point.
  destruct (i =? length coords) eqn:E; [apply Nat.eqb_eq in E; unfold n in Hin; lia|].
  destruct (lookup_lt_is_Some_2 coords i) as [row Hrow]; [exact Hin|].
  apply wp_bind. eapply wp_index; [exact Hrow|].
  apply wp_bind. apply Point_new_wp.
  { rewrite Forall_forall in rows_ok. apply rows_ok. by eapply list_elem_of_lookup_2. }
  intros o Ho. apply wp_ret. simpl.
  destruct (0 <? i) eqn:E0; [|apply Nat.ltb_ge in E0; lia].
  apply wp_bind.
  eapply (get_points_and_lines_line_wp _ _ _ _ _ _ _ _ m
            (length (heap_points st) + (i - 1))); eauto.
  { rewrite Hidx. lia. }
  { rewrite Hpts. rewrite lookup_app_l by (rewrite length_seq; lia).
    apply lookup_seq_lt. lia. }
  intros lo Hs He. apply wp_ret. simpl.
  split; simpl.
  - done.
  - rewrite Hpts, Hhp. by rewrite seq_app.
  - rewrite Hlns, Hhl.
    replace (seq (length (heap_lines st)) i)
      with (seq (length (heap_lines st)) (i - 1 + 1)) by (f_equal; lia).
    by rewrite seq_app.
  - rewrite Hidx. lia.
  - rewrite length_app. simpl. lia.
  - rewrite length_app. simpl. lia.
  - intros j Hj. destruct (decide (j = i)) as [->|Hne].
    + exists o. split; [|done].
      rewrite lookup_app_r by lia. by rewrite Hhp, Nat.sub_diag.
    + destruct (Hpt j) as (o' & Ho' & Hm'); [lia|]. exists o'. split; [|done].
      by apply lookup_app_l_Some.
  - intros j Hj. destruct (decide (j = i - 1)) as [->|Hne].
    + exists lo. split.
      * rewrite lookup_app_r by lia. by rewrite Hhl, Nat.sub_diag.
      * split; [done|]. rewrite He, Hhp.
        replace (i - 1 + 1) with i by lia. by rewrite Nat.mod_small.
    + destruct (Hln j) as (o' & Ho' & Hm'); [lia|]. exists o'. split; [|done].
      by apply lookup_app_l_Some.
Qed.

Lemma helper_upto_loop k : ∀ i loc s,
  1 ≤ i → i + k ≤ n → i + k ≤ m + 1 → helper_inv st n m0 i (i - 1) loc s →
  wp (for_acc (seq i k) loc body)
     (λ loc' s', helper_inv st n m0 (i + k) (i + k - 1) loc' s') s.
Proof.
  induction k as [|k IH]; intros i loc s Hi Hik Him Hinv.
  - apply wp_ret. by rewrite Nat.add_0_r.
  - simpl. apply wp_bind.
    eapply wp_mono; [apply helper_middle_upto; [done|lia|lia|done]|].
    intros loc1 s1 Hinv1. simpl.
    replace (S i) with (i + 1) by lia.
    eapply wp_mono.
    { apply (IH (i + 1)); [lia|lia|lia|].
      by replace (i + 1 - 1) with i by lia. }
    intros loc2 s2 Hinv2. simpl.
    by replace (i + S k) with (i + 1 + k) by lia.
Qed.

(** The first [m + 1] iterations, which make [m + 1] points and [m] lines. *)
Lemma helper_upto mesh_size :
  m < n → first_mesh_size mesh_size = Some m0 →
  wp (for_acc (seq 0 (m + 1))
        {| loc_mesh_size := mesh_size; loc_points := []; loc_lines := [];
           loc_line_index := 0 |} body)
     (λ loc s, helper_inv st n m0 (m + 1) m loc s) st.
Proof.
  intros Hmn Hm.
  replace (seq 0 (m + 1)) with (0 :: seq 1 m) by (by rewrite Nat.add_1_r).
  simpl. apply wp_bind.
  eapply wp_mono; [apply helper_first; [done|unfold n in Hmn; lia|done]|].
  intros loc1 s1 Hinv1. simpl. fold n in Hinv1.
  eapply wp_mono; [apply (helper_upto_loop m 1); [lia|lia|lia|exact Hinv1]|].
  intros loc2 s2 Hinv2. simpl.
  replace (1 + m - 1) with m in Hinv2 by lia.
  by replace (1 + m) with (m + 1) in Hinv2 by lia.
Qed.

End ShortList.

Lemma seq_split a b : a < b → seq 0 b = seq 0 a ++ a :: seq (a + 1) (b - a - 1).
Proof.
  intros Hab. replace b with (a + S (b - a - 1)) at 1 by lia.
  rewrite seq_app. simpl. by rewrite Nat.add_1_r.
Qed.

(** The iteration after the last label raises. *)
Lemma helper_label_missing coords l cell_counts mesh_types mesh_coeffs st m0 loc s :
  Forall (λ row, 2 ≤ length row) coords → l ≠ [] → length l < length coords →
  helper_inv st (length coords) m0 (length l + 1) (length l) loc s →
  get_points_and_lines_body coords (Some (PyList l)) cell_counts mesh_types mesh_coeffs
    loc (length l + 1) s = Raise IndexError.
Proof.
  intros Hrows Hne Hlt [Hms Hpts Hlns Hidx Hhp Hhl Hpt Hln].
  assert (Hpoint : wp (get_points_and_lines_point coords m0 (loc_points loc) (length l + 1))
                      (λ _ _, True) s).
  { unfold get_points_and_lines_point.
    destruct (length l + 1 =? length coords) eqn:E.
    - apply wp_bind. eapply wp_index; [|by apply wp_ret].
      rewrite Hpts. apply lookup_seq_lt. lia.
    - apply Nat.eqb_neq in E.
      destruct (lookup_lt_is_Some_2 coords (length l + 1)) as [row Hrow]; [lia|].
      apply wp_bind. eapply wp_index; [exact Hrow|].
      apply wp_bind. apply Point_new_wp.
      { rewrite Forall_forall in Hrows. apply Hrows. by eapply list_elem_of_lookup_2. }
      intros o _. by apply wp_ret. }
  destruct Hpoint as ([point points] & s1 & Hpoint & _).
  unfold get_points_and_lines_body, mbind, M_bind. rewrite Hms. simpl.
  rewrite Hpoint.
  destruct (0 <? length l + 1) eqn:E0; [|apply Nat.ltb_ge in E0; lia].
  unfold get_points_and_lines_line, mbind, M_bind.
  destruct l as [|a l]; [done|]. simpl.
  unfold index. rewrite Hidx. by rewrite lookup_ge_None_2.
Qed.

(** X19. When [labels] is a non-empty list with fewer entries than there are
    rows, [get_points_and_lines] raises [IndexError]: it makes a line for
    each label and fails on the next one. *)
Theorem get_points_and_lines_short_labels coords mesh_size l cell_counts mesh_types
    mesh_coeffs st :
  Forall (λ row, 2 ≤ length row) coords →
  is_Some (first_mesh_size mesh_size) →
  covers (length l) cell_counts → covers (length l) mesh_types →
  covers (length l) mesh_coeffs →
  0 < length l → length l < length coords →
  get_points_and_lines coords mesh_size (Some (PyList l)) cell_counts mesh_types
    mesh_coeffs st = Raise IndexError.
Proof.
  intros Hrows [m0 Hm0] Cc Ct Cf Hpos Hlt.
  assert (Cl : covers (length l) (Some (PyList l))) by (by right).
  destruct (helper_upto coords (Some (PyList l)) cell_counts mesh_types mesh_coeffs st m0
              (length l) Hrows Cl Cc Ct Cf mesh_size Hlt Hm0)
    as (loc & s & Hrun & Hinv).
  unfold get_points_and_lines, mbind, M_bind.
  rewrite (seq_split (length l + 1) (length coords + 1)) by lia.
  rewrite for_acc_app_eq, Hrun. simpl. unfold mbind, M_bind.
  rewrite (helper_label_missing coords l cell_counts mesh_types mesh_coeffs st m0 loc s);
    [done|done| |done|done].
  intros ->. simpl in Hpos. lia.
Qed.

(** ** A whole session *)

(** The calls that open or close the session. *)
Definition is_session_call (c : GmshCall) : bool :=
  match c with initialize | finalize => true | _ => false end.

Lemma session_open_app pre D :
  Forall (λ c, is_session_call c = false) D →
  session_open (pre ++ D) = session_open pre.
Proof.
  unfold session_open. rewrite foldl_app. intros H.
  generalize (foldl (λ (b : bool) (c : GmshCall),
                       match c with initialize => true | finalize => false | _ => b end)
                false pre).
  induction H as [|c D Hc _ IH]; intros b; simpl; [done|].
  rewrite IH. by destruct c.
Qed.

Lemma session_open_snoc pre c :
  session_open (pre ++ [c]) =
    match c with initialize => true | finalize => false | _ => session_open pre end.
Proof. unfold session_open. by rewrite foldl_app. Qed.

(** The calls of one run of [generate]. *)
Lemma Geometry_generate_run kr st ts :
  wf st → Forall (valid st) (roots ts) →
  ∃ st' D1 D2,
    Geometry_generate kr ts st = Ok (tt, st') ∧
    gmsh_calls st' =
      gmsh_calls st ++ D1 ++ [geo_synchronize] ++ D2
        ++ [mesh_generate; option_set_number "Mesh.SaveAll" 1%Q] ∧
    Forall (λ c, is_construction c = true) D1 ∧
    Forall (λ c, is_refinement c = true) D2.
Proof.
  intros Hwf Hrs.
  destruct (construction_roots_wp kr st (roots ts) Hwf Hrs)
    as ([] & st1 & Hrun1 & G1 & _).
  destruct (grows_step _ _ _ _ G1) as (F1 & (D1 & E1 & K1) & _).
  set (s1 := with_calls (λ _, gmsh_calls st1 ++ [geo_synchronize]) st1).
  assert (F1' : frame flags_le any_tags st s1).
  { etrans; [exact F1|]. apply (frame_calls flags_le any_tags). }
  assert (Hwf1 : wf s1) by (by eapply frame_wf).
  assert (Hrs1 : Forall (valid s1) (roots ts)).
  { eapply Forall_impl; [exact Hrs|]. intros r. exact (frame_valid _ _ _ _ r F1'). }
  destruct (refinement_roots_wp kr s1 (roots ts) Hwf1 Hrs1)
    as ([] & st2 & Hrun2 & [F2 (D2 & E2 & K2)] & _).
  exists (with_calls (λ _, (gmsh_calls st2 ++ [mesh_generate])
                            ++ [option_set_number "Mesh.SaveAll" 1%Q]) st2), D1, D2.
  split; [|split; [|split; [|done]]].
  - rewrite Geometry_generate_phases.
    unfold mbind, M_bind. rewrite construction_phase_roots, Hrun1.
    unfold gmsh_, gmsh, mbind, M_bind, mret, M_ret.
    fold s1. rewrite refinement_phase_roots, Hrun2.
    by rewrite with_calls_twice.
  - simpl. rewrite E2. simpl. rewrite E1. by rewrite <- !app_assoc.
  - eapply Forall_impl; [exact K1|]. intros c Hc. simpl in Hc.
    by eapply rank_below_construction.
Qed.

(** X20. A session that enters, generates, writes and exits raises nothing
    on valid roots; the kernel sees [initialize] first, then the calls of
    [generate], none of which opens or closes the session or writes a file,
    then [write] with the file name, and [finalize] last.  So the session
    is open after every step but the last. *)
Theorem session_enter_generate_write_exit kr st ts filename :
  wf st → Forall (valid st) (roots ts) →
  ∃ st1 st2 st3 st4 G,
    Geometry_enter kr st = Ok (tt, st1) ∧
    Geometry_generate kr ts st1 = Ok (tt, st2) ∧
    Geometry_write kr filename st2 = Ok (tt, st3) ∧
    Geometry_exit kr st3 = Ok (tt, st4) ∧
    gmsh_calls st4 = gmsh_calls st ++ [initialize] ++ G ++ [write filename; finalize] ∧
    Forall (λ c, is_session_call c = false ∧ ∀ f, c ≠ write f) G ∧
    session_open (gmsh_calls st1) = true ∧ session_open (gmsh_calls st2) = true ∧
    session_open (gmsh_calls st3) = true ∧ session_open (gmsh_calls st4) = false.
Proof.
  intros Hwf Hrs.
  set (st1 := with_calls (λ _, gmsh_calls st ++ [initialize]) st).
  assert (F1 : frame flags_le any_tags st st1) by apply (frame_calls flags_le any_tags).
  assert (Hwf1 : wf st1) by (by eapply frame_wf).
  assert (Hrs1 : Forall (valid st1) (roots ts)).
  { eapply Forall_impl; [exact Hrs|]. intros r. exact (frame_valid _ _ _ _ r F1). }
  destruct (Geometry_generate_run kr st1 ts Hwf1 Hrs1) as (st2 & D1 & D2 & Hgen & Hcalls & K1 & K2).
  set (G := D1 ++ [geo_synchronize] ++ D2
              ++ [mesh_generate; option_set_number "Mesh.SaveAll" 1%Q]) in *.
  assert (KG : Forall (λ c, is_session_call c = false ∧ ∀ f, c ≠ write f) G).
  { unfold G. repeat (apply Forall_app; split).
    - eapply Forall_impl; [exact K1|]. intros c Hc. simpl in Hc. by destruct c.
    - by repeat constructor.
    - eapply Forall_impl; [exact K2|]. intros c Hc. simpl in Hc. by destruct c.
    - by repeat constructor. }
  assert (KG' : Forall (λ c, is_session_call c = false) G).
  { eapply Forall_impl; [exact KG|]. by intros c [? _]. }
  exists st1, st2, (with_calls (λ _, gmsh_calls st2 ++ [write filename]) st2),
    (with_calls (λ _, (gmsh_calls st2 ++ [write filename]) ++ [finalize]) st2), G.
  split; [done|]. split; [done|]. split; [done|]. split.
  { unfold Geometry_exit, gmsh_, gmsh, mbind, M_bind, mret, M_ret. simpl.
    by rewrite with_calls_twice. }
  split.
  { simpl. rewrite Hcalls. simpl. by rewrite <- !app_assoc. }
  split; [done|].
  assert (H1 : session_open (gmsh_calls st1) = true).
  { simpl. by rewrite session_open_snoc. }
  assert (H2 : session_open (gmsh_calls st2) = true).
  { rewrite Hcalls. by rewrite session_open_app. }
  split; [done|]. split; [done|]. split.
  - simpl. by rewrite session_open_snoc.
  - simpl. by rewrite session_open_snoc.
Qed.

(** ** The curves of a boundary layer *)

(** X21. Generating a fresh loop attaches each of its fresh boundary layers
    to the loop's own lines: the kernel is given, as "CurvesList" of the
    field whose tag the layer carries after, the list of the tags the loop's
    lines carry, in loop order. *)
Theorem boundary_layer_on_loop_lines kr st c o f :
  wf st → heap_loops st !! c = Some o →
  before_sync_initiated (CurveLoop_base o) = false →
  after_sync_initiated (CurveLoop_base o) = false →
  CurveLoop_line_tags o = [] →
  f ∈ CurveLoop_fields o → fresh_layer st f →
  ∃ st' t,
    Geometry_generate kr (One (RCurveLoop c)) st = Ok (tt, st') ∧
    tag_at st' (RField f) = Some t ∧
    field_setNumbers t "CurvesList" ((λ l, tag_at st' (RLine l)) <$> CurveLoop_lines o)
      ∈ new_calls st st'.
Proof.
  intros Hwf Ho Hfresh Hunref Hempty Hf (fo & bl & Hfo & Hbl & Hfr).
  assert (Hc : c < length (heap_loops st)) by (by eapply lookup_lt_Some).
  (* construction *)
  destruct (CurveLoop_before_sync_built kr st c Hwf Hc) as ([] & st1 & Hrun1 & B).
  destruct (CurveLoop_before_sync_post kr c st _ _ Hrun1)
    as (_ & _ & _ & _ & Hfields & _ & Hnew).
  destruct (Hnew o Ho Hfresh) as (o1 & Ho1 & Hflag & Htags & _ & _).
  rewrite Hempty in Htags. simpl in Htags.
  destruct (grows_step _ _ _ _ (built_grows _ _ _ _ _ B)) as (F1 & (D1 & E1 & _) & _).
  destruct (Forall2_lookup_l _ _ _ _ _ Hfields Hfo) as (fo1 & Hfo1 & Hl1 & Ha1).
  (* the synchronize call *)
  set (s1 := with_calls (λ _, gmsh_calls st1 ++ [geo_synchronize]) st1).
  assert (F1' : frame flags_le any_tags st s1).
  { etrans; [exact F1|]. apply (frame_calls flags_le any_tags). }
  assert (Hwf1 : wf s1) by (by eapply frame_wf).
  assert (Hv1 : valid s1 (RCurveLoop c)).
  { exact (frame_valid _ _ _ _ (RCurveLoop c) F1' Hc). }
  assert (Ho1' : heap_loops s1 !! c = Some o1) by exact Ho1.
  destruct (wf_loop_at _ _ _ Hwf1 Ho1') as [Hls _].
  (* refinement *)
  destruct (after_sync_wp kr s1 (RCurveLoop c) Hwf1 Hv1) as ([] & st2 & Hrun2 & [F2 _] & _).
  destruct (CurveLoop_after_sync_post kr c s1 _ _ Hrun2 o1 Ho1')
    as (sl & D3 & Hlines & Hcalls2 & _ & _ & HD2).
  { by rewrite Hflag. }
  destruct (lines_refined_wp kr s1 _ Hls) as ([] & sl' & Hlines' & [_ (DL & EL & _)] & _).
  rewrite Hlines in Hlines'. injection Hlines' as <-.
  destruct (HD2 f) as (t & Ht & Htag).
  { destruct (frame_loop_at _ _ _ _ _ _ F1 Ho) as (o1' & Ho1'' & [_ Efs _ _]).
    assert (o1' = o1) as -> by congruence. by rewrite <- Efs. }
  { exists fo1, bl. split; [done|]. split; congruence. }
  set (st' := with_calls (λ _, (gmsh_calls st2 ++ [mesh_generate])
                                ++ [option_set_number "Mesh.SaveAll" 1%Q]) st2).
  exists st', t. split; [|split].
  - rewrite Geometry_generate_phases.
    unfold mbind, M_bind. simpl construction_phase. rewrite Hrun1.
    unfold gmsh_, gmsh, mbind, M_bind, mret, M_ret.
    fold s1. simpl refinement_phase. simpl in Hrun2. rewrite Hrun2.
    by rewrite with_calls_twice.
  - unfold tag_at. change (base_of st' (RField f)) with (base_of st2 (RField f)).
    destruct (base_of st2 (RField f)) as [m|]; [|done].
    simpl in *. by injection Htag as ->.
  - assert (Etags : (λ l, tag_at st' (RLine l)) <$> CurveLoop_lines o
                    = CurveLoop_line_tags o1).
    { rewrite Htags. apply Forall_fmap_ext_1, Forall_forall. intros l _.
      change (tag_at st2 (RLine l) = tag_at s1 (RLine l)).
      by apply frame_refined_tag_at. }
    rewrite Etags. unfold new_calls. simpl. rewrite Hcalls2, EL. simpl. rewrite E1.
    rewrite <- !app_assoc, drop_app_length.
    rewrite !elem_of_app. right. right. right. right. by left.
Qed.

(** ** The further properties on the example *)

Lemma point_creation_coordinates_witness :
  Forall is_float64 [1%Q; (1#2)%Q; 3%Q] ∧
  ∃ st1 st2,
    Point_new [1%Q; (1#2)%Q; 3%Q] (1#8)%Q empty_state = Ok (0, st1) ∧
    Point_before_sync count_reply 0 st1 = Ok (tt, st2) ∧
    gmsh_calls st2 = [geo_add_point 1%Q (1#2)%Q 3%Q (1#8)%Q].
Proof.
  assert (Hrow : Forall is_float64 [1%Q; (1#2)%Q; 3%Q]).
  { apply Forall_cons_2; [exists 1%Z, 0%Z; split; [reflexivity|split; [lia|reflexivity]]|].
    apply Forall_cons_2; [exists 1%Z, (-1)%Z; split; [reflexivity|split; [lia|reflexivity]]|].
    apply Forall_cons_2; [exists 3%Z, 0%Z; split; [reflexivity|split; [lia|reflexivity]]|].
    apply Forall_nil_2. }
  split; [exact Hrow|].
  destruct (point_creation_coordinates count_reply 1%Q (1#2)%Q [3%Q] (1#8)%Q [] empty_state
              Hrow)
    as (_ & st1 & st2 & Hnew & Hrun & Hcalls & _).
  exists st1, st2. split; [exact Hnew|]. split; [exact Hrun | exact Hcalls].
Defined.

Lemma refine_idempotent_witness :
  wf example_built ∧ valid example_built (RSurface 0) ∧
  ∃ st', after_sync count_reply (RSurface 0) example_built = Ok (tt, st') ∧
         repeat_ 2 (after_sync count_reply (RSurface 0)) st' = Ok (tt, st').
Proof.
  assert (Hwf : wf example_built) by solve_wf.
  assert (Hv : valid example_built (RSurface 0)) by (simpl; lia).
  split; [exact Hwf|]. split; [exact Hv|].
  destruct (refine_idempotent count_reply example_built (RSurface 0) 2 Hwf Hv)
    as (st' & Hrun & _ & Hagain).
  exists st'. split; [exact Hrun | exact Hagain].
Defined.

Lemma generate_field_root_raises_witness :
  wf example_state ∧
  Forall (λ r, valid example_state r ∨ is_field r = true) [RLine 0; RField 0] ∧
  Exists (λ r, is_field r = true) [RLine 0; RField 0] ∧
  Geometry_generate count_reply (Many [RLine 0; RField 0]) example_state = Raise TypeError.
Proof.
  assert (Hwf : wf example_state) by solve_wf.
  assert (Hall : Forall (λ r, valid example_state r ∨ is_field r = true)
                   [RLine 0; RField 0]).
  { apply Forall_cons_2; [left; simpl; lia|].
    apply Forall_cons_2; [by right | apply Forall_nil_2]. }
  assert (Hex : Exists (λ r, is_field r = true) [RLine 0; RField 0]).
  { apply Exists_cons_tl, Exists_cons_hd. reflexivity. }
  split; [exact Hwf|]. split; [exact Hall|]. split; [exact Hex|].
  exact (proj1 (generate_field_root_raises count_reply example_state
                  [RLine 0; RField 0] 0 Hwf Hall Hex)).
Defined.

Lemma dependencies_created_first_witness :
  wf example_state ∧ valid example_state (RCurveLoop 0) ∧
  constructed example_state (RCurveLoop 0) = false ∧
  ∃ st' D c,
    before_sync count_reply (RCurveLoop 0) example_state = Ok (tt, st') ∧
    gmsh_calls st' = gmsh_calls example_state ++ D ++ [c] ∧
    creation_rank c = Some 2.
Proof.
  assert (Hwf : wf example_state) by solve_wf.
  assert (Hv : valid example_state (RCurveLoop 0)) by (simpl; lia).
  split; [exact Hwf|]. split; [exact Hv|]. split; [reflexivity|].
  destruct (dependencies_created_first count_reply example_state (RCurveLoop 0)
              Hwf Hv eq_refl)
    as (st' & D & c & Hrun & Hcalls & Hc & _).
  exists st', D, c. split; [exact Hrun|]. split; [exact Hcalls | exact Hc].
Defined.

Lemma construction_closes_graph_witness :
  wf example_state ∧ Forall (valid example_state) [RSurface 0] ∧ closed example_state ∧
  ∃ st', for_ [RSurface 0] (before_sync count_reply) example_state = Ok (tt, st') ∧
         closed st' ∧ graph_points example_state [RSurface 0] ⊆ constructed_points st'.
Proof.
  assert (Hwf : wf example_state) by solve_wf.
  assert (Hv : Forall (valid example_state) [RSurface 0]).
  { repeat constructor. }
  assert (Hcl : closed example_state).
  { apply all_fresh_closed. unfold all_fresh. simpl.
    repeat first [split | apply Forall_nil_2 | apply Forall_cons_2]. }
  split; [exact Hwf|]. split; [exact Hv|]. split; [exact Hcl|].
  destruct (construction_closes_graph count_reply example_state [RSurface 0] Hwf Hv Hcl)
    as (st' & Hrun & Hcl' & _ & Hpts).
  exists st'. split; [exact Hrun|]. split; [exact Hcl' | exact Hpts].
Defined.

Lemma generate_again_witness :
  wf example_state ∧ Forall (valid example_state) (roots (One (RSurface 0))) ∧
  ∃ st1 st2,
    Geometry_generate count_reply (One (RSurface 0)) example_state = Ok (tt, st1) ∧
    Geometry_generate count_reply (One (RSurface 0)) st1 = Ok (tt, st2) ∧
    new_calls st1 st2
      = [geo_synchronize; mesh_generate; option_set_number "Mesh.SaveAll" 1%Q].
Proof.
  assert (Hwf : wf example_state) by solve_wf.
  assert (Hv : Forall (valid example_state) (roots (One (RSurface 0)))).
  { repeat constructor. }
  split; [exact Hwf|]. split; [exact Hv|].
  destruct (generate_again count_reply example_state (One (RSurface 0)) Hwf Hv)
    as (st1 & st2 & H1 & H2 & Heq).
  exists st1, st2. split; [exact H1|]. split; [exact H2|].
  unfold new_calls. rewrite Heq. simpl. by rewrite drop_app_length.
Defined.

Lemma boundary_layer_calls_witness :
  ∃ st' mid,
    Field_after_sync count_reply 0 0 example_built = Ok (tt, st') ∧
    new_calls example_built st' =
      [field_add "BoundaryLayer";
       field_setNumbers 12 "CurvesList" [Some 3%Z; Some 5%Z; Some 7%Z; Some 8%Z]]
      ++ mid ++ [field_setAsBoundaryLayer 12].
Proof.
  destruct (boundary_layer_calls count_reply example_built 0 0 _ example_layer _
              eq_refl eq_refl eq_refl eq_refl)
    as (st' & t & mid & Hrun & Ht & Hcalls & _).
  exists st', mid. split; [exact Hrun|].
  unfold new_calls. rewrite Hcalls, drop_app_length, Ht. reflexivity.
Defined.

Lemma curve_loop_groups_by_label_witness :
  wf example_built ∧
  ∃ st', CurveLoop_after_sync count_reply 0 example_built = Ok (tt, st') ∧
         NoDup (names_given (new_calls example_built st')) ∧
         length (groups_created (new_calls example_built st'))
           = length (names_given (new_calls example_built st')).
Proof.
  assert (Hwf : wf example_built) by solve_wf.
  split; [exact Hwf|].
  destruct (curve_loop_groups_by_label count_reply example_built 0 _ Hwf eq_refl eq_refl)
    as (st' & s1 & D1 & D3 & groups & Hrun & _ & _ & _ & _ & _ & _ & Hgroups & Hnames
        & Hnd & _).
  exists st'. split; [exact Hrun|]. rewrite Hnames, Hgroups.
  split; [exact Hnd|]. by rewrite !length_fmap.
Defined.

Lemma get_points_and_lines_builds_only_witness :
  ∃ points lines st',
    get_points_and_lines square (Scalar (1#10)%Q) (Some (Scalar "wall"))
      (Some (Scalar 10%Z)) None None example_state = Ok ((points, lines), st') ∧
    gmsh_calls st' = gmsh_calls example_state ∧
    length (heap_points st') = 8 ∧ points = [4; 5; 6; 7].
Proof.
  assert (Hn : 1 ≤ length square) by (simpl; lia).
  assert (Hrows : Forall (λ row : list float, 2 ≤ length row) square).
  { repeat first [apply Forall_nil_2 | apply Forall_cons_2 | (simpl; lia)]. }
  destruct (get_points_and_lines_builds_only square (Scalar (1#10)%Q)
              (Some (Scalar "wall")) (Some (Scalar 10%Z)) None None example_state
              Hn Hrows (ex_intro _ _ eq_refl) I I I I)
    as (points & lines & st' & ps & ls & Hrun & Hcalls & Hp & Hlen & _ & _ & _ & _ & _
        & Hpts & _).
  exists points, lines, st'. split; [exact Hrun|]. split; [exact Hcalls|].
  split; [|exact Hpts]. rewrite Hp, length_app, Hlen. reflexivity.
Defined.

Lemma get_points_and_lines_line_kinds_witness :
  ∃ points lines st',
    get_points_and_lines square (Scalar (1#10)%Q) (Some (Scalar "wall"))
      (Some (Scalar 10%Z)) None None empty_state = Ok ((points, lines), st') ∧
    Forall (λ o, Line_label o = Some "wall" ∧
                 ∃ tl, Line_transfinite o = Some tl ∧ cell_count tl = 10%Z ∧
                       mesh_type tl = "Progression" ∧ coeff tl = 1%Q)
      (heap_lines st').
Proof.
  destruct (get_points_and_lines square (Scalar (1#10)%Q) (Some (Scalar "wall"))
              (Some (Scalar 10%Z)) None None empty_state)
    as [[[points lines] st']|e] eqn:Hrun; [|vm_compute in Hrun; discriminate Hrun].
  exists points, lines, st'. split; [reflexivity|].
  destruct (get_points_and_lines_line_kinds _ _ _ _ _ _ _ _ _ _ Hrun)
    as (ls & Hls & _ & Htl & _ & Hlab).
  rewrite Hls. simpl.
  specialize (Htl eq_refl). specialize (Hlab "wall" eq_refl ltac:(done)).
  apply Forall_forall. intros o Ho.
  rewrite Forall_forall in Htl. rewrite Forall_forall in Hlab.
  split; [by apply Hlab|].
  destruct (Htl o Ho) as (tl & Htf & Hty & Hcf & Hn).
  exists tl. split; [exact Htf|]. split; [exact (Hn _ eq_refl)|].
  split; [exact (Hty eq_refl) | exact (Hcf eq_refl)].
Defined.

Lemma construction_keeps_constructed_witness :
  wf example_built ∧ Forall (valid example_built) [RLine 0; RSurface 0] ∧
  ∃ st', for_ [RLine 0; RSurface 0] (before_sync count_reply) example_built = Ok (tt, st') ∧
         heap_lines st' !! 0 = heap_lines example_built !! 0.
Proof.
  assert (Hwf : wf example_built) by solve_wf.
  assert (Hv : Forall (valid example_built) [RLine 0; RSurface 0]).
  { repeat constructor; simpl; lia. }
  split; [exact Hwf|]. split; [exact Hv|].
  destruct (construction_keeps_constructed count_reply example_built
              [RLine 0; RSurface 0] Hwf Hv)
    as (st' & Hrun & _ & Hl & _).
  exists st'. split; [exact Hrun|]. exact (Hl 0 _ eq_refl eq_refl).
Defined.

Lemma line_created_from_point_tags_witness :
  wf example_state ∧
  ∃ st' D,
    before_sync count_reply (RLine 0) example_state = Ok (tt, st') ∧
    gmsh_calls st' =
      gmsh_calls example_state ++ D
        ++ [geo_add_line (tag_at st' (RPoint 0)) (tag_at st' (RPoint 1))] ∧
    is_Some (tag_at st' (RPoint 0)) ∧ is_Some (tag_at st' (RPoint 1)).
Proof.
  assert (Hwf : wf example_state) by solve_wf.
  split; [exact Hwf|].
  destruct (line_created_from_point_tags count_reply example_state 0 _ Hwf eq_refl eq_refl)
    as (st' & D & Hrun & Hcalls & _ & Hpts).
  exists st', D. split; [exact Hrun|]. split; [exact Hcalls|].
  split.
  - exact (proj2 (proj2 (Hpts 0 (or_introl eq_refl))) eq_refl).
  - exact (proj2 (proj2 (Hpts 1 (or_intror eq_refl))) eq_refl).
Defined.

Lemma loop_created_from_line_tags_witness :
  wf example_state ∧
  ∃ st' D o',
    before_sync count_reply (RCurveLoop 0) example_state = Ok (tt, st') ∧
    heap_loops st' !! 0 = Some o' ∧
    CurveLoop_line_tags o' = (λ l, tag_at st' (RLine l)) <$> [0; 1; 2; 3] ∧
    gmsh_calls st'
      = gmsh_calls example_state ++ D ++ [geo_add_curve_loop (CurveLoop_line_tags o')].
Proof.
  assert (Hwf : wf example_state) by solve_wf.
  split; [exact Hwf|].
  destruct (loop_created_from_line_tags count_reply example_state 0 _ Hwf eq_refl eq_refl)
    as (st' & D & o' & Hrun & Ho' & Htags & Hcalls & _).
  exists st', D, o'. split; [exact Hrun|]. split; [exact Ho'|].
  split; [exact Htags | exact Hcalls].
Defined.


Lemma refinement_keeps_tags_witness :
  wf example_built ∧ Forall (valid example_built) [RSurface 0] ∧
  ∃ st', for_ [RSurface 0] (after_sync count_reply) example_built = Ok (tt, st') ∧
         tag_at st' (RSurface 0) = Some 10%Z ∧ tag_at st' (RLine 3) = Some 8%Z.
Proof.
  assert (Hwf : wf example_built) by solve_wf.
  assert (Hv : Forall (valid example_built) [RSurface 0]).
  { repeat constructor. }
  split; [exact Hwf|]. split; [exact Hv|].
  destruct (refinement_keeps_tags count_reply example_built [RSurface 0] Hwf Hv)
    as (st' & Hrun & Htags & _).
  exists st'. split; [exact Hrun|]. split.
  - exact (proj1 (Htags (RSurface 0) eq_refl)).
  - exact (proj1 (Htags (RLine 3) eq_refl)).
Defined.

(** The example with a second surface on the same loop, a plain one that is
    labelled with the empty string and not yet constructed. *)
Definition plain_example : State :=
  Eval vm_compute in
    default empty_state (exec (PlaneSurface_new [0] [] (Some "") false) example_built).

Lemma plane_surface_group_and_recombine_witness :
  wf plain_example ∧
  ∃ st' DL t,
    after_sync count_reply (RSurface 1) plain_example = Ok (tt, st') ∧
    gmsh_calls st' =
      gmsh_calls plain_example ++ DL
        ++ [add_physical_group 2 [None]; set_physical_name 2 t ""] ++ [] ∧
    refinement_done st' (RCurveLoop 0) = true.
Proof.
  assert (Hwf : wf plain_example) by solve_wf.
  split; [exact Hwf|].
  destruct (plane_surface_group_and_recombine count_reply plain_example 1 _ Hwf
              eq_refl eq_refl eq_refl)
    as (st' & s1 & DL & G & Rc & Hrun & _ & _ & Hdone & Hcalls & _ & HG & _ & _ & HRc).
  eexists st', DL, _. split; [exact Hrun|]. split.
  - rewrite Hcalls, (HG "" eq_refl), (HRc eq_refl). reflexivity.
  - exact (Hdone 0 (list_elem_of_here 0 [])).
Defined.

Lemma get_points_and_lines_short_labels_witness :
  get_points_and_lines square (Scalar (1#10)%Q) (Some (PyList ["a"; "b"])) None None None
    empty_state = Raise IndexError.
Proof.
  assert (Hrows : Forall (λ row : list float, 2 ≤ length row) square).
  { repeat first [apply Forall_nil_2 | apply Forall_cons_2 | (simpl; lia)]. }
  assert (Hpos : 0 < length ["a"; "b"]) by (simpl; lia).
  assert (Hlt : length ["a"; "b"] < length square) by (simpl; lia).
  exact (get_points_and_lines_short_labels square (Scalar (1#10)%Q) ["a"; "b"] None None
           None empty_state Hrows (ex_intro _ _ eq_refl) I I I Hpos Hlt).
Defined.

Lemma session_enter_generate_write_exit_witness :
  wf example_state ∧ Forall (valid example_state) (roots (One (RSurface 0))) ∧
  ∃ st4 G,
    (Geometry_enter count_reply;; Geometry_generate count_reply (One (RSurface 0));;
     Geometry_write count_reply "mesh.msh";; Geometry_exit count_reply) example_state
      = Ok (tt, st4) ∧
    gmsh_calls st4
      = gmsh_calls example_state ++ [initialize] ++ G ++ [write "mesh.msh"; finalize] ∧
    session_open (gmsh_calls st4) = false.
Proof.
  assert (Hwf : wf example_state) by solve_wf.
  assert (Hv : Forall (valid example_state) (roots (One (RSurface 0)))).
  { repeat constructor. }
  split; [exact Hwf|]. split; [exact Hv|].
  destruct (session_enter_generate_write_exit count_reply example_state (One (RSurface 0))
              "mesh.msh" Hwf Hv)
    as (st1 & st2 & st3 & st4 & G & H1 & H2 & H3 & H4 & Hcalls & _ & _ & _ & _ & Hclosed).
  exists st4, G. split; [|split; [exact Hcalls | exact Hclosed]].
  unfold mbind, M_bind. rewrite H1, H2, H3. exact H4.
Defined.

Lemma boundary_layer_on_loop_lines_witness :
  wf example_state ∧ fresh_layer example_state 0 ∧
  ∃ st' t,
    Geometry_generate count_reply (One (RCurveLoop 0)) example_state = Ok (tt, st') ∧
    tag_at st' (RField 0) = Some t ∧
    field_setNumbers t "CurvesList" ((λ l, tag_at st' (RLine l)) <$> [0; 1; 2; 3])
      ∈ new_calls example_state st'.
Proof.
  assert (Hwf : wf example_state) by solve_wf.
  assert (Hfl : fresh_layer example_state 0).
  { eexists _, example_layer. split; [reflexivity|]. split; reflexivity. }
  split; [exact Hwf|]. split; [exact Hfl|].
  exact (boundary_layer_on_loop_lines count_reply example_state 0 _ 0 Hwf eq_refl eq_refl
           eq_refl eq_refl (list_elem_of_here 0 []) Hfl).
Defined.
